(** * Tailor: request handler and client runtime

    A shallow embedding of [lib/request-handler.js] (the server-side request
    pipeline) and of [src/pipe.js] (the client runtime that initialises
    fragments in the browser), together with the properties of both that the
    specification states.

    JavaScript objects used as dictionaries are finite maps ([gmap]),
    numbers that the code only uses as small integers are [Z], strings are
    [string].  Event listeners are modelled as reactions of a state machine
    to the events of its environment; every call the code makes on one of
    its collaborators (the response, the event emitter, the streams, the
    hooks) is appended to an output trace. *)

From Stdlib Require Import ZArith Lia String Ascii List.
From stdpp Require Import base option list gmap strings.

Local Open Scope Z_scope.
Local Open Scope string_scope.
Local Open Scope list_scope.

(** ** Strings of the JavaScript code *)

Module JsString.

(** The character [U+0022], which the header values contain. *)
Definition dq : string := String (ascii_of_nat 34) EmptyString.

(** [s.indexOf(sub)]: position of the first occurrence, [-1] when there is
    none. *)
Definition indexOf (s sub : string) : Z :=
  match String.index 0 sub s with
  | Some n => Z.of_nat n
  | None => -1
  end.

(** A string is truthy when it is not empty. *)
Definition truthy (s : string) : bool := negb (String.eqb s "").

(** [arr.join(sep)] on an array of strings. *)
Fixpoint join (sep : string) (l : list string) : string :=
  match l with
  | [] => ""
  | x :: xs =>
      match xs with
      | [] => x
      | _ :: _ => x +:+ sep +:+ join sep xs
      end
  end.

(** [sub] occurs in [s] at position [n]. *)
Definition occurs_at (sub s : string) (n : nat) : Prop :=
  String.substring n (String.length sub) s = sub.

End JsString.

(** ** Preload hints: [getCrossOriginHeader] and [getAssetsToPreload] *)

Module Preload.
Import JsString.

(** One entry of a parsed [link] header, as [LinkHeader.parse] of the
    package [http-link-header] returns them in [refs]. *)
Record link_ref := LinkRef { rel : string; uri : string }.

(** [host] is [request.headers.host]: [None] when the request carries no
    such header. *)
Definition getCrossOriginHeader (fragmentUrl : string) (host : option string)
  : string :=
  match host with
  | Some h =>
      if truthy h && (indexOf fragmentUrl ("://" +:+ h) <? 0)%Z
      then "crossorigin"
      else ""
  | None => ""
  end.

Definition scriptRefs (refs : list link_ref) : list string :=
  map uri (filter (fun r => rel r = "fragment-script") refs).

Definition styleRefs (refs : list link_ref) : list string :=
  map uri (filter (fun r => rel r = "stylesheet") refs).

(** [!arr[0]]: the array is empty or its first element is the empty
    string. *)
Definition no_first (l : list string) : bool :=
  match l with
  | [] => true
  | u :: _ => negb (truthy u)
  end.

Definition style_hint (u : string) : string :=
  "<" +:+ u +:+ ">; rel=" +:+ dq +:+ "preload" +:+ dq +:+
  "; as=" +:+ dq +:+ "style" +:+ dq +:+ "; nopush".

Definition script_hint (host : option string) (u : string) : string :=
  "<" +:+ u +:+ ">; rel=" +:+ dq +:+ "preload" +:+ dq +:+
  "; as=" +:+ dq +:+ "script" +:+ dq +:+ "; nopush; " +:+
  getCrossOriginHeader u host.

(** [getAssetsToPreload({ link }, { headers })] after [LinkHeader.parse]:
    [refs] are the parsed entries of [link], [host] is [headers.host]. *)
Definition getAssetsToPreload (refs : list link_ref) (host : option string)
  : string :=
  if no_first (scriptRefs refs) && no_first (styleRefs refs) then ""
  else
    join "," (map style_hint (styleRefs refs)
              ++ map (script_hint host) (scriptRefs refs)).

(** The script hint as the specification words it: the fixed text, with
    [crossorigin] after it exactly when [cross] holds. *)
Definition spec_script_hint (u : string) (cross : bool) : string :=
  "<" +:+ u +:+ ">; rel=" +:+ dq +:+ "preload" +:+ dq +:+
  "; as=" +:+ dq +:+ "script" +:+ dq +:+ "; nopush" +:+
  (if cross then "; crossorigin" else "").

End Preload.

(** ** The index generator *)

Module IndexGen.

(** The numbers of JavaScript are doubles.  [index] and [step] hold
    integers; an integer is a double when it has at most 53 significant
    bits and is below [2^1024] in size. *)
Inductive number := Int (z : Z) | Infinity (negative : bool).

(** The integer [z] rounded to the nearest double, the even one of two
    that are equally near (the size of the result is not bounded
    here). *)
Definition double (z : Z) : Z :=
  let a := Z.abs z in
  if (a <? 2 ^ 53)%Z then z
  else
    let e := Z.log2 a - 52 in
    let q := a / 2 ^ e in
    let r := a mod 2 ^ e in
    let half := 2 ^ (e - 1) in
    let q' :=
      if (r <? half)%Z then q
      else if (half <? r)%Z then q + 1
      else if Z.even q then q else q + 1 in
    Z.sgn z * (q' * 2 ^ e).

(** The integer is a double: rounding leaves it as it is. *)
Definition exact (z : Z) : Prop :=
  double z = z ∧ (Z.abs z < 2 ^ 1024)%Z.

(** [a + b] on numbers: the sum is rounded to a double, and is an
    infinity when the rounded sum is too large for one. *)
Definition plus (a : number) (b : Z) : number :=
  match a with
  | Int x =>
      let r := double (x + b) in
      if (2 ^ 1024 <=? Z.abs r)%Z then Infinity (r <? 0)%Z else Int r
  | Infinity n => Infinity n
  end.

(** The closure returned by [nextIndexGenerator(initialIndex, step)] owns
    one mutable cell, [index].  The two arguments are integers that are
    doubles. *)
Record generator := Generator { index : number; step : Z }.

Definition nextIndexGenerator (initialIndex step : Z) : generator :=
  Generator (Int initialIndex) step.

(** One call of the closure: the value returned and the closure after the
    call ([index += step]). *)
Definition next (g : generator) : number * generator :=
  let pastIndex := index g in
  (pastIndex, Generator (plus (index g) (step g)) (step g)).

(** The values returned by [n] successive calls. *)
Fixpoint calls (n : nat) (g : generator) : list number :=
  match n with
  | O => []
  | S n' => let '(i, g') := next g in i :: calls n' g'
  end.

(** The closure after [n] calls. *)
Fixpoint after (n : nat) (g : generator) : generator :=
  match n with
  | O => g
  | S n' => after n' (snd (next g))
  end.

End IndexGen.
(** ** The request handler: [processRequest] *)

Module Handler.
Import JsString Preload.

(** *** Values that cross the handler *)

(** Modelled from the spec: the constant [TEMPLATE_NOT_FOUND] is exported
    by [lib/fetch-template.js], which is not among the sources; the
    specification only says that a template fetch may fail with it.  An
    error code is either that constant or some other value. *)
Inductive error_code := TEMPLATE_NOT_FOUND | OTHER_CODE (c : string).

(** What [typeof] can tell apart. *)
Inductive jsval :=
| JUndefined
| JString (s : string)
| JNumber (n : Z)
| JObject.

Definition typeof_string (v : jsval) : bool :=
  match v with JString _ => true | _ => false end.

Record error := Error { code : option error_code; presentable : jsval }.

Definition is_TEMPLATE_NOT_FOUND (e : error) : bool :=
  match code e with Some TEMPLATE_NOT_FOUND => true | _ => false end.

(** [fragment.attributes]; only [primary] is read by the handler. *)
Record attributes := Attributes { primary : bool; others : gmap string string }.

(** A fragment object, with an identity. *)
Record fragment := Fragment { fid : nat; attrs : attributes }.

Inductive event_name :=
| EvStart | EvResponse | EvEnd | EvError | EvTimeout | EvFallback | EvWarn.

Definition FRAGMENT_EVENTS : list event_name :=
  [EvStart; EvResponse; EvEnd; EvError; EvTimeout; EvFallback; EvWarn].

Definition event_name_eqb (a b : event_name) : bool :=
  match a, b with
  | EvStart, EvStart | EvResponse, EvResponse | EvEnd, EvEnd
  | EvError, EvError | EvTimeout, EvTimeout | EvFallback, EvFallback
  | EvWarn, EvWarn => true
  | _, _ => false
  end.

(** What a fragment emits, with the arguments of the event. *)
Inductive fragment_event :=
| FStart
| FResponse (statusCode : Z) (hs : gmap string string)
| FEnd (size : Z)
| FError (e : error)
| FTimeout
| FFallback (e : error)
| FWarn (e : error).

Definition name_of (ev : fragment_event) : event_name :=
  match ev with
  | FStart => EvStart
  | FResponse _ _ => EvResponse
  | FEnd _ => EvEnd
  | FError _ => EvError
  | FTimeout => EvTimeout
  | FFallback _ => EvFallback
  | FWarn _ => EvWarn
  end.

(** The listeners the handler registers on a fragment with [once]. *)
Inductive listener :=
| Reemit (a : attributes)            (* lines 186-194 *)
| PrimaryResponse (a : attributes)   (* lines 131-155 *)
| PrimaryFallback                    (* lines 157-161 *)
| PrimaryError.                      (* lines 163-167 *)

(** Events the handler emits on itself ([this.emit]); the request argument
    is left out. *)
Inductive emitted :=
| EStart
| EContextError (e : error)
| EError (e : error)
| EResponse (statusCode : Z) (hs : gmap string string)
| EEnd (contentLength : nat)
| EFragment (n : event_name) (a : attributes) (ev : fragment_event).

(** The calls the handler makes, and what the two pipes deliver.
    [this.emit] is taken to return normally (an [error] event finds a
    listener). *)
Inductive action :=
| Emit (e : emitted)
| WriteHead (statusCode : Z) (hs : gmap string string)
| ResponseEnd (body : option string)
| Pipe
| MeterEnd
| ProcessTemplate (nextIndex : IndexGen.generator) (context : gmap string string)
| Write (item : string)
| EndInput
| ResponseWrite (chunk : string)
| ResponseFinish.

(** What happens around the handler. *)
Inductive event :=
| TemplateResolved (parsedTemplate : list string)
| TemplateRejected (e : error)
| ContextResolved (context : gmap string string)
| ContextRejected (e : error)
| FragmentFound (f : fragment)
| FragmentEmits (id : nat) (ev : fragment_event)
| Finish
| StreamError (e : error)
| Data (chunk : string)
| SourceEnd.

Inductive promise (A : Type) := Pending | Fulfilled (a : A) | Rejected.
Arguments Pending {A}.
Arguments Fulfilled {A} a.
Arguments Rejected {A}.

(** What the handler is given: the options it reads, the host header of
    the request, and the parser of the package [http-link-header]
    ([parse link] is [LinkHeader.parse(link).refs], or the empty list when
    there are none). *)
Record config := Config {
  filterResponseHeaders :
    option (attributes → gmap string string → gmap string string);
  maxAssetLinks : Z;
  host : option string;
  parse : string → list link_ref
}.

(** *** The state of one request *)

Record state := State {
  shouldWriteHead : bool;
  responseHeaders : gmap string string;
  templateP : promise (list string);
  contextP : option (gmap string string);
  wired : bool;          (* the [then] callback of line 171 has run *)
  finishL : bool;        (* [once('finish')] still registered *)
  errorL : bool;         (* [once('error')] still registered *)
  listeners : gmap nat (list (event_name * listener));
  statusCode : Z;        (* [response.statusCode], 0 when unset *)
  headersSent : bool;
  responseEnded : bool;
  piped : bool;
  buffered : list string;
  sourceEnded : bool;
  contentSize : nat;
  meterEnded : bool
}.

Definition set_shouldWriteHead (b : bool) (s : state) : state :=
  State b (responseHeaders s) (templateP s) (contextP s) (wired s)
    (finishL s) (errorL s) (listeners s) (statusCode s) (headersSent s)
    (responseEnded s) (piped s) (buffered s) (sourceEnded s)
    (contentSize s) (meterEnded s).

Definition set_responseHeaders (h : gmap string string) (s : state) : state :=
  State (shouldWriteHead s) h (templateP s) (contextP s) (wired s)
    (finishL s) (errorL s) (listeners s) (statusCode s) (headersSent s)
    (responseEnded s) (piped s) (buffered s) (sourceEnded s)
    (contentSize s) (meterEnded s).

Definition set_templateP (p : promise (list string)) (s : state) : state :=
  State (shouldWriteHead s) (responseHeaders s) p (contextP s) (wired s)
    (finishL s) (errorL s) (listeners s) (statusCode s) (headersSent s)
    (responseEnded s) (piped s) (buffered s) (sourceEnded s)
    (contentSize s) (meterEnded s).

Definition set_contextP (c : option (gmap string string)) (s : state) : state :=
  State (shouldWriteHead s) (responseHeaders s) (templateP s) c (wired s)
    (finishL s) (errorL s) (listeners s) (statusCode s) (headersSent s)
    (responseEnded s) (piped s) (buffered s) (sourceEnded s)
    (contentSize s) (meterEnded s).

Definition set_wired (s : state) : state :=
  State (shouldWriteHead s) (responseHeaders s) (templateP s) (contextP s)
    true true true (listeners s) (statusCode s) (headersSent s)
    (responseEnded s) (piped s) (buffered s) (sourceEnded s)
    (contentSize s) (meterEnded s).

Definition set_finishL (b : bool) (s : state) : state :=
  State (shouldWriteHead s) (responseHeaders s) (templateP s) (contextP s)
    (wired s) b (errorL s) (listeners s) (statusCode s) (headersSent s)
    (responseEnded s) (piped s) (buffered s) (sourceEnded s)
    (contentSize s) (meterEnded s).

Definition set_errorL (b : bool) (s : state) : state :=
  State (shouldWriteHead s) (responseHeaders s) (templateP s) (contextP s)
    (wired s) (finishL s) b (listeners s) (statusCode s) (headersSent s)
    (responseEnded s) (piped s) (buffered s) (sourceEnded s)
    (contentSize s) (meterEnded s).

Definition set_listeners (l : gmap nat (list (event_name * listener)))
  (s : state) : state :=
  State (shouldWriteHead s) (responseHeaders s) (templateP s) (contextP s)
    (wired s) (finishL s) (errorL s) l (statusCode s) (headersSent s)
    (responseEnded s) (piped s) (buffered s) (sourceEnded s)
    (contentSize s) (meterEnded s).

Definition set_head (c : Z) (s : state) : state :=
  State (shouldWriteHead s) (responseHeaders s) (templateP s) (contextP s)
    (wired s) (finishL s) (errorL s) (listeners s) c true
    (responseEnded s) (piped s) (buffered s) (sourceEnded s)
    (contentSize s) (meterEnded s).

Definition set_responseEnded (s : state) : state :=
  State (shouldWriteHead s) (responseHeaders s) (templateP s) (contextP s)
    (wired s) (finishL s) (errorL s) (listeners s) (statusCode s)
    (headersSent s) true (piped s) (buffered s) (sourceEnded s)
    (contentSize s) (meterEnded s).

Definition set_piped (s : state) : state :=
  State (shouldWriteHead s) (responseHeaders s) (templateP s) (contextP s)
    (wired s) (finishL s) (errorL s) (listeners s) (statusCode s)
    (headersSent s) (responseEnded s) true (buffered s) (sourceEnded s)
    (contentSize s) (meterEnded s).

Definition set_buffered (b : list string) (s : state) : state :=
  State (shouldWriteHead s) (responseHeaders s) (templateP s) (contextP s)
    (wired s) (finishL s) (errorL s) (listeners s) (statusCode s)
    (headersSent s) (responseEnded s) (piped s) b (sourceEnded s)
    (contentSize s) (meterEnded s).

Definition set_sourceEnded (s : state) : state :=
  State (shouldWriteHead s) (responseHeaders s) (templateP s) (contextP s)
    (wired s) (finishL s) (errorL s) (listeners s) (statusCode s)
    (headersSent s) (responseEnded s) (piped s) (buffered s) true
    (contentSize s) (meterEnded s).

Definition set_contentSize (n : nat) (s : state) : state :=
  State (shouldWriteHead s) (responseHeaders s) (templateP s) (contextP s)
    (wired s) (finishL s) (errorL s) (listeners s) (statusCode s)
    (headersSent s) (responseEnded s) (piped s) (buffered s) (sourceEnded s)
    n (meterEnded s).

Definition set_meterEnded (s : state) : state :=
  State (shouldWriteHead s) (responseHeaders s) (templateP s) (contextP s)
    (wired s) (finishL s) (errorL s) (listeners s) (statusCode s)
    (headersSent s) (responseEnded s) (piped s) (buffered s) (sourceEnded s)
    (contentSize s) true.

(** *** Procedures: state, output, and an exception that ends a listener *)

(** A procedure returns whether it completed ([false]: it threw), the new
    state and the calls it made. *)
Definition proc : Type := state → bool * state * list action.

Definition skip : proc := λ st, (true, st, []).

Definition seq (p q : proc) : proc := λ st,
  match p st with
  | (true, st1, o1) =>
      match q st1 with
      | (ok, st2, o2) => (ok, st2, o1 ++ o2)
      end
  | (false, st1, o1) => (false, st1, o1)
  end.

Definition act (a : action) : proc := λ st, (true, st, [a]).

Definition upd (f : state → state) : proc := λ st, (true, f st, []).

Definition branch (b : state → bool) (p q : proc) : proc := λ st,
  if b st then p st else q st.

Definition reading (k : state → proc) : proc := λ st, k st st.

Fixpoint each {A : Type} (f : A → proc) (l : list A) : proc :=
  match l with
  | [] => skip
  | x :: xs => seq (f x) (each f xs)
  end.

Declare Scope proc_scope.
Delimit Scope proc_scope with proc.
Bind Scope proc_scope with proc.
Notation "p ;; q" := (seq p q) (at level 100, q at level 200, right associativity) : proc_scope.
Local Open Scope proc_scope.

(** *** The response and the two pipes *)

(** [response.writeHead(statusCode, responseHeaders)].  The call is made
    in any case; [http.ServerResponse] throws when the head was sent
    already, which ends the listener that made the call. *)
Definition writeHead (c : Z) : proc := λ st,
  if headersSent st
  then (false, st, [WriteHead c (responseHeaders st)])
  else (true, set_head c st, [WriteHead c (responseHeaders st)]).

(** [response.end(body)] and [response.end()]. *)
Definition response_end (body : option string) : proc :=
  act (ResponseEnd body) ;; upd set_responseEnded.

(** The readable side of the meter has ended and is piped into the
    response: the pipe ends the response. *)
Definition response_finish : proc :=
  branch (λ st, piped st && meterEnded st && negb (responseEnded st))
    (act ResponseFinish ;; upd set_responseEnded)
    skip.

(** Modelled from the spec: the Content-Length Meter
    ([lib/streams/content-length-stream.js], not among the sources) is a
    pass-through stream: every chunk written is forwarded unchanged and
    its byte count accumulated.  A chunk written after the meter was
    closed is not passed on. *)
Definition meter_write (chunk : string) : proc :=
  branch meterEnded skip
    (upd (λ st, set_contentSize (contentSize st + String.length chunk)%nat st) ;;
     branch responseEnded skip (act (ResponseWrite chunk))).

(** Modelled from the spec: on close the meter invokes its completion
    callback with the total, once.  The callback is the one of lines
    99-101: it emits [end] with the content length. *)
Definition meter_end : proc :=
  branch meterEnded skip
    (upd set_meterEnded ;;
     reading (λ st, act (Emit (EEnd (contentSize st)))) ;;
     response_finish).

(** [resultStream.pipe(contentLengthStream).pipe(response)]: what the
    processor produced so far flows through the meter, and the end of the
    processor output, when it was reached already, closes the meter. *)
Definition pipe : proc :=
  act Pipe ;;
  upd set_piped ;;
  reading (λ st, each meter_write (buffered st)) ;;
  upd (set_buffered []) ;;
  branch sourceEnded meter_end skip ;;
  response_finish.

(** *** The listeners of [processRequest] *)

Section WithConfig.
Variable cfg : config.

Definition baseline : gmap string string :=
  <["Cache-Control" := "no-cache, no-store, must-revalidate"]>
    (<["Pragma" := "no-cache"]>
       (<["Content-Type" := "text/html"]> ∅)).

(** Lines 103-122. *)
Definition handleError (err : error) : proc :=
  act (Emit (EError err)) ;;
  branch shouldWriteHead
    (upd (set_shouldWriteHead false) ;;
     writeHead (if is_TEMPLATE_NOT_FOUND err then 404 else 500) ;;
     match presentable err with
     | JString s => response_end (Some s)
     | _ => response_end None
     end)
    (act MeterEnd ;; meter_end).

(** [Object.assign(responseHeaders, filterResponseHeaders(...))] when
    the option is a function (lines 133-138). *)
Definition assign_filtered (a : attributes) (hs : gmap string string)
  (rh : gmap string string) : gmap string string :=
  match filterResponseHeaders cfg with
  | Some f => f a hs ∪ rh
  | None => rh
  end.

(** Lines 140-142. *)
Definition assign_location (hs rh : gmap string string)
  : gmap string string :=
  match hs !! "location" with
  | Some l => if truthy l then <["location" := l]> rh else rh
  | None => rh
  end.

(** Lines 145-147. *)
Definition preloadAssets (hs : gmap string string) : string :=
  match hs !! "link" with
  | Some l =>
      if truthy l then getAssetsToPreload (parse cfg l) (host cfg) else ""
  | None => ""
  end.

(** Lines 148-150. *)
Definition assign_link (hs rh : gmap string string) : gmap string string :=
  if truthy (preloadAssets hs) then <["link" := preloadAssets hs]> rh
  else rh.

(** The listener of the primary fragment's [response] (lines 131-155). *)
Definition primaryResponse (a : attributes) (sc : Z)
  (hs : gmap string string) : proc :=
  upd (λ st, set_responseHeaders (assign_filtered a hs (responseHeaders st)) st) ;;
  upd (λ st, set_responseHeaders (assign_location hs (responseHeaders st)) st) ;;
  upd (λ st, set_responseHeaders (assign_link hs (responseHeaders st)) st) ;;
  reading (λ st, act (Emit (EResponse sc (responseHeaders st)))) ;;
  writeHead sc ;;
  pipe.

(** The listener of the primary fragment's [fallback] (lines 157-161). *)
Definition primaryFallback (err : error) : proc :=
  act (Emit (EError err)) ;;
  writeHead 500 ;;
  pipe.

(** The listener of the primary fragment's [error] (lines 163-167). *)
Definition primaryError (err : error) : proc :=
  act (Emit (EError err)) ;;
  writeHead 500 ;;
  response_end None.

(** Lines 124-168: the listeners [handlePrimaryFragment] adds to the
    fragment, and the latch it clears. *)
Definition primary_listeners (a : attributes)
  : list (event_name * listener) :=
  [(EvResponse, PrimaryResponse a); (EvFallback, PrimaryFallback);
   (EvError, PrimaryError)].

Definition add_listeners (id : nat) (ls : list (event_name * listener))
  (st : state) : state :=
  set_listeners (<[id := default [] (listeners st !! id) ++ ls]> (listeners st)) st.

Definition handlePrimaryFragment (f : fragment) : proc :=
  branch shouldWriteHead
    (upd (set_shouldWriteHead false) ;;
     upd (add_listeners (fid f) (primary_listeners (attrs f))))
    skip.

(** The listener of [fragment:found] (lines 184-199). *)
Definition fragmentFound (f : fragment) : proc :=
  upd (add_listeners (fid f)
         (map (λ n, (n, Reemit (attrs f))) FRAGMENT_EVENTS)) ;;
  (if primary (attrs f) then handlePrimaryFragment f else skip).

(** The listener of the processor's [finish] (lines 201-209). *)
Definition finish : proc :=
  reading (λ st0,
    let sc := if (statusCode st0 =? 0)%Z then 200 else statusCode st0 in
    branch shouldWriteHead
      (upd (set_shouldWriteHead false) ;;
       reading (λ st, act (Emit (EResponse sc (responseHeaders st)))) ;;
       writeHead sc ;;
       pipe)
      skip).

(** One listener of a fragment, called with the event the fragment
    emitted. *)
Definition invoke (ev : fragment_event) (l : listener) : proc :=
  match l, ev with
  | Reemit a, _ => act (Emit (EFragment (name_of ev) a ev))
  | PrimaryResponse a, FResponse sc hs => primaryResponse a sc hs
  | PrimaryFallback, FFallback err => primaryFallback err
  | PrimaryError, FError err => primaryError err
  | _, _ => skip
  end.

(** A fragment emits [ev]: its [once] listeners for that name are
    removed and called in the order they were added. *)
Definition fragmentEmits (id : nat) (ev : fragment_event) : proc :=
  reading (λ st0,
    let ls := default [] (listeners st0 !! id) in
    let hit := filter (λ nl, event_name_eqb (fst nl) (name_of ev) = true) ls in
    let rest := filter (λ nl, event_name_eqb (fst nl) (name_of ev) = false) ls in
    upd (set_listeners (<[id := rest]> (listeners st0))) ;;
    each (λ nl, invoke ev (snd nl)) hit).

(** The [then] callback of line 171, up to [resultStream.end()]. *)
Definition onResolved (parsedTemplate : list string)
  (context : gmap string string) : proc :=
  act (ProcessTemplate
         (IndexGen.nextIndexGenerator 0 (maxAssetLinks cfg)) context) ;;
  upd set_wired ;;
  each (λ item, act (Write item)) parsedTemplate ;;
  act EndInput.

(** [Promise.all([templatePromise, contextPromise]).then(...)]. *)
Definition settle : proc :=
  reading (λ st,
    match templateP st, contextP st, wired st with
    | Fulfilled t, Some c, false => onResolved t c
    | _, _, _ => skip
    end).

(** The reaction of the handler to one event of its environment. *)
Definition react (ev : event) : proc :=
  match ev with
  | TemplateResolved t =>
      branch (λ st, match templateP st with Pending => true | _ => false end)
        (upd (set_templateP (Fulfilled t)) ;; settle) skip
  | TemplateRejected e =>
      branch (λ st, match templateP st with Pending => true | _ => false end)
        (upd (set_templateP Rejected) ;; handleError e) skip
  | ContextResolved c =>
      branch (λ st, match contextP st with None => true | _ => false end)
        (upd (set_contextP (Some c)) ;; settle) skip
  | ContextRejected e =>
      branch (λ st, match contextP st with None => true | _ => false end)
        (act (Emit (EContextError e)) ;;
         upd (set_contextP (Some ∅)) ;; settle) skip
  | FragmentFound f =>
      branch wired (fragmentFound f) skip
  | FragmentEmits id ev =>
      branch wired (fragmentEmits id ev) skip
  | Finish =>
      branch (λ st, wired st && finishL st)
        (upd (set_finishL false) ;; finish) skip
  | StreamError e =>
      branch (λ st, wired st && errorL st)
        (upd (set_errorL false) ;; handleError e) skip
  | Data chunk =>
      branch (λ st, wired st && negb (sourceEnded st))
        (branch piped (meter_write chunk)
           (upd (λ st, set_buffered (buffered st ++ [chunk]) st)))
        skip
  | SourceEnd =>
      branch (λ st, wired st && negb (sourceEnded st))
        (upd set_sourceEnded ;; branch piped meter_end skip)
        skip
  end.

Definition step (st : state) (ev : event) : state * list action :=
  match react ev st with
  | (_, st', o) => (st', o)
  end.

(** The state after a sequence of events, and all the calls made. *)
Fixpoint run (st : state) (evs : list event) : state * list action :=
  match evs with
  | [] => (st, [])
  | ev :: evs' =>
      match step st ev with
      | (st1, o1) =>
          match run st1 evs' with
          | (st2, o2) => (st2, o1 ++ o2)
          end
      end
  end.

(** Lines 70-101: the state in which [processRequest] leaves the
    request, [prior] being [response.statusCode] (0 when unset). *)
Definition initial (prior : Z) : state :=
  State true baseline Pending None false false false ∅ prior
    false false false [] false 0%nat false.

(** The trace of a request: [start] is emitted first (line 71). *)
Definition request (prior : Z) (evs : list event) : state * list action :=
  match run (initial prior) evs with
  | (st, o) => (st, Emit EStart :: o)
  end.

End WithConfig.

(** *** Reading a trace *)

Definition is_writeHead (a : action) : bool :=
  match a with WriteHead _ _ => true | _ => false end.

Definition is_end_event (a : action) : bool :=
  match a with Emit (EEnd _) => true | _ => false end.

(** The call puts body bytes on the response. *)
Definition is_body (a : action) : bool :=
  match a with
  | ResponseWrite _ => true
  | ResponseEnd (Some _) => true
  | _ => false
  end.

(** The call ends the response. *)
Definition is_response_end (a : action) : bool :=
  match a with
  | ResponseEnd _ | ResponseFinish => true
  | _ => false
  end.

Definition count (p : action → bool) (t : list action) : nat :=
  length (List.filter p t).

(** No call satisfying [p] comes before the first [writeHead]. *)
Fixpoint head_first (p : action → bool) (t : list action) : bool :=
  match t with
  | [] => true
  | a :: t' => if is_writeHead a then true else negb (p a) && head_first p t'
  end.

(** Bytes the response received: through the pipe, or as the body given
    to [response.end]. *)
Definition response_bytes (t : list action) : nat :=
  foldr (λ a n,
           match a with
           | ResponseWrite chunk => (String.length chunk + n)%nat
           | ResponseEnd (Some body) => (String.length body + n)%nat
           | _ => n
           end) 0%nat t.

End Handler.

(** ** The client runtime: [pipe.js] *)

Module Pipe.
Import JsString.

(** A script element of the document: its identity and whether it carries
    the attribute [data-pipe]. *)
Record script_el := Script { sid : nat; data_pipe : bool }.

Inductive hook := onStart | onBeforeInit | onAfterInit | onDone.

Definition hook_eqb (a b : hook) : bool :=
  match a, b with
  | onStart, onStart | onBeforeInit, onBeforeInit
  | onAfterInit, onAfterInit | onDone, onDone => true
  | _, _ => false
  end.

(** What the runtime calls: a hook (with the callback installed at that
    moment, [0] being [noop], and its arguments, if any), the AMD loader,
    and the initialisation function of a fragment.  The hooks and the
    initialisation function are taken to return normally. *)
Inductive call :=
| HookCall (h : hook) (callback : nat) (args : option (string * Z))
| Require (script : string) (with_callback : bool)
| Init (node : option nat).

(** What [init(node)] returned, as far as [isPromise] looks at it. *)
Inductive init_result :=
| RNotObject            (* [typeof] is not [object] *)
| RNull                 (* [null]: reading [then] throws *)
| RObject (thenable : bool).

(** What the loaded module exports, after line 101. *)
Inductive module_value :=
| NotAFunction
| InitFunction (returns : init_result).

(** A callback of [end] waiting for the loader, and a pending promise
    with [handlerFn] attached: both hold the closure's [attributes] and
    [index]. *)
Record waiting := Waiting { w_index : Z; w_attributes : string; w_node : option nat }.

Record state := State {
  placeholders : gmap Z (option nat);
  starts : gmap Z (option nat);
  scripts : list script_el;
  initState : list Z;
  hooks : hook → nat;
  readyState : string;
  loading : list waiting;
  rendering : list waiting
}.

(** Lines 18-27: the last script carrying [data-pipe], which loses the
    attribute; [None] is [undefined]. *)
Fixpoint currentScript (l : list script_el) : option nat * list script_el :=
  match l with
  | [] => (None, [])
  | s :: rest =>
      match currentScript rest with
      | (Some found, rest') => (Some found, s :: rest')
      | (None, _) =>
          if data_pipe s then (Some (sid s), Script (sid s) false :: rest)
          else (None, s :: rest)
      end
  end.

(** [if (script)]: the argument is given and is not the empty string. *)
Definition given (script : option string) : bool :=
  match script with
  | Some s => truthy s
  | None => false
  end.

(** Lines 29-31. *)
Definition placeholder (index : Z) (st : state) : state * list call :=
  let '(el, scripts') := currentScript (scripts st) in
  (State (<[index := el]> (placeholders st)) (starts st) scripts'
     (initState st) (hooks st) (readyState st) (loading st) (rendering st),
   []).

(** Lines 33-40. *)
Definition start (index : Z) (script : option string) (attributes : string)
  (st : state) : state * list call :=
  let '(el, scripts') := currentScript (scripts st) in
  let starts' := <[index := el]> (starts st) in
  match script with
  | Some s =>
      if truthy s then
        (State (placeholders st) starts' scripts' (initState st ++ [index])
           (hooks st) (readyState st) (loading st) (rendering st),
         [HookCall onStart (hooks st onStart) (Some (attributes, index));
          Require s false])
      else
        (State (placeholders st) starts' scripts' (initState st)
           (hooks st) (readyState st) (loading st) (rendering st), [])
  | None =>
      (State (placeholders st) starts' scripts' (initState st)
         (hooks st) (readyState st) (loading st) (rendering st), [])
  end.

(** The condition of lines 44-48. *)
Definition parsed (st : state) : bool :=
  truthy (readyState st)
  && (String.eqb (readyState st) "complete"
      || String.eqb (readyState st) "interactive").

Definition finished (st : state) : bool :=
  (Z.of_nat (length (initState st)) =? 0)%Z && parsed st.

(** Lines 43-51. *)
Definition fireDone (st : state) : list call :=
  if finished st then [HookCall onDone (hooks st onDone) None] else [].

(** [initState.pop()]. *)
Definition pop (st : state) : state :=
  State (placeholders st) (starts st) (scripts st)
    (removelast (initState st)) (hooks st) (readyState st) (loading st)
    (rendering st).

(** [handlerFn] of lines 60-64. *)
Definition handlerFn (attributes : string) (index : Z) (st : state)
  : state * list call :=
  let st1 := pop st in
  (st1, HookCall onAfterInit (hooks st1 onAfterInit) (Some (attributes, index))
        :: fireDone st1).

(** Lines 57-71; [result] is what [init(node)] returns. *)
Definition doInit (result : init_result) (node : option nat)
  (attributes : string) (index : Z) (st : state) : state * list call :=
  let before :=
    [HookCall onBeforeInit (hooks st onBeforeInit) (Some (attributes, index));
     Init node] in
  match result with
  | RNull => (st, before)
  | RObject true =>
      (State (placeholders st) (starts st) (scripts st) (initState st)
         (hooks st) (readyState st) (loading st)
         (rendering st ++ [Waiting index attributes node]),
       before)
  | RObject false | RNotObject =>
      let '(st1, o) := handlerFn attributes index st in (st1, before ++ o)
  end.

(** The callback given to [require] in [end] (lines 99-112). *)
Definition loaded (m : module_value) (w : waiting) (st : state)
  : state * list call :=
  match m with
  | NotAFunction =>
      let st1 := pop st in
      (st1,
       [HookCall onBeforeInit (hooks st1 onBeforeInit)
          (Some (w_attributes w, w_index w));
        HookCall onAfterInit (hooks st1 onAfterInit)
          (Some (w_attributes w, w_index w))]
       ++ fireDone st1)
  | InitFunction result =>
      doInit result (w_node w) (w_attributes w) (w_index w) st
  end.

(** The document, as far as [end] looks at it.  [scripts] is a live
    collection: it holds the script elements that are in the document, in
    the order of the document, and a script that [removeChild] took out
    is no longer in it and has no parent.  The markers of a fragment are
    taken to be children of one element, as the server writes them: the
    scripts that follow a marker in the document are then its later
    siblings and what these contain. *)

(** The script is in the document. *)
Definition attached (x : nat) (l : list script_el) : bool :=
  existsb (λ s, Nat.eqb (sid s) x) l.

(** [parentNode.removeChild(x)]. *)
Definition detach (x : nat) (l : list script_el) : list script_el :=
  List.filter (λ s, negb (Nat.eqb (sid s) x)) l.

(** The scripts from [x] on. *)
Fixpoint from (x : nat) (l : list script_el) : list script_el :=
  match l with
  | [] => []
  | s :: rest => if Nat.eqb (sid s) x then s :: rest else from x rest
  end.

(** The scripts up to [x], with [x]; [None] when [x] is not among
    them. *)
Fixpoint upto (x : nat) (l : list script_el) : option (list script_el) :=
  match l with
  | [] => None
  | s :: rest =>
      if Nat.eqb (sid s) x then Some [s]
      else option_map (cons s) (upto x rest)
  end.

(** [insertBefore(node, placeholder)] for the nodes that hold the scripts
    [seg], one after the other: they leave their places and stand before
    [p]; [p] itself, inserted before itself, stays where it is. *)
Fixpoint put_before (p : nat) (seg l : list script_el) : list script_el :=
  match l with
  | [] => []
  | s :: rest =>
      if Nat.eqb (sid s) p then seg ++ s :: rest
      else s :: put_before p seg rest
  end.

Definition moved_before (p : nat) (seg l : list script_el)
  : list script_el :=
  let seg' := detach p seg in
  put_before p seg'
    (List.filter (λ s, negb (attached (sid s) seg')) l).

(** Lines 79-87, with the placeholder [p]: whether they complete, and
    the scripts of the document after them.  The [parentNode] of the
    placeholder is [null] when it is not in the document, and line 84
    throws.  Otherwise the loop moves the start marker and its later
    siblings before the placeholder, up to the end marker; when the end
    marker is not among them the loop runs past the last sibling and
    line 83 throws.  A start marker that is not in the document has no
    sibling: it is put before the placeholder, alone.  Line 86 removes
    the placeholder. *)
Definition move_to (p s : nat) (end_el : option nat) (l : list script_el)
  : bool * list script_el :=
  if attached p l then
    let siblings := if attached s l then from s l else [Script s false] in
    match end_el with
    | Some e =>
        match upto e siblings with
        | Some seg => (true, detach p (moved_before p seg l))
        | None => (false, moved_before p siblings l)
        end
    | None => (false, moved_before p siblings l)
    end
  else (false, l).

(** Lines 79-97: whether they complete, and the scripts of the document
    after them.  [l] holds the scripts after line 76.  Without a start
    marker, reading [nextSibling] throws (line 83 or 88) before anything
    is moved.  Line 96 throws when the start marker is not in the
    document, and removes it otherwise; line 97 throws when there is no
    end marker or it is not in the document, and removes it
    otherwise. *)
Definition dom_end (placeholder start end_el : option nat)
  (l : list script_el) : bool * list script_el :=
  match start with
  | None => (false, l)
  | Some s =>
      let '(moved, l1) :=
        match placeholder with
        | Some p => move_to p s end_el l
        | None => (true, l)
        end in
      if moved && attached s l1 then
        match end_el with
        | Some e =>
            if attached e (detach s l1)
            then (true, detach e (detach s l1))
            else (false, detach s l1)
        | None => (false, detach s l1)
        end
      else (false, l1)
  end.

(** Lines 73-113.  [node] is the element the walk of lines 88-95 ends
    on.  An exception in lines 79-97 ends the call before [require]. *)
Definition end_ (index : Z) (script : option string) (attributes : string)
  (node : option nat) (st : state) : state * list call :=
  let placeholder := default None (placeholders st !! index) in
  let start := default None (starts st !! index) in
  let '(end_el, scripts') := currentScript (scripts st) in
  let '(completed, scripts'') :=
    dom_end placeholder start end_el scripts' in
  let waits :=
    if completed && given script
    then loading st ++ [Waiting index attributes node]
    else loading st in
  (State (placeholders st) (starts st) scripts'' (initState st) (hooks st)
     (readyState st) waits (rendering st),
   match script with
   | Some s => if completed && truthy s then [Require s true] else []
   | None => []
   end).

(** Lines 190-194. *)
Definition assignHook (h : hook) (cb : nat) (st : state) : state :=
  State (placeholders st) (starts st) (scripts st) (initState st)
    (λ h', if hook_eqb h h' then cb else hooks st h')
    (readyState st) (loading st) (rendering st).

(** What happens to the runtime: the calls of the page on its interface,
    the loader and the promises calling back, and the document changing
    around it. *)
Inductive event :=
| CallPlaceholder (index : Z)
| CallStart (index : Z) (script : option string) (attributes : string)
| CallEnd (index : Z) (script : option string) (attributes : string)
    (node : option nat)
| CallAssignHook (h : hook) (cb : nat)
| ModuleLoaded (k : nat) (m : module_value)
| PromiseSettled (k : nat)
| ReadyStateChange (s : string)
| ScriptParsed (el : script_el).

Definition step (st : state) (ev : event) : state * list call :=
  match ev with
  | CallPlaceholder index => placeholder index st
  | CallStart index script attributes => start index script attributes st
  | CallEnd index script attributes node =>
      end_ index script attributes node st
  | CallAssignHook h cb => (assignHook h cb st, [])
  | ModuleLoaded k m =>
      match loading st !! k with
      | Some w =>
          loaded m w
            (State (placeholders st) (starts st) (scripts st) (initState st)
               (hooks st) (readyState st) (delete k (loading st))
               (rendering st))
      | None => (st, [])
      end
  | PromiseSettled k =>
      match rendering st !! k with
      | Some w =>
          handlerFn (w_attributes w) (w_index w)
            (State (placeholders st) (starts st) (scripts st) (initState st)
               (hooks st) (readyState st) (loading st)
               (delete k (rendering st)))
      | None => (st, [])
      end
  | ReadyStateChange s =>
      (State (placeholders st) (starts st) (scripts st) (initState st)
         (hooks st) s (loading st) (rendering st), [])
  | ScriptParsed el =>
      (State (placeholders st) (starts st) (scripts st ++ [el])
         (initState st) (hooks st) (readyState st) (loading st)
         (rendering st), [])
  end.

(** The states the runtime goes through, each with the calls made by the
    step that led to it. *)
Fixpoint run (st : state) (evs : list event) : list (state * list call) :=
  match evs with
  | [] => []
  | ev :: evs' =>
      let '(st1, o) := step st ev in (st1, o) :: run st1 evs'
  end.

(** Lines 2-16. *)
Definition initial (doc_scripts : list script_el) (ready : string) : state :=
  State ∅ ∅ doc_scripts [] (λ _, 0%nat) ready [] [].

Definition is_onDone (c : call) : bool :=
  match c with HookCall onDone _ _ => true | _ => false end.

Definition is_hook_call (c : call) : bool :=
  match c with HookCall _ _ _ => true | _ => false end.

End Pipe.

(** ** What holds of the states and traces of a request *)

Module HandlerInv.
Import Handler.

Definition is_primary_listener (l : listener) : bool :=
  match l with Reemit _ => false | _ => true end.

(** The listeners of [handlePrimaryFragment] among the listeners of a
    fragment. *)
Definition prim (ls : list (event_name * listener))
  : list (event_name * listener) :=
  filter (λ nl, is_primary_listener (snd nl) = true) ls.

(** Those of them registered for the event [n]. *)
Definition prim_for (n : event_name) (ls : list (event_name * listener))
  : list (event_name * listener) :=
  filter (λ nl, event_name_eqb (fst nl) n = true) (prim ls).

Definition listeners_of (st : state) (id : nat)
  : list (event_name * listener) :=
  default [] (listeners st !! id).

Definition baseline_keys : list string :=
  ["Cache-Control"; "Pragma"; "Content-Type"].

Definition total (chunks : list string) : nat :=
  foldr (λ c n, (String.length c + n)%nat) 0%nat chunks.

(** The handler ended the response itself, in [handleError], before
    anything was piped. *)
Definition ended_by_handleError (st : state) : Prop :=
  headersSent st = true ∧ piped st = false ∧ meterEnded st = false
  ∧ shouldWriteHead st = false
  ∧ ((templateP st = Rejected ∧ wired st = false)
     ∨ (wired st = true ∧ errorL st = false)).

Record state_inv (prior : Z) (st : state) : Prop := StateInv {
  inv_latch :
    shouldWriteHead st = true →
    headersSent st = false ∧ responseHeaders st = baseline
    ∧ statusCode st = prior ∧ ∀ id, prim (listeners_of st id) = [];
  inv_piped : piped st = true → headersSent st = true;
  inv_ended : responseEnded st = true → headersSent st = true;
  inv_closed : meterEnded st = true → shouldWriteHead st = false;
  inv_live :
    piped st = true → meterEnded st = false → responseEnded st = false;
  inv_size : piped st = false → contentSize st = 0%nat;
  inv_pending :
    templateP st = Pending → wired st = false ∧ shouldWriteHead st = true;
  inv_rejected : templateP st = Rejected → wired st = false;
  inv_unwired : wired st = false → piped st = false ∧ meterEnded st = false;
  inv_keys : ∀ k, k ∈ baseline_keys → is_Some (responseHeaders st !! k)
}.

Definition silent (a : action) : Prop :=
  is_writeHead a = false ∧ is_body a = false ∧ is_response_end a = false.

Record trace_inv (st : state) (t : list action) : Prop := TraceInv {
  tr_before : headersSent st = false → Forall silent t;
  tr_sent : headersSent st = true → (1 ≤ count is_writeHead t)%nat;
  tr_body : head_first is_body t = true;
  tr_end : head_first is_response_end t = true;
  tr_end_count :
    count is_end_event t = if meterEnded st then 1%nat else 0%nat;
  tr_end_size : ∀ n, Emit (EEnd n) ∈ t → n = contentSize st;
  tr_bytes : response_bytes t = contentSize st ∨ ended_by_handleError st;
  tr_keys :
    ∀ c hs k, WriteHead c hs ∈ t → k ∈ baseline_keys → is_Some (hs !! k)
}.

(** At most one fragment holds listeners of [handlePrimaryFragment], and
    it holds at most one for each event. *)
Definition armed_inv (st : state) (who : option nat) : Prop :=
  (shouldWriteHead st = true → who = None)
  ∧ ∀ id,
      (who ≠ Some id → prim (listeners_of st id) = [])
      ∧ ∀ n, (length (prim_for n (listeners_of st id)) ≤ 1)%nat.

(** The events [handlePrimaryFragment] listens to. *)
Definition head_names : list event_name := [EvResponse; EvFallback; EvError].

(** Fragment [id] emits the event [n] in [evs]. *)
Definition emits (id : nat) (n : event_name) (evs : list event) : bool :=
  existsb (λ ev, match ev with
                 | FragmentEmits id' fe =>
                     Nat.eqb id id' && event_name_eqb (name_of fe) n
                 | _ => false
                 end) evs.

(** How many of the events [response], [fallback] and [error] fragment
    [id] emits in [evs], an event emitted again not counted again. *)
Definition head_kinds (id : nat) (evs : list event) : nat :=
  length (List.filter (λ n, emits id n evs) head_names).

(** The fragment [f], found in the state [st], claims the head: the
    listener of [fragment:found] is registered, the fragment is primary
    and the latch is set, so [handlePrimaryFragment] clears the latch and
    adds its three listeners to [f]. *)
Definition claims_head (st : state) (f : fragment) : bool :=
  wired st && shouldWriteHead st && primary (attrs f).

(** The fragment that claims the head in the run of [evs] from [st], if
    there is one, emits after it was found at most one of [response],
    [fallback] and [error]. *)
Definition claimant_heads_once (cfg : config) (st : state)
  (evs : list event) : Prop :=
  ∀ pre f post,
    evs = pre ++ FragmentFound f :: post →
    claims_head (fst (run cfg st pre)) f = true →
    (head_kinds (fid f) post ≤ 1)%nat.

(** The events that clear the latch. *)
Definition clears_latch (ev : event) : bool :=
  match ev with
  | FragmentFound f => primary (attrs f)
  | Finish | StreamError _ | TemplateRejected _ => true
  | _ => false
  end.

(** The value of header [k] in each call of [writeHead]. *)
Definition head_values (k : string) (t : list action)
  : list (Z * option string) :=
  omap (λ a, match a with
             | WriteHead c hs => Some (c, hs !! k)
             | _ => None
             end) t.

Definition is_context_error (a : action) : bool :=
  match a with Emit (EContextError _) => true | _ => false end.

(** The headers the listener of the primary [response] passes on. *)
Definition response_head (cfg : config) (a : attributes)
  (hs rh : gmap string string) : gmap string string :=
  assign_link cfg hs (assign_location hs (assign_filtered cfg a hs rh)).

(** [filterResponseHeaders] leaves the baseline headers alone. *)
Definition keeps_baseline (cfg : config) : Prop :=
  match filterResponseHeaders cfg with
  | Some f => ∀ a hs k, k ∈ baseline_keys → f a hs !! k = None
  | None => True
  end.

Definition bytes_of (a : action) : nat :=
  match a with
  | ResponseWrite chunk => String.length chunk
  | ResponseEnd (Some body) => String.length body
  | _ => 0%nat
  end.

(** A call that neither touches the response nor reports the end. *)
Definition benign (a : action) : Prop :=
  is_writeHead a = false ∧ is_body a = false
  ∧ is_response_end a = false ∧ is_end_event a = false.

Definition inv (prior : Z) (st : state) (t : list action) : Prop :=
  state_inv prior st ∧ trace_inv st t.

(** The parts of what a procedure returns. *)
Definition ok_of (r : bool * state * list action) : bool := fst (fst r).
Definition st_of (r : bool * state * list action) : state := snd (fst r).
Definition out_of (r : bool * state * list action) : list action := snd r.

(** A procedure keeps the invariant, from the states in which [C] holds,
    and does not set the latch again. *)
Definition preserves (C : state → Prop) (p : proc) : Prop :=
  ∀ prior st t, C st → inv prior st t →
    inv prior (st_of (p st)) (t ++ out_of (p st))
    ∧ (shouldWriteHead st = false → shouldWriteHead (st_of (p st)) = false)
    ∧ (wired st = true → wired (st_of (p st)) = true).

(** A procedure calls [writeHead] at most [n] times. *)
Definition heads (n : nat) (p : proc) : Prop :=
  ∀ st, (count is_writeHead (out_of (p st)) ≤ n)%nat.

(** A procedure leaves the latch and the listeners as they are. *)
Definition keeps (p : proc) : Prop :=
  ∀ st, shouldWriteHead (st_of (p st)) = shouldWriteHead st
        ∧ listeners (st_of (p st)) = listeners st.

(** The events to which a listener of [handlePrimaryFragment] reacts. *)
Definition is_head_type (ev : fragment_event) : bool :=
  match ev with
  | FResponse _ _ | FFallback _ | FError _ => true
  | _ => false
  end.

(** A procedure that leaves the listeners alone, never sets the latch,
    and calls [writeHead] at most once, and only if it clears the
    latch. *)
Definition mild (p : proc) : Prop :=
  ∀ st,
    listeners (st_of (p st)) = listeners st
    ∧ (shouldWriteHead st = false →
       shouldWriteHead (st_of (p st)) = false
       ∧ count is_writeHead (out_of (p st)) = 0%nat)
    ∧ (shouldWriteHead st = true →
       (count is_writeHead (out_of (p st)) ≤ 1)%nat
       ∧ (shouldWriteHead (st_of (p st)) = true →
          count is_writeHead (out_of (p st)) = 0%nat)).

(** The listeners of [handlePrimaryFragment] on fragment [id] that an
    event of [evs] will call. *)
Definition pending (st : state) (id : nat) (evs : list event) : nat :=
  foldr (λ n k,
           ((if emits id n evs
             then length (prim_for n (listeners_of st id)) else 0) + k)%nat)
    0%nat head_names.

(** The bound on the calls of [writeHead] still to come. *)
Definition heads_left (st : state) (who : option nat) (evs : list event)
  : nat :=
  if shouldWriteHead st then 1%nat
  else match who with
       | Some id => pending st id evs
       | None => 0%nat
       end.

(** The status and the body [handleError] answers with. *)
Definition error_status (err : error) : Z :=
  if is_TEMPLATE_NOT_FOUND err then 404 else 500.

Definition error_body (err : error) : option string :=
  match presentable err with JString s => Some s | _ => None end.

(** [response.statusCode || 200]. *)
Definition finish_status (st : state) : Z :=
  if (statusCode st =? 0)%Z then 200 else statusCode st.

Definition not_end (x : emitted) : Prop :=
  match x with EEnd _ => False | _ => True end.

(** A change of state that the invariant does not look at. *)
Definition same_view (st st' : state) : Prop :=
  shouldWriteHead st' = shouldWriteHead st
  ∧ responseHeaders st' = responseHeaders st
  ∧ templateP st' = templateP st
  ∧ wired st' = wired st
  ∧ errorL st' = errorL st
  ∧ statusCode st' = statusCode st
  ∧ headersSent st' = headersSent st
  ∧ responseEnded st' = responseEnded st
  ∧ piped st' = piped st
  ∧ contentSize st' = contentSize st
  ∧ meterEnded st' = meterEnded st
  ∧ (shouldWriteHead st = true →
     ∀ id, prim (listeners_of st' id) = []).

(** What a step costs, against what is left after it; the fragment that
    holds the listeners of [handlePrimaryFragment] stays the same once
    the latch is cleared. *)
Definition pays_at (p : proc) (ev : event) (st : state) : Prop :=
  ∀ who, armed_inv st who →
    ∃ who', armed_inv (st_of (p st)) who'
      ∧ (shouldWriteHead st = false → who' = who)
      ∧ ∀ rest,
          (∀ f, ev = FragmentFound f → claims_head st f = true →
                (head_kinds (fid f) rest ≤ 1)%nat) →
          (count is_writeHead (out_of (p st))
           + heads_left (st_of (p st)) who' rest
           ≤ heads_left st who (ev :: rest))%nat.

Definition pays (p : proc) (ev : event) : Prop := ∀ st, pays_at p ev st.

(** The baseline headers have their baseline values. *)
Definition plain (hs : gmap string string) : Prop :=
  ∀ k, k ∈ baseline_keys → hs !! k = baseline !! k.

(** A procedure keeps them so, and passes them so to [writeHead]. *)
Definition plain_heads (p : proc) : Prop :=
  ∀ st, plain (responseHeaders st) →
    plain (responseHeaders (st_of (p st)))
    ∧ ∀ c hs, WriteHead c hs ∈ out_of (p st) → plain hs.

End HandlerInv.

(** ** Sample requests *)

Module Samples.
Import Handler.

Definition cfg_plain : config :=
  Config None 3 (Some "localhost") (λ _, []).

(** A filter that answers with a content type of its own. *)
Definition cfg_json : config :=
  Config (Some (λ _ _, {["Content-Type" := "application/json"]})) 3
    (Some "localhost") (λ _, []).

Definition first_primary : fragment := Fragment 0 (Attributes true ∅).
Definition second_primary : fragment := Fragment 1 (Attributes true ∅).

Definition plain_error : error := Error None JUndefined.
Definition not_found : error :=
  Error (Some TEMPLATE_NOT_FOUND) (JString "oops").

(** Template and context are there, and the primary fragment is found. *)
Definition primary_found : list event :=
  [TemplateResolved []; ContextResolved ∅; FragmentFound first_primary].

(** The primary fragment responds, and the page is streamed to its end. *)
Definition served : list event :=
  primary_found
  ++ [FragmentEmits 0 (FResponse 200 ∅); Data "hello"; SourceEnd].

(** The primary fragment responds and, while the page is streamed, emits
    [error]. *)
Definition response_then_error : list event :=
  primary_found
  ++ [FragmentEmits 0 (FResponse 200 ∅); Data "hello";
      FragmentEmits 0 (FError plain_error); SourceEnd].

(** A second primary fragment is found, and responds first. *)
Definition second_responds : list event :=
  primary_found
  ++ [FragmentFound second_primary; FragmentEmits 1 (FResponse 200 ∅)].

(** Next to the primary fragment there is another fragment, which emits
    [response] and then [error]; the primary fragment responds, and its
    request emits [response] once more. *)
Definition other_fails : list event :=
  primary_found
  ++ [FragmentFound (Fragment 5 (Attributes false ∅));
      FragmentEmits 5 (FResponse 200 ∅);
      FragmentEmits 5 (FError plain_error);
      FragmentEmits 0 (FResponse 200 ∅);
      FragmentEmits 0 (FResponse 200 ∅);
      Data "hello"; SourceEnd].

End Samples.

(** ** Sample pages *)

Module Pages.
Import Pipe.

(** One fragment with a script: its two markers are parsed and run, and
    its module exports an initialisation function that returns no
    promise. *)
Definition markers : list event :=
  [ScriptParsed (Script 1 true); CallStart 0 (Some "a.js") "{}";
   ScriptParsed (Script 2 true); CallEnd 0 (Some "a.js") "{}" (Some 7%nat)].

(** The document is parsed before the module is loaded. *)
Definition parsed_first : list event :=
  markers
  ++ [ReadyStateChange "interactive"; ModuleLoaded 0 (InitFunction RNotObject)].

(** The module is loaded while the document is still loading. *)
Definition loaded_first : list event :=
  markers
  ++ [ModuleLoaded 0 (InitFunction RNotObject); ReadyStateChange "interactive"].

(** All the calls of a run, and the state it ends in. *)
Definition calls (evs : list event) : list call :=
  concat (map snd (run (initial [] "loading") evs)).

Definition final (evs : list event) : state :=
  default (initial [] "loading")
    (last (map fst (run (initial [] "loading") evs))).

End Pages.

(** ** Performance entries: [addPerfEntry] and [getEntries] of [pipe.js] *)

Module Perf.

Inductive outcome := Returned | Thrown.

Section Entries.
(** The numbers of JavaScript and the values a fragment passes are left
    open: the two functions only convert, test and subtract them.
    [Number d] is [None] when the conversion throws; [truthy_num] is
    the truth value of a number, [minus] the subtraction. *)
Variables (num value : Type).
Variable Number : value → option num.
Variable truthy_num : num → bool.
Variable minus : num → num → num.

Record entry := Entry {
  name : value;
  duration : num;
  entryType : string;
  startTime : num
}.

(** [window.performance] at the time of a call: which keys it has (the
    operator [in]), what [perf.now()] returns ([None]: the call throws)
    and what [perf.timing.navigationStart] is ([None]: [perf.timing] is
    [undefined], so reading the property throws). *)
Record performance := Performance {
  has_key : string → bool;
  now : option num;
  navigationStart : option num
}.

(** Lines 173-184.  [perf] is [None] when [window.performance] is
    [undefined]; [date_now] is what [Date.now()] returns.  In line 175
    the negation applies to the string: the test is [false in perf],
    the key being the text [false]. *)
Definition addPerfEntry (perf : option performance) (date_now : num)
  (n duration : value) (entries : list entry) : outcome * list entry :=
  match perf with
  | None => (Thrown, entries)
  | Some p =>
      if has_key p "false" then (Returned, entries)
      else
        match Number duration with
        | None => (Thrown, entries)
        | Some d =>
            match now p with
            | None => (Thrown, entries)
            | Some t =>
                if truthy_num t
                then (Returned, entries ++ [Entry n d "tailor" t])
                else
                  match navigationStart p with
                  | None => (Thrown, entries)
                  | Some t0 =>
                      (Returned,
                       entries ++ [Entry n d "tailor" (minus date_now t0)])
                  end
            end
        end
  end.

(** Lines 186-188. *)
Definition getEntries (entries : list entry) : list entry := entries.

(** One call of [addPerfEntry], with the world it is made in. *)
Record report := Report {
  r_perf : option performance;
  r_date : num;
  r_name : value;
  r_duration : value
}.

(** The entries after the calls [rs], made one after the other. *)
Definition reported (rs : list report) (entries : list entry)
  : list entry :=
  fold_left
    (λ es r, snd (addPerfEntry (r_perf r) (r_date r) (r_name r)
                    (r_duration r) es))
    rs entries.

(** The call adds an entry. *)
Definition adds (r : report) : bool :=
  match r_perf r with
  | None => false
  | Some p =>
      negb (has_key p "false")
      && match Number (r_duration r), now p with
         | Some _, Some t =>
             truthy_num t
             || match navigationStart p with Some _ => true | None => false end
         | _, _ => false
         end
  end.

End Entries.

Arguments Entry {num value}.
Arguments Performance {num}.
Arguments Report {num value}.
Arguments name {num value}.
Arguments duration {num value}.
Arguments entryType {num value}.
Arguments startTime {num value}.
Arguments has_key {num}.
Arguments now {num}.
Arguments navigationStart {num}.
Arguments r_perf {num value}.
Arguments r_date {num value}.
Arguments r_name {num value}.
Arguments r_duration {num value}.
Arguments addPerfEntry {num value}.
Arguments getEntries {num value}.
Arguments reported {num value}.
Arguments adds {num value}.

End Perf.

(** ** Runs of the client runtime *)

Module PipeRuns.
Import Pipe.

(** All the calls of a run from [st], and the state it ends in. *)
Definition calls_of (st : state) (evs : list event) : list call :=
  concat (map snd (run st evs)).

Definition final_of (st : state) (evs : list event) : state :=
  default st (last (map fst (run st evs))).

Definition is_hook (h : hook) (c : call) : bool :=
  match c with HookCall h' _ _ => hook_eqb h h' | _ => false end.

Definition is_callback_request (c : call) : bool :=
  match c with Require _ true => true | _ => false end.

Definition is_init (c : call) : bool :=
  match c with Init _ => true | _ => false end.

Definition number (p : call → bool) (cs : list call) : nat :=
  length (List.filter p cs).

(** The callback that the calls of [assignHook] in [evs] leave installed
    for [h], starting from [cb]. *)
Definition installed (h : hook) (evs : list event) (cb : nat) : nat :=
  fold_left
    (λ cb ev,
       match ev with
       | CallAssignHook h' cb' => if hook_eqb h' h then cb' else cb
       | _ => cb
       end)
    evs cb.

(** The calls of [start] and of [end] that are given a script. *)
Definition is_start_with_script (ev : event) : bool :=
  match ev with CallStart _ script _ => given script | _ => false end.

Definition is_end_with_script (ev : event) : bool :=
  match ev with CallEnd _ script _ _ => given script | _ => false end.

Definition starts_with_script (evs : list event) : nat :=
  length (List.filter is_start_with_script evs).

Definition ends_with_script (evs : list event) : nat :=
  length (List.filter is_end_with_script evs).

(** A hook call that goes to the callback installed in [st]. *)
Definition to_current (st : state) (c : call) : Prop :=
  match c with
  | HookCall h cb _ => cb = hooks st h
  | _ => True
  end.

(** The scripts that carry [data-pipe]. *)
Definition marked (l : list script_el) : list script_el :=
  List.filter data_pipe l.

End PipeRuns.

(** ** More on the traces of a request *)

Module HandlerTraces.
Import Handler HandlerInv.

(** A procedure that leaves a part of the state as it is. *)
Definition stays {A : Type} (field : state → A) (p : proc) : Prop :=
  ∀ st, field (st_of (p st)) = field st.

(** A procedure that makes no call of the kind [q]. *)
Definition quiet (q : action → bool) (p : proc) : Prop :=
  ∀ st, List.filter q (out_of (p st)) = [].

(** A call on the template processor: creating it, writing an item of the
    template to it, ending its input. *)
Definition is_input (a : action) : bool :=
  match a with
  | ProcessTemplate _ _ | Write _ | EndInput => true
  | _ => false
  end.

(** The calls of lines 172-216 on the processor. *)
Definition input_calls (cfg : config) (tpl : list string)
  (ctx : gmap string string) : list action :=
  ProcessTemplate (IndexGen.nextIndexGenerator 0 (maxAssetLinks cfg)) ctx
  :: map Write tpl ++ [EndInput].

(** The context promise settled with [ctx]: the fetch resolved with it,
    or it failed and [ctx] is the empty object of line 87. *)
Definition settled_with (evs : list event) (ctx : gmap string string)
  : Prop :=
  ContextResolved ctx ∈ evs ∨ (ctx = ∅ ∧ ∃ e, ContextRejected e ∈ evs).

(** The processor was created at most once, from what the two promises
    settled with. *)
Definition processed (cfg : config) (evs : list event) (st : state)
  (t : list action) : Prop :=
  (∀ tpl, templateP st = Fulfilled tpl → TemplateResolved tpl ∈ evs)
  ∧ (∀ ctx, contextP st = Some ctx → settled_with evs ctx)
  ∧ if wired st
    then ∃ tpl ctx, templateP st = Fulfilled tpl ∧ contextP st = Some ctx
                    ∧ List.filter is_input t = input_calls cfg tpl ctx
    else List.filter is_input t = [].

(** The events that settle one of the two promises. *)
Definition settles (ev : event) : bool :=
  match ev with
  | TemplateResolved _ | TemplateRejected _
  | ContextResolved _ | ContextRejected _ => true
  | _ => false
  end.

Definition is_emit (a : action) : bool :=
  match a with Emit _ => true | _ => false end.

(** The event announces the head [writeHead] is called with next: it is
    [response] with the same status and headers, or [error]. *)
Definition announces (prev : option action) (c : Z)
  (hs : gmap string string) : Prop :=
  match prev with
  | Some (Emit (EResponse c' hs')) => c' = c ∧ hs' = hs
  | Some (Emit (EError _)) => True
  | _ => False
  end.

(** Every call of [writeHead] in [t] comes directly after the event that
    announces it; [prev] is the call made before [t]. *)
Fixpoint announced (prev : option action) (t : list action) : Prop :=
  match t with
  | [] => True
  | a :: t' =>
      match a with
      | WriteHead c hs => announces prev c hs
      | _ => True
      end
      ∧ announced (Some a) t'
  end.

(** A procedure whose calls of [writeHead] are announced, whatever was
    called before it. *)
Definition polite (p : proc) : Prop :=
  ∀ st prev, announced prev (out_of (p st)).

(** The fragment [id] still has a listener for the event [n]. *)
Definition waits (n : event_name) (st : state) (id : nat) : bool :=
  existsb (λ nl, event_name_eqb (fst nl) n) (listeners_of st id).

Definition is_fragment_emit (a : action) : bool :=
  match a with Emit (EFragment _ _ _) => true | _ => false end.

Definition is_pipe (a : action) : bool :=
  match a with Pipe => true | _ => false end.

(** The processor output is piped at most once, and only into a response
    whose head was sent. *)
Definition piped_inv (st : state) (t : list action) : Prop :=
  count is_pipe t = (if piped st then 1 else 0)%nat
  ∧ (piped st = true → headersSent st = true).

(** A procedure that keeps it so. *)
Definition careful (p : proc) : Prop :=
  ∀ st t, piped_inv st t → piped_inv (st_of (p st)) (t ++ out_of (p st)).

(** A procedure that changes the response headers only if it also calls
    [writeHead]. *)
Definition frugal (p : proc) : Prop :=
  ∀ st, responseHeaders (st_of (p st)) = responseHeaders st
        ∨ (1 ≤ count is_writeHead (out_of (p st)))%nat.

(** The fragment [id] is not found in [evs]. *)
Definition not_found_in (id : nat) (evs : list event) : Prop :=
  ∀ f, FragmentFound f ∈ evs → fid f ≠ id.

End HandlerTraces.

(** ** More sample requests *)

Module MoreSamples.
Import Handler Samples.

(** Template and context are there. *)
Definition wired_up : list event :=
  [TemplateResolved ["<html>"]; ContextResolved ∅].

Definition some_fragment : fragment := Fragment 5 (Attributes false ∅).

(** A filter that passes on the [link] header of the fragment as it is,
    and a parser that finds one entry in it, with the relation
    [canonical]. *)
Definition cfg_link : config :=
  Config (Some (λ _ hs, match hs !! "link" with
                        | Some l => {["link" := l]}
                        | None => ∅
                        end))
    3 (Some "localhost")
    (λ _, [Preload.LinkRef "canonical" "http://localhost/"]).

Definition canonical_link : gmap string string :=
  {["link" := "<http://localhost/>; rel=canonical"]}.

(** A parser that finds a stylesheet and a script of another host. *)
Definition cfg_assets : config :=
  Config None 3 (Some "localhost")
    (λ _, [Preload.LinkRef "stylesheet" "http://cdn/a.css";
           Preload.LinkRef "fragment-script" "http://cdn/a.js"]).

Definition assets_link : gmap string string :=
  {["link" := "<http://cdn/a.css>; rel=stylesheet, <http://cdn/a.js>; rel=fragment-script"]}.

End MoreSamples.
(** * Properties *)

(** ** Strings *)

Section StringFacts.
Import JsString.

Lemma append_assoc (a b c : string) : (a +:+ b) +:+ c = a +:+ (b +:+ c).
Proof.
  induction a as [|ch a IH]; [reflexivity|].
  change (String ch ((a +:+ b) +:+ c) = String ch (a +:+ (b +:+ c))).
  f_equal. exact IH.
Qed.

Lemma indexOf_negative (s sub : string) :
  (indexOf s sub <? 0)%Z = true ↔ String.index 0 sub s = None.
Proof.
  unfold indexOf. destruct (String.index 0 sub s) as [n|].
  - split; [|discriminate]. intros H. apply Z.ltb_lt in H. lia.
  - split; reflexivity.
Qed.

(** [indexOf] is negative exactly when a non-empty [sub] occurs nowhere. *)
Lemma indexOf_negative_occurs (s sub : string) :
  sub ≠ "" →
  (indexOf s sub <? 0)%Z = true ↔ ∀ n, ¬ occurs_at sub s n.
Proof.
  intros Hne. rewrite indexOf_negative. unfold occurs_at. split.
  - intros Hnone n. apply (String.index_correct3 0 n sub s Hnone Hne).
    apply Nat.le_0_l.
  - intros Hno. destruct (String.index 0 sub s) as [m|] eqn:E; [|reflexivity].
    exfalso. apply (Hno m). exact (String.index_correct1 0 m sub s E).
Qed.

Lemma truthy_spec (s : string) : truthy s = true ↔ s ≠ "".
Proof.
  unfold truthy. rewrite negb_true_iff. apply String.eqb_neq.
Qed.

Lemma join_starts (sep : string) (c : ascii) (l : list string) :
  l ≠ [] →
  (∀ x, x ∈ l → ∃ r, x = String c r) →
  ∃ r, join sep l = String c r.
Proof.
  destruct l as [|x xs]; [congruence|]. intros _ Hall.
  destruct (Hall x) as [r Hr]; [left|]. subst x.
  destruct xs as [|y ys]; simpl; eauto.
Qed.

End StringFacts.

(** ** The index generator *)

Section IndexGenFacts.
Import IndexGen.

(** An addition whose sum is a double is exact. *)
Lemma plus_exact (x b : Z) : exact (x + b) → plus (Int x) b = Int (x + b).
Proof.
  intros [Hd Hb]. unfold plus. rewrite Hd.
  destruct (2 ^ 1024 <=? Z.abs (x + b))%Z eqn:E; [|reflexivity].
  apply Z.leb_le in E. lia.
Qed.

(** The integers up to [2^53] in size are doubles. *)
Lemma exact_small (z : Z) : (Z.abs z <= 2 ^ 53)%Z → exact z.
Proof.
  intros H. split.
  - unfold double. destruct (Z.abs z <? 2 ^ 53)%Z eqn:E; [reflexivity|].
    apply Z.ltb_ge in E. assert (Z.abs z = 2 ^ 53) as Ha by lia.
    rewrite Ha. destruct z as [|p|p]; simpl in Ha; [discriminate| |];
      injection Ha as ->; reflexivity.
  - assert (2 ^ 53 < 2 ^ 1024) by (apply Z.pow_lt_mono_r; lia). lia.
Qed.

(** As long as the sums are doubles, the closure counts in steps. *)
Lemma after_state (k : nat) (i s : Z) :
  (∀ j, (1 ≤ j ≤ k)%nat → exact (i + Z.of_nat j * s)) →
  after k (Generator (Int i) s) = Generator (Int (i + Z.of_nat k * s)) s.
Proof.
  revert i. induction k as [|k IH]; intros i H.
  - simpl. do 2 f_equal. lia.
  - cbn [after next snd index step].
    rewrite plus_exact by (specialize (H 1%nat); replace (i + s)
      with (i + Z.of_nat 1 * s) by lia; apply H; lia).
    rewrite IH.
    + do 2 f_equal. lia.
    + intros j Hj. replace (i + s + Z.of_nat j * s)
        with (i + Z.of_nat (S j) * s) by lia.
      apply H. lia.
Qed.

Lemma calls_values (k : nat) (i s : Z) :
  (∀ j, (1 ≤ j ≤ k)%nat → exact (i + Z.of_nat j * s)) →
  calls k (Generator (Int i) s)
  = map (λ n, Int (i + Z.of_nat n * s)) (List.seq 0 k).
Proof.
  revert i. induction k as [|k IH]; intros i H; [reflexivity|].
  cbn [calls next index step List.seq map]. f_equal; [f_equal; lia|].
  destruct k as [|k]; [reflexivity|].
  rewrite plus_exact by (specialize (H 1%nat); replace (i + s)
    with (i + Z.of_nat 1 * s) by lia; apply H; lia).
  rewrite IH.
  - rewrite <- List.seq_shift, List.map_map. apply List.map_ext.
    intros n. f_equal. lia.
  - intros j Hj. replace (i + s + Z.of_nat j * s)
      with (i + Z.of_nat (S j) * s) by lia.
    apply H. lia.
Qed.

(** C7, as far as the numbers go.  With a step of at least one, as long
    as the multiples of [maxAssetLinks] up to the one of call [k] are
    doubles, which they are up to [2^53], the closure built with initial
    index 0 returns [k * maxAssetLinks] on its call number [k] (counting
    from zero); the values of the first [k] calls are 0, step, 2 * step,
    ..., and every later call whose multiples are doubles returns a
    strictly larger value. *)
Theorem nextIndex_kth_call (maxAssetLinks : Z) (k : nat) :
  1 <= maxAssetLinks →
  (∀ j, (j ≤ k)%nat → exact (Z.of_nat j * maxAssetLinks)) →
  let nextIndex := nextIndexGenerator 0 maxAssetLinks in
  fst (next (after k nextIndex)) = Int (Z.of_nat k * maxAssetLinks)
  ∧ calls k nextIndex
    = map (λ i, Int (Z.of_nat i * maxAssetLinks)) (List.seq 0 k)
  ∧ (∀ j, (k < j)%nat →
       (∀ i, (i ≤ j)%nat → exact (Z.of_nat i * maxAssetLinks)) →
       ∃ v, fst (next (after j nextIndex)) = Int v
            ∧ Z.of_nat k * maxAssetLinks < v)
  ∧ (∀ j, Z.of_nat j * maxAssetLinks <= 2 ^ 53 →
       exact (Z.of_nat j * maxAssetLinks)).
Proof.
  intros Hstep Hex nextIndex. subst nextIndex. unfold nextIndexGenerator.
  split; [|split; [|split]].
  - rewrite after_state by (intros j Hj; apply Hex; lia).
    simpl. f_equal.
  - rewrite calls_values by (intros j Hj; apply Hex; lia). reflexivity.
  - intros j Hkj Hj. exists (Z.of_nat j * maxAssetLinks).
    rewrite after_state by (intros i Hi; apply Hj; lia).
    split; [reflexivity | nia].
  - intros j Hj. apply exact_small. lia.
Qed.

Lemma nextIndex_kth_call_witness :
  fst (next (after 2 (nextIndexGenerator 0 3))) = Int 6
  ∧ calls 3 (nextIndexGenerator 0 3) = [Int 0; Int 3; Int 6].
Proof.
  assert (∀ k j : nat, (j ≤ k)%nat → (k ≤ 3)%nat → exact (Z.of_nat j * 3))
    as H by (intros k j H1 H2; apply exact_small; lia).
  split.
  - exact (proj1 (nextIndex_kth_call 3 2 ltac:(lia)
                    (λ j Hj, H 2%nat j Hj ltac:(lia)))).
  - exact (proj1 (proj2 (nextIndex_kth_call 3 3 ltac:(lia)
                           (λ j Hj, H 3%nat j Hj ltac:(lia))))).
Defined.

(** C7 fails beyond the doubles: with a step of [2^53 + 2], itself a
    double, the sum of the third addition is not one and is rounded, so
    call number 3 does not return three times the step. *)
Lemma nextIndex_rounds_large_steps :
  (1 <=? 2 ^ 53 + 2)%Z = true
  ∧ fst (next (after 3 (nextIndexGenerator 0 (2 ^ 53 + 2))))
    = Int (3 * (2 ^ 53 + 2) + 2)
  ∧ (3 * (2 ^ 53 + 2) + 2 =? 3 * (2 ^ 53 + 2))%Z = false
  ∧ calls 3 (nextIndexGenerator (2 ^ 53) 1)
    = [Int (2 ^ 53); Int (2 ^ 53); Int (2 ^ 53)].
Proof. vm_compute. repeat split. Qed.

End IndexGenFacts.

(** ** Preload hints *)

Section PreloadFacts.
Import JsString Preload.

Lemma crossorigin_values (u : string) (host : option string) :
  getCrossOriginHeader u host = "crossorigin"
  ∨ getCrossOriginHeader u host = "".
Proof.
  unfold getCrossOriginHeader. destruct host as [h|]; [|now right].
  destruct (truthy h && _); [now left | now right].
Qed.

(** [crossorigin] is produced exactly when the request has a non-empty
    host and the text [://host] occurs nowhere in the address. *)
Lemma crossorigin_iff (u : string) (host : option string) :
  getCrossOriginHeader u host = "crossorigin"
  ↔ ∃ h, host = Some h ∧ h ≠ "" ∧ ∀ n, ¬ occurs_at ("://" +:+ h) u n.
Proof.
  unfold getCrossOriginHeader. destruct host as [h|].
  - destruct (truthy h && (indexOf u ("://" +:+ h) <? 0)%Z) eqn:E.
    + apply andb_true_iff in E as [Ht Hi]. split; [intros _|reflexivity].
      exists h. split; [reflexivity|]. split; [now apply truthy_spec|].
      apply indexOf_negative_occurs; [discriminate | exact Hi].
    + split; [discriminate|]. intros (h' & Heq & Hne & Hno).
      injection Heq as <-. exfalso.
      apply andb_false_iff in E as [E|E].
      * apply truthy_spec in Hne. congruence.
      * assert ((indexOf u ("://" +:+ h) <? 0)%Z = true) as Hn
          by (apply indexOf_negative_occurs; [discriminate | exact Hno]).
        congruence.
  - split; [discriminate|]. intros (h & Heq & _). discriminate.
Qed.

Lemma no_entries_no_refs (refs : list link_ref) :
  (∀ r, r ∈ refs → rel r ≠ "stylesheet" ∧ rel r ≠ "fragment-script") →
  scriptRefs refs = [] ∧ styleRefs refs = [].
Proof.
  intros H. unfold scriptRefs, styleRefs.
  induction refs as [|r refs IH]; [split; reflexivity|].
  destruct (H r) as [Hs Hf]; [left|].
  destruct IH as [IH1 IH2]; [intros r' Hr'; apply H; now right|].
  rewrite !filter_cons. destruct (decide (rel r = "fragment-script")); [done|].
  destruct (decide (rel r = "stylesheet")); [done|]. split; assumption.
Qed.

Lemma script_hint_text (host : option string) (u : string) :
  script_hint host u
  = spec_script_hint u false +:+ "; " +:+ getCrossOriginHeader u host.
Proof.
  unfold script_hint, spec_script_hint.
  repeat rewrite append_assoc. reflexivity.
Qed.

(** The value of [getAssetsToPreload]: empty when both first addresses
    are missing, and otherwise the hints joined, which are not empty. *)
Lemma hints_value (refs : list link_ref) (host : option string) :
  ((∀ r, r ∈ refs → rel r ≠ "stylesheet" ∧ rel r ≠ "fragment-script") →
   getAssetsToPreload refs host = "")
  ∧ (no_first (scriptRefs refs) && no_first (styleRefs refs) = true →
     getAssetsToPreload refs host = "")
  ∧ (no_first (scriptRefs refs) && no_first (styleRefs refs) = false →
     getAssetsToPreload refs host
     = join "," (map style_hint (styleRefs refs)
                 ++ map (script_hint host) (scriptRefs refs))
     ∧ getAssetsToPreload refs host ≠ "").
Proof.
  split; [|split].
  - intros H. destruct (no_entries_no_refs refs H) as [Hs Hf].
    unfold getAssetsToPreload. rewrite Hs, Hf. reflexivity.
  - intros H. unfold getAssetsToPreload. rewrite H. reflexivity.
  - intros H. unfold getAssetsToPreload. rewrite H. split; [reflexivity|].
    destruct (join_starts "," "<"%char
                (map style_hint (styleRefs refs)
                 ++ map (script_hint host) (scriptRefs refs))) as [r Hr].
    + intros Hnil. apply app_eq_nil in Hnil as [H1 H2].
      apply map_eq_nil in H1, H2. rewrite H1, H2 in H. discriminate.
    + intros x Hx. apply elem_of_app in Hx as [Hx|Hx];
        apply list_elem_of_fmap in Hx as (u & -> & _);
        eexists; reflexivity.
    + rewrite Hr. discriminate.
Qed.

End PreloadFacts.

(** ** The request handler *)

Section HandlerFacts.
Import JsString Handler HandlerInv.
Local Open Scope proc_scope.

Variable cfg : config.

(** *** Traces *)

Lemma count_app (p : action → bool) (t1 t2 : list action) :
  count p (t1 ++ t2) = (count p t1 + count p t2)%nat.
Proof. unfold count. now rewrite List.filter_app, length_app. Qed.

Lemma count_zero (p : action → bool) (t : list action) :
  count p t = 0%nat ↔ Forall (λ a, p a = false) t.
Proof.
  unfold count. induction t as [|a t IH]; simpl.
  - split; [constructor | reflexivity].
  - destruct (p a) eqn:E; simpl.
    + split; [discriminate|]. intros H. inversion H; congruence.
    + rewrite IH. split; [now constructor|]. intros H. now inversion H.
Qed.

Lemma head_first_app (p : action → bool) (t1 t2 : list action) :
  head_first p t1 = true →
  (count is_writeHead t1 = 0%nat → head_first p t2 = true) →
  head_first p (t1 ++ t2) = true.
Proof.
  induction t1 as [|a t1 IH]; simpl; intros H1 H2.
  - apply H2. reflexivity.
  - unfold count in H2. simpl in H2. destruct (is_writeHead a); [reflexivity|].
    apply andb_true_iff in H1 as [Ha H1]. rewrite Ha. simpl.
    apply IH; assumption.
Qed.

Lemma head_first_silent (p : action → bool) (t : list action) :
  Forall (λ a, p a = false) t → head_first p t = true.
Proof.
  induction 1 as [|a t Ha _ IH]; simpl; [reflexivity|].
  destruct (is_writeHead a); [reflexivity|]. now rewrite Ha, IH.
Qed.

Lemma response_bytes_app (t1 t2 : list action) :
  response_bytes (t1 ++ t2) = (response_bytes t1 + response_bytes t2)%nat.
Proof.
  unfold response_bytes. induction t1 as [|a t1 IH]; simpl; [reflexivity|].
  rewrite IH. destruct a as [| | [b|] | | | | | | chunk |]; lia.
Qed.

Lemma response_bytes_writes (l : list string) :
  response_bytes (map ResponseWrite l) = total l.
Proof.
  unfold response_bytes, total. induction l as [|c l IH]; simpl; congruence.
Qed.

Lemma count_writes (p : action → bool) (l : list string) :
  (∀ c, p (ResponseWrite c) = false) → count p (map ResponseWrite l) = 0%nat.
Proof.
  intros H. apply count_zero. apply Forall_forall. intros a Ha.
  apply list_elem_of_fmap in Ha as (c & -> & _). apply H.
Qed.

Lemma count_cons (p : action → bool) (a : action) (t : list action) :
  count p (a :: t) = ((if p a then 1 else 0) + count p t)%nat.
Proof. unfold count. simpl. now destruct (p a). Qed.

Lemma count_nil (p : action → bool) : count p [] = 0%nat.
Proof. reflexivity. Qed.

Lemma count_end_writes (l : list string) :
  count is_end_event (map ResponseWrite l) = 0%nat.
Proof. now apply count_writes. Qed.

Lemma count_head_writes (l : list string) :
  count is_writeHead (map ResponseWrite l) = 0%nat.
Proof. now apply count_writes. Qed.

Lemma response_bytes_cons (a : action) (t : list action) :
  response_bytes (a :: t) = (bytes_of a + response_bytes t)%nat.
Proof. unfold response_bytes. simpl. now destruct a as [| | [b|] | | | | | | |]. Qed.

Lemma response_bytes_nil : response_bytes [] = 0%nat.
Proof. reflexivity. Qed.

Create Rewrite HintDb trace.
Hint Rewrite count_cons count_nil count_app count_end_writes
  count_head_writes response_bytes_cons response_bytes_nil
  response_bytes_app response_bytes_writes : trace.

(** *** The pipes *)

Lemma set_contentSize_same (st : state) (n : nat) :
  n = contentSize st → set_contentSize n st = st.
Proof. intros ->. now destruct st. Qed.

Lemma meter_write_all (l : list string) (st : state) :
  meterEnded st = false →
  responseEnded st = false →
  each meter_write l st
  = (true, set_contentSize (contentSize st + total l) st,
     map ResponseWrite l).
Proof.
  revert st. induction l as [|c l IH]; intros st Hm Hr.
  - simpl. unfold skip. rewrite set_contentSize_same; [reflexivity|lia].
  - cbn [each]. unfold seq at 1.
    assert (meter_write c st
            = (true, set_contentSize (contentSize st + String.length c) st,
               [ResponseWrite c])) as ->.
    { unfold meter_write, branch, seq, upd, act, skip. rewrite Hm.
      destruct st; simpl in *. rewrite Hr. reflexivity. }
    rewrite IH by (destruct st; assumption).
    destruct st; simpl. rewrite Nat.add_assoc. reflexivity.
Qed.

Lemma meter_write_closed (l : list string) (st : state) :
  meterEnded st = true → each meter_write l st = (true, st, []).
Proof.
  intros Hm. induction l as [|c l IH]; [reflexivity|].
  cbn [each]. unfold seq. unfold meter_write at 1, branch, skip.
  rewrite Hm, IH. reflexivity.
Qed.

(** What [pipe] does when the response is still open. *)
Lemma pipe_open (st : state) :
  meterEnded st = false → responseEnded st = false →
  pipe st
  = if sourceEnded st
    then (true,
          set_responseEnded (set_meterEnded (set_buffered []
            (set_contentSize (contentSize st + total (buffered st))
               (set_piped st)))),
          Pipe :: map ResponseWrite (buffered st)
          ++ [Emit (EEnd (contentSize st + total (buffered st)));
              ResponseFinish])
    else (true,
          set_buffered []
            (set_contentSize (contentSize st + total (buffered st))
               (set_piped st)),
          Pipe :: map ResponseWrite (buffered st)).
Proof.
  intros Hm Hr. unfold pipe.
  unfold seq at 1. unfold act at 1. unfold seq at 1. unfold upd at 1.
  unfold seq at 1. unfold reading at 1.
  rewrite meter_write_all by (destruct st; assumption).
  unfold seq, upd, branch, meter_end, response_finish, reading, act, skip,
    branch, seq.
  destruct st; simpl in *. subst.
  destruct sourceEnded0; simpl; rewrite ?app_nil_r; reflexivity.
Qed.

Lemma pipe_closed (st : state) :
  meterEnded st = true → responseEnded st = false →
  pipe st
  = (true, set_responseEnded (set_buffered [] (set_piped st)),
     [Pipe; ResponseFinish]).
Proof.
  intros Hm Hr. unfold pipe.
  unfold seq at 1. unfold act at 1. unfold seq at 1. unfold upd at 1.
  unfold seq at 1. unfold reading at 1.
  rewrite meter_write_closed by (destruct st; assumption).
  unfold seq, upd, branch, meter_end, response_finish, reading, act, skip,
    branch, seq.
  destruct st; simpl in *. subst.
  destruct sourceEnded0; reflexivity.
Qed.

Lemma meter_end_open (st : state) :
  meterEnded st = false →
  meter_end st
  = if piped st && negb (responseEnded st)
    then (true, set_responseEnded (set_meterEnded st),
          [Emit (EEnd (contentSize st)); ResponseFinish])
    else (true, set_meterEnded st, [Emit (EEnd (contentSize st))]).
Proof.
  intros Hm. unfold meter_end, response_finish, branch, seq, upd, reading,
    act, skip. rewrite Hm. destruct st; simpl in *.
  destruct piped0, responseEnded0; reflexivity.
Qed.

Lemma meter_end_closed (st : state) :
  meterEnded st = true → meter_end st = (true, st, []).
Proof. intros Hm. unfold meter_end, branch, skip. now rewrite Hm. Qed.

(** *** The listeners, one case at a time *)

Lemma handleError_latched (err : error) (st : state) :
  shouldWriteHead st = true → headersSent st = false →
  handleError err st
  = (true,
     set_responseEnded
       (set_head (error_status err) (set_shouldWriteHead false st)),
     [Emit (EError err); WriteHead (error_status err) (responseHeaders st);
      ResponseEnd (error_body err)]).
Proof.
  intros Hl Hh. unfold handleError, branch, seq, act, upd, writeHead,
    error_status, error_body.
  rewrite Hl. destruct st; simpl in *. rewrite Hh.
  destruct (presentable err); reflexivity.
Qed.

Lemma handleError_unlatched (err : error) (st : state) :
  shouldWriteHead st = false →
  handleError err st
  = match meter_end st with
    | (ok, st', o) => (ok, st', Emit (EError err) :: MeterEnd :: o)
    end.
Proof.
  intros Hl. unfold handleError, branch, seq, act. rewrite Hl.
  destruct (meter_end st) as [[ok st'] o]. reflexivity.
Qed.

Lemma finish_latched (st : state) :
  shouldWriteHead st = true → headersSent st = false →
  finish st
  = match pipe (set_head (finish_status st) (set_shouldWriteHead false st)) with
    | (ok, st', o) =>
        (ok, st',
         Emit (EResponse (finish_status st) (responseHeaders st))
         :: WriteHead (finish_status st) (responseHeaders st) :: o)
    end.
Proof.
  intros Hl Hh. unfold finish, reading, branch. rewrite Hl.
  unfold seq at 1. unfold upd at 1. unfold seq at 1. unfold reading, act.
  unfold seq at 1. unfold writeHead at 1. fold (finish_status st).
  destruct st; simpl in *. rewrite Hh.
  unfold set_head, set_shouldWriteHead; simpl.
  match goal with |- context [pipe ?s] => destruct (pipe s) as [[ok st'] o] end.
  reflexivity.
Qed.

Lemma finish_unlatched (st : state) :
  shouldWriteHead st = false → finish st = (true, st, []).
Proof. intros Hl. unfold finish, reading, branch. now rewrite Hl. Qed.

Lemma primaryResponse_cases (a : attributes) (sc : Z)
  (hs : gmap string string) (st : state) :
  let H := response_head cfg a hs (responseHeaders st) in
  primaryResponse cfg a sc hs st
  = if headersSent st
    then (false, set_responseHeaders H st,
          [Emit (EResponse sc H); WriteHead sc H])
    else match pipe (set_head sc (set_responseHeaders H st)) with
         | (ok, st', o) =>
             (ok, st', Emit (EResponse sc H) :: WriteHead sc H :: o)
         end.
Proof.
  intros H. subst H. unfold primaryResponse, response_head.
  unfold seq at 1. unfold upd at 1. unfold seq at 1. unfold upd at 1.
  unfold seq at 1. unfold upd at 1. unfold seq at 1. unfold reading, act.
  unfold seq at 1. unfold writeHead at 1.
  destruct st; simpl in *. destruct headersSent0; [reflexivity|].
  unfold set_head, set_responseHeaders; simpl.
  match goal with |- context [pipe ?s] => destruct (pipe s) as [[ok st'] o] end.
  reflexivity.
Qed.

Lemma primaryFallback_cases (err : error) (st : state) :
  primaryFallback err st
  = if headersSent st
    then (false, st, [Emit (EError err); WriteHead 500 (responseHeaders st)])
    else match pipe (set_head 500 st) with
         | (ok, st', o) =>
             (ok, st',
              Emit (EError err) :: WriteHead 500 (responseHeaders st) :: o)
         end.
Proof.
  unfold primaryFallback.
  unfold seq at 1. unfold act at 1. unfold seq at 1. unfold writeHead at 1.
  destruct st; simpl in *. destruct headersSent0; [reflexivity|].
  unfold set_head, set_responseHeaders; simpl.
  match goal with |- context [pipe ?s] => destruct (pipe s) as [[ok st'] o] end.
  reflexivity.
Qed.

Lemma primaryError_cases (err : error) (st : state) :
  primaryError err st
  = if headersSent st
    then (false, st, [Emit (EError err); WriteHead 500 (responseHeaders st)])
    else (true, set_responseEnded (set_head 500 st),
          [Emit (EError err); WriteHead 500 (responseHeaders st);
           ResponseEnd None]).
Proof.
  unfold primaryError, response_end, seq, act, upd, writeHead.
  destruct st; simpl in *. destruct headersSent0; reflexivity.
Qed.

(** *** The invariant *)

Lemma elem_of_count_zero (p : action → bool) (t : list action) (a : action) :
  count p t = 0%nat → a ∈ t → p a = false.
Proof.
  intros H Ha. apply count_zero in H.
  rewrite Forall_forall in H. now apply H.
Qed.

Lemma trace_inv_extend (st st' : state) (t o : list action) :
  trace_inv st t →
  (headersSent st' = false → headersSent st = false ∧ Forall silent o) →
  (headersSent st' = true →
   headersSent st = true ∨ (1 ≤ count is_writeHead o)%nat) →
  (headersSent st = false →
   head_first is_body o = true ∧ head_first is_response_end o = true) →
  (meterEnded st = true →
   meterEnded st' = true ∧ contentSize st' = contentSize st
   ∧ count is_end_event o = 0%nat) →
  (meterEnded st = false →
   count is_end_event o = if meterEnded st' then 1%nat else 0%nat) →
  (∀ n, Emit (EEnd n) ∈ o → n = contentSize st') →
  (ended_by_handleError st → ended_by_handleError st') →
  (contentSize st' = (contentSize st + response_bytes o)%nat
   ∨ ended_by_handleError st') →
  (∀ c hs k, WriteHead c hs ∈ o → k ∈ baseline_keys → is_Some (hs !! k)) →
  trace_inv st' (t ++ o).
Proof.
  intros [T1 T2 T3 T4 T5 T6 T7 T8] H1 H2 H3 H4 H5 H6 H7 H8 H9.
  constructor.
  - intros Hh. destruct (H1 Hh) as [Hh0 Hs]. apply Forall_app. auto.
  - intros Hh. rewrite count_app. destruct (H2 Hh) as [Hh0|Hc]; [|lia].
    specialize (T2 Hh0). lia.
  - apply head_first_app; [assumption|]. intros Hc.
    destruct (headersSent st) eqn:E; [specialize (T2 eq_refl); lia|].
    now apply H3.
  - apply head_first_app; [assumption|]. intros Hc.
    destruct (headersSent st) eqn:E; [specialize (T2 eq_refl); lia|].
    now apply H3.
  - rewrite count_app, T5. destruct (meterEnded st) eqn:E.
    + destruct (H4 eq_refl) as (-> & _ & ->). reflexivity.
    + rewrite (H5 eq_refl). reflexivity.
  - intros n Hn. apply elem_of_app in Hn as [Hn|Hn]; [|now apply H6].
    destruct (meterEnded st) eqn:E.
    + destruct (H4 eq_refl) as (_ & -> & _). now apply T6.
    + pose proof (elem_of_count_zero _ _ _ T5 Hn) as Hf. discriminate.
  - rewrite response_bytes_app. destruct T7 as [T7|T7]; [|right; auto].
    destruct H8 as [H8|H8]; [left; lia | right; assumption].
  - intros c hs k Hw Hk. apply elem_of_app in Hw as [Hw|Hw]; eauto.
Qed.

Ltac open_state Hs st :=
  destruct Hs as [S1 S2 S3 S4 S5 S6 S7 S8 S9 S10]; destruct st;
  unfold listeners_of in *; simpl in *.

Ltac close_state :=
  constructor; simpl; intros;
  repeat match goal with
         | H : ?a = ?a → _ |- _ => specialize (H eq_refl)
         end;
  intuition (try congruence; eauto).

Lemma seq_preserves (C D : state → Prop) (p q : proc) :
  preserves C p →
  preserves D q →
  (∀ prior st t, C st → inv prior st t → ok_of (p st) = true →
                 D (st_of (p st))) →
  preserves C (p ;; q).
Proof.
  intros Hp Hq Hd prior st t Hc Hi. unfold seq.
  specialize (Hp prior st t Hc Hi). specialize (Hd prior st t Hc Hi).
  destruct (p st) as [[[|] st1] o1]; unfold st_of, out_of, ok_of in *;
    simpl in *; [|exact Hp].
  destruct Hp as (Hp & Hl & Hw).
  specialize (Hq prior st1 (t ++ o1) (Hd eq_refl) Hp).
  destruct (q st1) as [[ok st2] o2]; simpl in *.
  rewrite app_assoc. destruct Hq as (Hq & Hl2 & Hw2).
  split; [exact Hq | split; auto].
Qed.

Lemma skip_preserves (C : state → Prop) : preserves C skip.
Proof.
  intros prior st t _ Hi. unfold skip, st_of, out_of; simpl.
  rewrite app_nil_r. auto.
Qed.

Lemma preserves_weaken (C D : state → Prop) (p : proc) :
  (∀ st, C st → D st) → preserves D p → preserves C p.
Proof. intros H Hp prior st t Hc. apply Hp. auto. Qed.

Lemma branch_preserves (C : state → Prop) (b : state → bool) (p q : proc) :
  preserves (λ st, C st ∧ b st = true) p →
  preserves (λ st, C st ∧ b st = false) q →
  preserves C (branch b p q).
Proof.
  intros Hp Hq prior st t Hc Hi. unfold branch.
  destruct (b st) eqn:E; [apply Hp | apply Hq]; auto.
Qed.

Lemma each_preserves {A : Type} (C : state → Prop) (P : A → Prop)
  (f : A → proc) (l : list A) :
  (∀ x, P x → preserves C (f x)) →
  (∀ x prior st t, P x → C st → inv prior st t → C (st_of (f x st))) →
  Forall P l →
  preserves C (each f l).
Proof.
  intros Hf Hc Hl. induction Hl as [|x l Hx _ IH]; simpl.
  - apply skip_preserves.
  - eapply seq_preserves; [now apply Hf | exact IH |].
    intros prior st t HC Hi _. now apply (Hc x prior st t).
Qed.

Ltac elems H :=
  repeat match type of H with
         | _ ∈ _ :: _ => apply elem_of_cons in H as [H|H]
         | _ ∈ [] => apply elem_of_nil in H; contradiction
         | _ ∈ _ ++ _ => apply elem_of_app in H as [H|H]
         | _ ∈ map _ _ =>
             let c := fresh "c" in
             let Hc := fresh "Hc" in
             apply list_elem_of_fmap in H as (c & H & Hc)
         end;
  try discriminate.

Ltac leaf :=
  unfold silent; autorewrite with trace; simpl;
  repeat match goal with
         | H : match _ with _ => _ end = _ |- _ => rewrite H; simpl
         | H : ?b = _ |- context [if ?b then _ else _] => rewrite H; simpl
         end;
  try congruence; try lia; try (repeat constructor; fail); eauto.

Ltac side :=
  unfold ended_by_handleError in *; simpl in *; subst;
  try solve [intuition leaf];
  try solve [let H := fresh "H" in intros ? H; elems H; inversion H; subst; leaf];
  try solve [let H := fresh "H" in intros ? ? ? H; elems H; inversion H; subst; leaf].

Lemma seq_upd (f : state → state) (p : proc) (st : state) :
  (upd f ;; p) st = p (f st).
Proof.
  unfold seq, upd. destruct (p (f st)) as [[ok st'] o]. reflexivity.
Qed.

Lemma not_piped prior st :
  state_inv prior st → headersSent st = false → piped st = false.
Proof.
  intros Hs Hh. destruct (piped st) eqn:E; [|reflexivity].
  pose proof (inv_piped _ _ Hs E). congruence.
Qed.

Lemma not_closed prior st :
  state_inv prior st → shouldWriteHead st = true → meterEnded st = false.
Proof.
  intros Hs Hh. destruct (meterEnded st) eqn:E; [|reflexivity].
  pose proof (inv_closed _ _ Hs E). congruence.
Qed.

Lemma not_ended prior st :
  state_inv prior st → headersSent st = false → responseEnded st = false.
Proof.
  intros Hs Hh. destruct (responseEnded st) eqn:E; [|reflexivity].
  pose proof (inv_ended _ _ Hs E). congruence.
Qed.

(** [handleError] called by the [catch] of line 218 ([rejected]) or by
    the listener of the processor's [error]. *)
Lemma handleError_preserves (err : error) (rejected : bool) :
  preserves
    (λ st, if rejected then templateP st = Pending
           else wired st = true ∧ errorL st = true)
    (upd (if rejected then set_templateP Rejected else set_errorL false) ;;
     handleError err).
Proof.
  intros prior st t Hc [Hs Ht]. rewrite seq_upd.
  set (mark := if rejected then set_templateP Rejected else set_errorL false).
  split; [|split; [intros El|intros Hw0];
           (destruct (shouldWriteHead (mark st)) eqn:El';
            [destruct (inv_latch _ _ Hs) as (Hh0 & _);
             [subst mark; destruct rejected, st; exact El'|];
             rewrite handleError_latched
               by (try assumption; subst mark; destruct rejected, st;
                   exact Hh0)
            |rewrite handleError_unlatched by assumption;
             destruct (meterEnded (mark st)) eqn:Em;
             [rewrite meter_end_closed by assumption
             |rewrite meter_end_open by assumption;
              destruct (piped (mark st) && negb (responseEnded (mark st)))]]);
           subst mark; destruct rejected, st; simpl in *;
           try reflexivity; try assumption; try congruence].
  assert (shouldWriteHead (mark st) = shouldWriteHead st
          ∧ headersSent (mark st) = headersSent st
          ∧ meterEnded (mark st) = meterEnded st
          ∧ piped (mark st) = piped st
          ∧ responseEnded (mark st) = responseEnded st) as (M1 & M2 & M3 & M4 & M5)
    by (subst mark; destruct rejected; destruct st; repeat split).
  assert (¬ ended_by_handleError st) as HnK.
  { intros (K1 & K2 & K3 & K4 & K5). destruct rejected.
    - destruct (inv_pending _ _ Hs Hc). congruence.
    - destruct Hc, K5 as [[? ?]|[? ?]]; congruence. }
  destruct (shouldWriteHead st) eqn:El.
  - destruct (inv_latch _ _ Hs El) as (Hh & Hrh & Hsc & Hprim).
    rewrite handleError_latched by congruence.
    unfold st_of, out_of; simpl.
    pose proof (inv_keys _ _ Hs) as Hk.
    pose proof (not_piped _ _ Hs Hh) as Hp.
    pose proof (not_closed _ _ Hs El) as Hm.
    pose proof (inv_pending _ _ Hs) as Hpe.
    subst mark. split.
    + destruct rejected; open_state Hs st; close_state.
    + apply (trace_inv_extend st); [assumption|..];
        destruct rejected; destruct st; side.
  - rewrite handleError_unlatched by congruence.
    destruct rejected;
      [destruct (inv_pending _ _ Hs Hc); congruence|].
    destruct Hc as [Hw He].
    assert (state_inv prior (mark st)) as Hs'
      by (subst mark; open_state Hs st; close_state).
    subst mark.
    destruct (meterEnded st) eqn:Em.
    + rewrite meter_end_closed by congruence. unfold st_of, out_of; simpl.
      split; [assumption|].
      apply (trace_inv_extend st); [assumption|..]; destruct st; side.
    + rewrite meter_end_open by congruence.
      destruct (piped (set_errorL false st)
                && negb (responseEnded (set_errorL false st))) eqn:Ep;
        unfold st_of, out_of; simpl; rewrite M4, M5 in Ep.
      * apply andb_true_iff in Ep as [Ep Er]. apply negb_true_iff in Er.
        pose proof (inv_piped _ _ Hs Ep) as Hh.
        split; [open_state Hs st; close_state|].
        apply (trace_inv_extend st); [assumption|..]; destruct st; side.
      * split; [open_state Hs st; close_state|].
        apply (trace_inv_extend st); [assumption|..]; destruct st; side.
Qed.

Lemma is_Some_insert (k k' v : string) (m : gmap string string) :
  is_Some (m !! k) → is_Some (<[k' := v]> m !! k).
Proof.
  intros H. apply lookup_insert_is_Some.
  destruct (decide (k' = k)); [left|right]; auto.
Qed.

Lemma response_head_keys (a : attributes) (hs rh : gmap string string)
  (k : string) :
  is_Some (rh !! k) → is_Some (response_head cfg a hs rh !! k).
Proof.
  intros H. unfold response_head, assign_link, assign_location,
    assign_filtered.
  assert (is_Some (match filterResponseHeaders cfg with
                   | Some f => f a hs ∪ rh
                   | None => rh
                   end !! k)) as H1.
  { destruct (filterResponseHeaders cfg); [|assumption].
    apply lookup_union_is_Some. now right. }
  destruct (truthy _); [apply is_Some_insert|];
    (destruct (hs !! "location") as [l|]; [destruct (truthy l)|]);
    try apply is_Some_insert; assumption.
Qed.

(** The head is written for the first time and the processor output is
    piped (lines 153-154, 159-160 and 206-207). *)
Lemma head_pipe (prior : Z) (st : state) (t : list action) (c : Z)
  (H : gmap string string) (x : emitted) :
  inv prior st t →
  wired st = true →
  headersSent st = false →
  (∀ k, k ∈ baseline_keys → is_Some (H !! k)) →
  not_end x →
  let r := pipe (set_head c (set_responseHeaders H
                               (set_shouldWriteHead false st))) in
  inv prior (st_of r) (t ++ Emit x :: WriteHead c H :: out_of r)
  ∧ shouldWriteHead (st_of r) = false
  ∧ wired (st_of r) = true.
Proof.
  intros [Hs Ht] Hw Hh Hk Hx r. subst r.
  assert (is_end_event (Emit x) = false) as Hxe
    by (destruct x; [reflexivity..|contradiction|reflexivity]).
  assert (x = x) as Hxx by reflexivity.
  pose proof (not_piped _ _ Hs Hh) as Hp.
  pose proof (not_ended _ _ Hs Hh) as Hr.
  pose proof (inv_size _ _ Hs Hp) as Hz.
  destruct (meterEnded st) eqn:Em.
  - rewrite pipe_closed by (destruct st; assumption).
    unfold st_of, out_of; simpl. split; [|now destruct st].
    split; [open_state Hs st; close_state|].
    apply (trace_inv_extend st); [assumption|..]; destruct st; side.
  - rewrite pipe_open by (destruct st; assumption).
    replace (sourceEnded (set_head c _)) with (sourceEnded st)
      by (now destruct st).
    destruct (sourceEnded st) eqn:Es; unfold st_of, out_of; simpl.
    + split; [|now destruct st].
      split; [open_state Hs st; close_state|].
      apply (trace_inv_extend st); [assumption|..]; destruct st; side.
    + split; [|now destruct st].
      split; [open_state Hs st; close_state|].
      apply (trace_inv_extend st); [assumption|..]; destruct st; side.
Qed.

Lemma set_responseHeaders_same (st : state) :
  set_responseHeaders (responseHeaders st) st = st.
Proof. now destruct st. Qed.

Lemma set_shouldWriteHead_same (st : state) :
  shouldWriteHead st = false → set_shouldWriteHead false st = st.
Proof. destruct st; simpl. now intros ->. Qed.

Lemma inv_set_finishL (prior : Z) (st : state) (t : list action) (b : bool) :
  inv prior st t → inv prior (set_finishL b st) t.
Proof.
  intros [Hs [T1 T2 T3 T4 T5 T6 T7 T8]]. split.
  - open_state Hs st. close_state.
  - destruct st; constructor; side.
Qed.

(** The listener of [finish], removed when it is called. *)
Lemma finish_preserves :
  preserves (λ st, wired st = true) (upd (set_finishL false) ;; finish).
Proof.
  intros prior st t Hw Hi. rewrite seq_upd.
  apply (inv_set_finishL _ _ _ false) in Hi.
  assert (wired (set_finishL false st) = true) as Hw' by (now destruct st).
  assert (shouldWriteHead (set_finishL false st) = shouldWriteHead st) as Hl
    by (now destruct st).
  revert Hi Hw' Hl. generalize (set_finishL false st). intros s Hi Hw' Hl.
  destruct (shouldWriteHead s) eqn:El.
  - destruct Hi as [Hs Ht].
    destruct (inv_latch _ _ Hs El) as (Hh & Hrh & Hsc & Hprim).
    rewrite finish_latched by assumption.
    pose proof (head_pipe prior s t (finish_status s) (responseHeaders s)
                  (EResponse (finish_status s) (responseHeaders s))
                  (conj Hs Ht) Hw' Hh (inv_keys _ _ Hs) I) as Hhp.
    cbv zeta in Hhp.
    assert (set_responseHeaders (responseHeaders s)
              (set_shouldWriteHead false s) = set_shouldWriteHead false s)
      as E by (now destruct s).
    rewrite E in Hhp.
    destruct (pipe _) as [[ok s'] o]. unfold st_of, out_of in *; simpl in *.
    destruct Hhp as (? & ? & ?). split; [assumption | split; auto].
  - rewrite finish_unlatched by assumption. unfold st_of, out_of; simpl.
    rewrite app_nil_r. split; [assumption | split; intros; congruence].
Qed.

Lemma headersSent_unlatched (prior : Z) (st : state) :
  state_inv prior st → headersSent st = true → shouldWriteHead st = false.
Proof.
  intros Hs Hh. destruct (shouldWriteHead st) eqn:E; [|reflexivity].
  destruct (inv_latch _ _ Hs E). congruence.
Qed.

(** The three listeners of the primary fragment. *)
Lemma primaryResponse_preserves (a : attributes) (sc : Z)
  (hs : gmap string string) :
  preserves (λ st, wired st = true ∧ shouldWriteHead st = false)
    (primaryResponse cfg a sc hs).
Proof.
  intros prior st t [Hw El] [Hs Ht]. rewrite primaryResponse_cases.
  assert (∀ k, k ∈ baseline_keys →
               is_Some (response_head cfg a hs (responseHeaders st) !! k))
    as Hk by (intros k Hk; apply response_head_keys, (inv_keys _ _ Hs), Hk).
  destruct (headersSent st) eqn:Hh.
  - unfold st_of, out_of; simpl. split; [|now destruct st].
    split; [open_state Hs st; close_state|].
    apply (trace_inv_extend st); [assumption|..]; destruct st; side.
  - pose proof (head_pipe prior st t sc _ (EResponse sc
                  (response_head cfg a hs (responseHeaders st)))
                  (conj Hs Ht) Hw Hh Hk I) as Hhp.
    cbv zeta in Hhp. rewrite set_shouldWriteHead_same in Hhp by assumption.
    destruct (pipe _) as [[ok s'] o]. unfold st_of, out_of in *; simpl in *.
    destruct Hhp as (? & ? & ?). split; [assumption | split; auto].
Qed.

Lemma primaryFallback_preserves (err : error) :
  preserves (λ st, wired st = true ∧ shouldWriteHead st = false)
    (primaryFallback err).
Proof.
  intros prior st t [Hw El] [Hs Ht]. rewrite primaryFallback_cases.
  destruct (headersSent st) eqn:Hh.
  - unfold st_of, out_of; simpl. split; [|now destruct st].
    pose proof (inv_keys _ _ Hs) as Hk.
    split; [assumption|].
    apply (trace_inv_extend st); [assumption|..]; destruct st; side.
  - pose proof (head_pipe prior st t 500 (responseHeaders st) (EError err)
                  (conj Hs Ht) Hw Hh (inv_keys _ _ Hs) I) as Hhp.
    cbv zeta in Hhp. rewrite set_shouldWriteHead_same in Hhp by assumption.
    rewrite set_responseHeaders_same in Hhp.
    destruct (pipe _) as [[ok s'] o]. unfold st_of, out_of in *; simpl in *.
    destruct Hhp as (? & ? & ?). split; [assumption | split; auto].
Qed.

Lemma primaryError_preserves (err : error) :
  preserves (λ st, wired st = true ∧ shouldWriteHead st = false)
    (primaryError err).
Proof.
  intros prior st t [Hw El] [Hs Ht]. rewrite primaryError_cases.
  pose proof (inv_keys _ _ Hs) as Hk.
  destruct (headersSent st) eqn:Hh; unfold st_of, out_of; simpl.
  - split; [|now destruct st]. split; [assumption|].
    apply (trace_inv_extend st); [assumption|..]; destruct st; side.
  - pose proof (not_piped _ _ Hs Hh) as Hp.
    split; [|now destruct st].
    split; [open_state Hs st; close_state|].
    apply (trace_inv_extend st); [assumption|..]; destruct st; side.
Qed.

Lemma emit_preserves (C : state → Prop) (x : emitted) :
  not_end x → preserves C (act (Emit x)).
Proof.
  intros Hx prior st t _ [Hs Ht]. unfold act, st_of, out_of; simpl.
  assert (is_end_event (Emit x) = false) as Hxe
    by (destruct x; [reflexivity..|contradiction|reflexivity]).
  split; [|auto]. split; [assumption|].
  apply (trace_inv_extend st); [assumption|..]; destruct st; side.
Qed.

Lemma invoke_preserves (ev : fragment_event) (l : listener) :
  preserves
    (λ st, is_primary_listener l = true →
           wired st = true ∧ shouldWriteHead st = false)
    (invoke cfg ev l).
Proof.
  destruct l as [a|a| |]; simpl.
  - apply emit_preserves. exact I.
  - destruct ev; try apply skip_preserves.
    eapply preserves_weaken; [|apply primaryResponse_preserves].
    intros st H; exact (H eq_refl).
  - destruct ev; try apply skip_preserves.
    eapply preserves_weaken; [|apply primaryFallback_preserves].
    intros st H; exact (H eq_refl).
  - destruct ev; try apply skip_preserves.
    eapply preserves_weaken; [|apply primaryError_preserves].
    intros st H; exact (H eq_refl).
Qed.

(** *** Steps that leave the response alone *)

Lemma benign_bytes (o : list action) :
  Forall benign o → response_bytes o = 0%nat.
Proof.
  induction 1 as [|a o (_ & Hb & _) _ IH]; [reflexivity|].
  rewrite response_bytes_cons, IH.
  destruct a as [| | [b|] | | | | | | |]; simpl in *; congruence.
Qed.

Lemma benign_count (p : action → bool) (o : list action) :
  (∀ a, benign a → p a = false) → Forall benign o → count p o = 0%nat.
Proof.
  intros Hp Ho. apply count_zero. eapply Forall_impl; [exact Ho|].
  exact Hp.
Qed.

Lemma trace_inv_benign (st st' : state) (t o : list action) :
  trace_inv st t →
  Forall benign o →
  headersSent st' = headersSent st →
  meterEnded st' = meterEnded st →
  contentSize st' = contentSize st →
  (ended_by_handleError st → ended_by_handleError st') →
  trace_inv st' (t ++ o).
Proof.
  intros Ht Ho Hh Hm Hc Hk.
  assert (∀ a, a ∈ o → benign a) as Hb by (now apply Forall_forall).
  apply (trace_inv_extend st); try assumption.
  - rewrite Hh. intros E. split; [assumption|].
    eapply Forall_impl; [exact Ho|]. intros a (? & ? & ? & ?).
    repeat split; assumption.
  - rewrite Hh. auto.
  - intros _. split; apply head_first_silent;
      (eapply Forall_impl; [exact Ho|]); intros a (? & ? & ? & ?);
      assumption.
  - intros E. rewrite Hm, Hc. repeat split; auto.
    apply benign_count; [|assumption]. now intros a (? & ? & ? & ?).
  - intros E. rewrite Hm, E.
    apply benign_count; [|assumption]. now intros a (? & ? & ? & ?).
  - intros n Hn. destruct (Hb _ Hn) as (_ & _ & _ & ?). discriminate.
  - left. rewrite benign_bytes by assumption. lia.
  - intros c hs k Hw. destruct (Hb _ Hw) as (? & _). discriminate.
Qed.

Lemma inv_same_view (prior : Z) (st st' : state) (t o : list action) :
  same_view st st' → Forall benign o →
  inv prior st t → inv prior st' (t ++ o).
Proof.
  intros (V1 & V2 & V3 & V4 & V5 & V6 & V7 & V8 & V9 & V10 & V11 & V12)
    Ho [Hs Ht].
  split.
  - destruct Hs as [S1 S2 S3 S4 S5 S6 S7 S8 S9 S10].
    constructor; rewrite ?V1, ?V2, ?V3, ?V4, ?V5, ?V6, ?V7, ?V8, ?V9,
      ?V10, ?V11; try assumption.
    intros E. destruct (S1 E) as (? & ? & ? & ?). auto.
  - apply (trace_inv_benign st); try assumption.
    unfold ended_by_handleError.
    rewrite ?V1, ?V2, ?V3, ?V4, ?V5, ?V6, ?V7, ?V8, ?V9, ?V10, ?V11. auto.
Qed.

Lemma same_view_preserves (C : state → Prop) (p : proc) :
  (∀ prior st t, C st → inv prior st t →
     same_view st (st_of (p st)) ∧ Forall benign (out_of (p st))) →
  preserves C p.
Proof.
  intros H prior st t Hc Hi. destruct (H prior st t Hc Hi) as [Hv Ho].
  split; [now apply (inv_same_view prior st)|].
  destruct Hv as (V1 & _ & _ & V4 & _). rewrite V1, V4. auto.
Qed.

Lemma prim_nil (ls : list (event_name * listener)) :
  prim ls = [] ↔ ∀ nl, nl ∈ ls → is_primary_listener (snd nl) = false.
Proof.
  unfold prim. split.
  - intros H nl Hnl. destruct (is_primary_listener (snd nl)) eqn:E; [|done].
    exfalso. exact (filter_nil_not_elem_of _ _ nl H E Hnl).
  - intros H. destruct (filter _ ls) as [|x l] eqn:E; [reflexivity|].
    assert (x ∈ filter (λ nl, is_primary_listener (snd nl) = true) ls) as Hx
      by (rewrite E; left).
    apply list_elem_of_filter in Hx as [Hx Hin].
    rewrite (H x Hin) in Hx. discriminate.
Qed.

Lemma listeners_of_insert (st : state) (id id' : nat)
  (ls : list (event_name * listener)) :
  listeners_of (set_listeners (<[id := ls]> (listeners st)) st) id'
  = if decide (id = id') then ls else listeners_of st id'.
Proof.
  unfold listeners_of. destruct st; simpl.
  rewrite lookup_insert. destruct (decide (id = id')); reflexivity.
Qed.

Lemma each_act {A : Type} (f : A → action) (l : list A) (st : state) :
  each (λ x, act (f x)) l st = (true, st, map f l).
Proof.
  induction l as [|x l IH]; [reflexivity|].
  cbn [each]. unfold seq. unfold act at 1. rewrite IH. reflexivity.
Qed.

Ltac same_trace Ht st :=
  let T1 := fresh in let T2 := fresh in let T3 := fresh in
  let T4 := fresh in let T5 := fresh in let T6 := fresh in
  let T7 := fresh in let T8 := fresh in
  destruct Ht as [T1 T2 T3 T4 T5 T6 T7 T8]; destruct st; constructor; side.

Lemma benign_writes (l : list string) : Forall benign (map Write l).
Proof.
  apply Forall_forall. intros a Ha.
  apply list_elem_of_fmap in Ha as (x & -> & _). repeat split.
Qed.

Lemma onResolved_preserves (tpl : list string) (ctx : gmap string string) :
  preserves (λ st, wired st = false ∧ ∃ x, templateP st = Fulfilled x)
    (onResolved cfg tpl ctx).
Proof.
  intros prior st t [Hw [x Hx]] [Hs Ht].
  assert (onResolved cfg tpl ctx st
          = (true, set_wired st,
             ProcessTemplate
               (IndexGen.nextIndexGenerator 0 (maxAssetLinks cfg)) ctx
             :: map Write tpl ++ [EndInput])) as ->.
  { unfold onResolved. unfold seq at 1. unfold act at 1.
    unfold seq at 1. unfold upd at 1. unfold seq.
    rewrite each_act. reflexivity. }
  unfold st_of, out_of; simpl.
  split; [|split; [now destruct st | reflexivity]].
  split; [open_state Hs st; close_state|].
  apply (trace_inv_benign st); try assumption; try (now destruct st).
  - constructor; [repeat split|]. apply Forall_app. split.
    + apply benign_writes.
    + repeat constructor.
  - unfold ended_by_handleError. destruct st; simpl in *.
    intros (? & ? & ? & ? & [[? ?]|[? ?]]); congruence.
Qed.

Lemma settle_preserves : preserves (λ _, True) (settle cfg).
Proof.
  intros prior st t _ Hi. unfold settle, reading.
  pose proof (skip_preserves (λ _, True) prior st t I Hi) as Hskip.
  destruct (templateP st) as [|x|] eqn:Et; try exact Hskip.
  destruct (contextP st) as [c|]; try exact Hskip.
  destruct (wired st) eqn:Ew; try exact Hskip.
  destruct (onResolved_preserves x c prior st t
              (conj Ew (ex_intro _ x Et)) Hi) as (H1 & H2 & _).
  split; [exact H1 | split; [exact H2 | discriminate]].
Qed.

Lemma upd_preserves (C : state → Prop) (f : state → state) :
  (∀ prior st t, C st → inv prior st t → inv prior (f st) t) →
  (∀ st, shouldWriteHead st = false → shouldWriteHead (f st) = false) →
  (∀ st, wired st = true → wired (f st) = true) →
  preserves C (upd f).
Proof.
  intros H Hl Hw prior st t Hc Hi. unfold upd, st_of, out_of; simpl.
  rewrite app_nil_r. split; [now apply H|]. split; auto.
Qed.

Lemma templateResolved_preserves (tpl : list string) :
  preserves (λ st, templateP st = Pending)
    (upd (set_templateP (Fulfilled tpl)) ;; settle cfg).
Proof.
  eapply seq_preserves; [|apply settle_preserves|intros; exact I].
  apply upd_preserves; [|intros st; now destruct st..].
  intros prior st t Hp [Hs Ht].
  destruct (inv_pending _ _ Hs Hp) as [Hw Hl].
  split; [open_state Hs st; close_state | same_trace Ht st].
Qed.

Lemma contextSettled_preserves (ctx : gmap string string) :
  preserves (λ _, True) (upd (set_contextP (Some ctx)) ;; settle cfg).
Proof.
  eapply seq_preserves; [|apply settle_preserves|intros; exact I].
  apply upd_preserves; [|intros st; now destruct st..].
  intros prior st t _ [Hs Ht].
  split; [open_state Hs st; close_state | same_trace Ht st].
Qed.

Lemma prim_reemit (a : attributes) :
  prim (map (λ n, (n, Reemit a)) FRAGMENT_EVENTS) = [].
Proof. reflexivity. Qed.

Lemma listeners_of_add (st : state) (id id' : nat)
  (ls : list (event_name * listener)) :
  listeners_of (add_listeners id ls st) id'
  = if decide (id = id') then listeners_of st id ++ ls
    else listeners_of st id'.
Proof. unfold add_listeners. apply listeners_of_insert. Qed.

Lemma fragmentFound_preserves (f : fragment) :
  preserves (λ st, wired st = true) (fragmentFound f).
Proof.
  intros prior st t Hw [Hs Ht]. unfold fragmentFound. rewrite seq_upd.
  set (st1 := add_listeners (fid f) _ st).
  assert (inv prior st1 t ∧ shouldWriteHead st1 = shouldWriteHead st
          ∧ wired st1 = true) as ([Hs1 Ht1] & Hl1 & Hw1).
  { split; [|subst st1; destruct st; auto].
    rewrite <- (app_nil_r t). apply (inv_same_view prior st); [|constructor|done].
    subst st1. unfold same_view. repeat split; try (now destruct st).
    intros El id. rewrite listeners_of_add.
    destruct (inv_latch _ _ Hs El) as (_ & _ & _ & Hp).
    destruct (decide _); [|apply Hp].
    unfold prim. rewrite filter_app. fold (prim (listeners_of st (fid f))).
    rewrite Hp. reflexivity. }
  destruct (primary (attrs f)).
  - unfold handlePrimaryFragment, branch.
    destruct (shouldWriteHead st1) eqn:El.
    + rewrite seq_upd. unfold upd, st_of, out_of; simpl. rewrite app_nil_r.
      split; [|split; [reflexivity | now destruct st1]].
      pose proof (inv_pending _ _ Hs1) as Hp.
      destruct (inv_latch _ _ Hs1 El) as (Hh & _).
      pose proof (not_piped _ _ Hs1 Hh) as Hpi.
      split; [open_state Hs1 st1; close_state | same_trace Ht1 st1].
    + unfold skip, st_of, out_of; simpl. rewrite app_nil_r.
      split; [split; assumption|]. split; [congruence|auto].
  - unfold skip, st_of, out_of; simpl. rewrite app_nil_r.
    split; [split; assumption|]. split; [congruence|auto].
Qed.

Lemma fragmentEmits_preserves (id : nat) (ev : fragment_event) :
  preserves (λ st, wired st = true) (fragmentEmits cfg id ev).
Proof.
  intros prior st t Hw [Hs Ht]. unfold fragmentEmits, reading.
  rewrite seq_upd.
  set (ls := default [] (listeners st !! id)).
  set (hit := filter _ ls). set (rest := filter _ ls).
  set (st1 := set_listeners _ st).
  assert (inv prior st1 t ∧ shouldWriteHead st1 = shouldWriteHead st
          ∧ wired st1 = true) as (Hi1 & Hl1 & Hw1).
  { split; [|subst st1; destruct st; auto].
    rewrite <- (app_nil_r t).
    apply (inv_same_view prior st); [|constructor|done].
    subst st1. unfold same_view. repeat split; try (now destruct st).
    intros El id'. rewrite listeners_of_insert.
    destruct (inv_latch _ _ Hs El) as (_ & _ & _ & Hp).
    destruct (decide _); [|apply Hp].
    apply prim_nil. intros nl Hnl. subst rest.
    apply list_elem_of_filter in Hnl as [_ Hnl].
    exact (proj1 (prim_nil _) (Hp id) nl Hnl). }
  destruct (shouldWriteHead st) eqn:El.
  - assert (Forall (λ nl, is_primary_listener (snd nl) = false) hit) as Hhit.
    { destruct (inv_latch _ _ Hs El) as (_ & _ & _ & Hp).
      apply Forall_forall. intros nl Hnl. subst hit.
      apply list_elem_of_filter in Hnl as [_ Hnl].
      exact (proj1 (prim_nil _) (Hp id) nl Hnl). }
    assert (preserves (λ _, True) (each (λ nl, invoke cfg ev (snd nl)) hit))
      as Hp.
    { apply (each_preserves (λ _, True)
               (λ nl, is_primary_listener (snd nl) = false));
        [| |exact Hhit].
      - intros nl Hnl. eapply preserves_weaken; [|apply invoke_preserves].
        simpl. intros s _ Hc. congruence.
      - intros; exact I. }
    destruct (Hp prior st1 t I Hi1) as (H1 & H2 & H3).
    split; [exact H1|]. split; [congruence | auto].
  - assert (preserves (λ s, wired s = true ∧ shouldWriteHead s = false)
              (each (λ nl, invoke cfg ev (snd nl)) hit)) as Hp.
    { apply (each_preserves _ (λ _, True)).
      - intros nl _. eapply preserves_weaken; [|apply invoke_preserves].
        simpl. auto.
      - intros nl prior' s t' _ [Hws Hls] Hi.
        destruct (invoke_preserves ev (snd nl) prior' s t') as (_ & Ha & Hb);
          auto.
      - apply Forall_forall. auto. }
    destruct (Hp prior st1 t) as (H1 & H2 & H3);
      [split; congruence | exact Hi1 |].
    split; [exact H1|]. split; [intros _; apply H2; congruence | auto].
Qed.

Lemma meter_write_one (chunk : string) (st : state) :
  meterEnded st = false → responseEnded st = false →
  meter_write chunk st
  = (true, set_contentSize (contentSize st + String.length chunk) st,
     [ResponseWrite chunk]).
Proof.
  intros Hm Hr. unfold meter_write, branch, seq, upd, act, skip.
  rewrite Hm. destruct st; simpl in *. rewrite Hr. reflexivity.
Qed.

Lemma meter_write_preserves (chunk : string) :
  preserves (λ st, piped st = true) (meter_write chunk).
Proof.
  intros prior st t Hp [Hs Ht].
  pose proof (inv_piped _ _ Hs Hp) as Hh.
  destruct (meterEnded st) eqn:Em.
  - assert (meter_write chunk st = (true, st, [])) as ->
      by (unfold meter_write, branch, skip; now rewrite Em).
    unfold st_of, out_of; simpl. rewrite app_nil_r. split; [split|]; auto.
  - pose proof (inv_live _ _ Hs Hp Em) as Hr.
    rewrite meter_write_one by assumption.
    unfold st_of, out_of; simpl. split; [|now destruct st].
    split; [open_state Hs st; close_state|].
    apply (trace_inv_extend st); [assumption|..]; destruct st; side.
Qed.

Lemma meter_end_preserves :
  preserves (λ st, piped st = true) meter_end.
Proof.
  intros prior st t Hp [Hs Ht].
  pose proof (inv_piped _ _ Hs Hp) as Hh.
  pose proof (headersSent_unlatched _ _ Hs Hh) as El.
  destruct (meterEnded st) eqn:Em.
  - rewrite meter_end_closed by assumption.
    unfold st_of, out_of; simpl. rewrite app_nil_r. split; [split|]; auto.
  - pose proof (inv_live _ _ Hs Hp Em) as Hr.
    rewrite meter_end_open by assumption. rewrite Hp, Hr. simpl.
    unfold st_of, out_of; simpl. split; [|now destruct st].
    split; [open_state Hs st; close_state|].
    apply (trace_inv_extend st); [assumption|..]; destruct st; side.
Qed.

Lemma data_preserves (chunk : string) :
  preserves (λ _, True)
    (branch piped (meter_write chunk)
       (upd (λ st, set_buffered (buffered st ++ [chunk]) st))).
Proof.
  apply branch_preserves.
  - eapply preserves_weaken; [|apply meter_write_preserves]. now intros st [_ ?].
  - apply upd_preserves; [|intros st; now destruct st..].
    intros prior st t _ [Hs Ht].
    split; [open_state Hs st; close_state | same_trace Ht st].
Qed.

Lemma sourceEnd_preserves :
  preserves (λ _, True) (upd set_sourceEnded ;; branch piped meter_end skip).
Proof.
  eapply seq_preserves with (D := λ _, True); [| |intros; exact I].
  - apply upd_preserves; [|intros st; now destruct st..].
    intros prior st t _ [Hs Ht].
    split; [open_state Hs st; close_state | same_trace Ht st].
  - apply branch_preserves; [|apply skip_preserves].
    eapply preserves_weaken; [|apply meter_end_preserves]. now intros st [_ ?].
Qed.

(** Every reaction of the handler keeps the invariant. *)
Lemma react_preserves (ev : event) : preserves (λ _, True) (react cfg ev).
Proof.
  destruct ev as [tpl|e|ctx|e|f|id fe| |e|chunk|]; simpl.
  - apply branch_preserves; [|apply skip_preserves].
    eapply preserves_weaken; [|apply templateResolved_preserves].
    intros st [_ H]. now destruct (templateP st).
  - apply branch_preserves; [|apply skip_preserves].
    eapply preserves_weaken; [|apply (handleError_preserves e true)].
    intros st [_ H]. now destruct (templateP st).
  - apply branch_preserves; [|apply skip_preserves].
    eapply preserves_weaken; [|apply contextSettled_preserves].
    intros; exact I.
  - apply branch_preserves; [|apply skip_preserves].
    eapply seq_preserves with (D := λ _, True);
      [apply emit_preserves; exact I| |intros; exact I].
    apply contextSettled_preserves.
  - apply branch_preserves; [|apply skip_preserves].
    eapply preserves_weaken; [|apply fragmentFound_preserves]. now intros st [_ ?].
  - apply branch_preserves; [|apply skip_preserves].
    eapply preserves_weaken; [|apply fragmentEmits_preserves]. now intros st [_ ?].
  - apply branch_preserves; [|apply skip_preserves].
    eapply preserves_weaken; [|apply finish_preserves].
    intros st [_ H]. now apply andb_true_iff in H as [? _].
  - apply branch_preserves; [|apply skip_preserves].
    eapply preserves_weaken; [|apply (handleError_preserves e false)].
    intros st [_ H]. now apply andb_true_iff in H.
  - apply branch_preserves; [|apply skip_preserves].
    eapply preserves_weaken; [|apply data_preserves].
    intros; exact I.
  - apply branch_preserves; [|apply skip_preserves].
    eapply preserves_weaken; [|apply sourceEnd_preserves].
    intros; exact I.
Qed.

(** *** The whole request *)

Lemma run_inv (evs : list event) (prior : Z) (st : state) (t : list action) :
  inv prior st t →
  inv prior (fst (run cfg st evs)) (t ++ snd (run cfg st evs)).
Proof.
  revert st t. induction evs as [|ev evs IH]; intros st t Hi; simpl.
  - now rewrite app_nil_r.
  - unfold step.
    destruct (react_preserves ev prior st t I Hi) as (Hi1 & _).
    destruct (react cfg ev st) as [[ok st1] o1].
    unfold st_of, out_of in Hi1; simpl in Hi1.
    specialize (IH st1 (t ++ o1) Hi1).
    destruct (run cfg st1 evs) as [st2 o2]. simpl in *.
    now rewrite app_assoc.
Qed.

Lemma baseline_keys_present (k : string) :
  k ∈ baseline_keys → is_Some (baseline !! k).
Proof.
  intros Hk. unfold baseline_keys in Hk.
  repeat (apply elem_of_cons in Hk as [Hk'|Hk];
          [subst k; vm_compute; eauto|]).
  now apply elem_of_nil in Hk.
Qed.

Lemma initial_inv (prior : Z) : inv prior (initial prior) [Emit EStart].
Proof.
  split.
  - constructor; simpl; intros; try congruence; try (split; congruence).
    + repeat split.
    + now apply baseline_keys_present.
  - constructor; simpl; intros; try congruence; auto.
    + repeat constructor.
    + match goal with H : Emit _ ∈ _ |- _ => elems H end.
    + match goal with H : WriteHead _ _ ∈ _ |- _ => elems H end.
Qed.

Lemma request_inv (prior : Z) (evs : list event) :
  inv prior (fst (request cfg prior evs)) (snd (request cfg prior evs)).
Proof.
  unfold request.
  pose proof (run_inv evs prior _ _ (initial_inv prior)) as H.
  destruct (run cfg (initial prior) evs) as [st o]. exact H.
Qed.

(** *** How often the head is written *)

Lemma seq_out (p q : proc) (st : state) :
  out_of ((p ;; q) st)
  = out_of (p st)
    ++ (if ok_of (p st) then out_of (q (st_of (p st))) else []).
Proof.
  unfold seq, out_of, ok_of, st_of.
  destruct (p st) as [[[|] st1] o1]; simpl; [|now rewrite app_nil_r].
  now destruct (q st1) as [[ok st2] o2].
Qed.

Lemma seq_st (p q : proc) (st : state) :
  st_of ((p ;; q) st)
  = if ok_of (p st) then st_of (q (st_of (p st))) else st_of (p st).
Proof.
  unfold seq, ok_of, st_of.
  destruct (p st) as [[[|] st1] o1]; simpl; [|reflexivity].
  now destruct (q st1) as [[ok st2] o2].
Qed.

Lemma heads_seq (n m : nat) (p q : proc) :
  heads n p → heads m q → heads (n + m) (p ;; q).
Proof.
  intros Hp Hq st. rewrite seq_out, count_app.
  specialize (Hp st). destruct (ok_of (p st)).
  - specialize (Hq (st_of (p st))). lia.
  - rewrite count_nil. lia.
Qed.

Lemma heads_le (n m : nat) (p : proc) : (n ≤ m)%nat → heads n p → heads m p.
Proof. intros Hnm Hp st. specialize (Hp st). lia. Qed.

Lemma heads_skip : heads 0 skip.
Proof. intros st. reflexivity. Qed.

Lemma heads_upd (f : state → state) : heads 0 (upd f).
Proof. intros st. reflexivity. Qed.

Lemma heads_act (a : action) : is_writeHead a = false → heads 0 (act a).
Proof. intros Ha st. unfold act, out_of; simpl. rewrite count_cons, Ha. reflexivity. Qed.

Lemma heads_branch (n : nat) (b : state → bool) (p q : proc) :
  heads n p → heads n q → heads n (branch b p q).
Proof. intros Hp Hq st. unfold branch. destruct (b st); auto. Qed.

Lemma heads_reading (n : nat) (k : state → proc) :
  (∀ s, heads n (k s)) → heads n (reading k).
Proof. intros H st. apply H. Qed.

Lemma heads_each {A : Type} (f : A → proc) (l : list A) :
  (∀ x, heads 0 (f x)) → heads 0 (each f l).
Proof.
  intros H. induction l as [|x l IH]; [apply heads_skip|].
  simpl. apply (heads_seq 0 0); auto.
Qed.

Lemma heads_writeHead (c : Z) : heads 1 (writeHead c).
Proof.
  intros st. unfold writeHead, out_of, count.
  destruct (headersSent st); simpl; lia.
Qed.

Lemma heads_response_finish : heads 0 response_finish.
Proof.
  apply heads_branch; [|apply heads_skip].
  apply (heads_seq 0 0); [now apply heads_act | apply heads_upd].
Qed.

Lemma heads_meter_end : heads 0 meter_end.
Proof.
  apply heads_branch; [apply heads_skip|].
  apply (heads_seq 0 0); [apply heads_upd|].
  apply (heads_seq 0 0); [|apply heads_response_finish].
  apply heads_reading. intros s. now apply heads_act.
Qed.

Lemma heads_meter_write (chunk : string) : heads 0 (meter_write chunk).
Proof.
  apply heads_branch; [apply heads_skip|].
  apply (heads_seq 0 0); [apply heads_upd|].
  apply heads_branch; [apply heads_skip | now apply heads_act].
Qed.

Lemma heads_pipe : heads 0 pipe.
Proof.
  unfold pipe.
  apply (heads_seq 0 0); [now apply heads_act|].
  apply (heads_seq 0 0); [apply heads_upd|].
  apply (heads_seq 0 0);
    [apply heads_reading; intros s; apply heads_each, heads_meter_write|].
  apply (heads_seq 0 0); [apply heads_upd|].
  apply (heads_seq 0 0); [|apply heads_response_finish].
  apply heads_branch; [apply heads_meter_end | apply heads_skip].
Qed.

Lemma heads_response_end (b : option string) : heads 0 (response_end b).
Proof. apply (heads_seq 0 0); [now apply heads_act | apply heads_upd]. Qed.

Lemma heads_handleError (err : error) : heads 1 (handleError err).
Proof.
  unfold handleError. apply (heads_seq 0 1); [now apply heads_act|].
  apply heads_branch.
  - apply (heads_seq 0 1); [apply heads_upd|].
    apply (heads_seq 1 0); [apply heads_writeHead|].
    destruct (presentable err); apply heads_response_end.
  - apply (heads_le 0); [lia|].
    apply (heads_seq 0 0); [now apply heads_act | apply heads_meter_end].
Qed.

Lemma heads_finish : heads 1 finish.
Proof.
  unfold finish. apply heads_reading. intros s.
  apply heads_branch; [|apply (heads_le 0); [lia | apply heads_skip]].
  apply (heads_seq 0 1); [apply heads_upd|].
  apply (heads_seq 0 1);
    [apply heads_reading; intros s'; now apply heads_act|].
  apply (heads_seq 1 0); [apply heads_writeHead | apply heads_pipe].
Qed.

Lemma heads_invoke (ev : fragment_event) (l : listener) :
  heads (if is_primary_listener l && is_head_type ev then 1 else 0)
    (invoke cfg ev l).
Proof.
  destruct l as [a|a| |]; simpl.
  - now apply heads_act.
  - destruct ev; simpl;
      try (apply (heads_le 0); [lia | apply heads_skip]).
    unfold primaryResponse.
    apply (heads_seq 0 1); [apply heads_upd|].
    apply (heads_seq 0 1); [apply heads_upd|].
    apply (heads_seq 0 1); [apply heads_upd|].
    apply (heads_seq 0 1);
      [apply heads_reading; intros s'; now apply heads_act|].
    apply (heads_seq 1 0); [apply heads_writeHead | apply heads_pipe].
  - destruct ev; simpl;
      try (apply (heads_le 0); [lia | apply heads_skip]).
    apply (heads_seq 0 1); [now apply heads_act|].
    apply (heads_seq 1 0); [apply heads_writeHead | apply heads_pipe].
  - destruct ev; simpl;
      try (apply (heads_le 0); [lia | apply heads_skip]).
    apply (heads_seq 0 1); [now apply heads_act|].
    apply (heads_seq 1 0); [apply heads_writeHead | apply heads_response_end].
Qed.

Lemma heads_invoke_all (ev : fragment_event)
  (ls : list (event_name * listener)) :
  heads (if is_head_type ev then length (prim ls) else 0)
    (each (λ nl, invoke cfg ev (snd nl)) ls).
Proof.
  induction ls as [|[n l] ls IH].
  - simpl. destruct (is_head_type ev); apply heads_skip.
  - cbn [each]. unfold prim. rewrite filter_cons. fold (prim ls). simpl.
    pose proof (heads_invoke ev l) as Hl.
    destruct (decide (is_primary_listener l = true)) as [E|E].
    + rewrite E in Hl. simpl in *. destruct (is_head_type ev).
      * apply (heads_seq 1 (length (prim ls))); auto.
      * apply (heads_seq 0 0); auto.
    + apply not_true_is_false in E. rewrite E in Hl. simpl in Hl.
      destruct (is_head_type ev).
      * apply (heads_seq 0 (length (prim ls))); auto.
      * apply (heads_seq 0 0); auto.
Qed.

(** *** The latch and the listeners *)

Lemma keeps_seq (p q : proc) : keeps p → keeps q → keeps (p ;; q).
Proof.
  intros Hp Hq st. rewrite seq_st. destruct (Hp st) as [H1 H2].
  destruct (ok_of (p st)); [|auto].
  destruct (Hq (st_of (p st))) as [H3 H4]. split; congruence.
Qed.

Lemma keeps_skip : keeps skip.
Proof. intros st. split; reflexivity. Qed.

Lemma keeps_act (a : action) : keeps (act a).
Proof. intros st. split; reflexivity. Qed.

Lemma keeps_upd (f : state → state) :
  (∀ st, shouldWriteHead (f st) = shouldWriteHead st
         ∧ listeners (f st) = listeners st) →
  keeps (upd f).
Proof. intros H st. apply H. Qed.

Lemma keeps_branch (b : state → bool) (p q : proc) :
  keeps p → keeps q → keeps (branch b p q).
Proof. intros Hp Hq st. unfold branch. destruct (b st); auto. Qed.

Lemma keeps_reading (k : state → proc) :
  (∀ s, keeps (k s)) → keeps (reading k).
Proof. intros H st. apply H. Qed.

Lemma keeps_each {A : Type} (f : A → proc) (l : list A) :
  (∀ x, keeps (f x)) → keeps (each f l).
Proof.
  intros H. induction l as [|x l IH]; [apply keeps_skip|].
  simpl. apply keeps_seq; auto.
Qed.

Ltac keeps_tac :=
  repeat first
    [ apply keeps_seq
    | apply keeps_skip
    | apply keeps_act
    | apply keeps_branch
    | apply keeps_reading; intros ?
    | apply keeps_each; intros ?
    | apply keeps_upd; intros [] ; split; reflexivity ].

Lemma keeps_writeHead (c : Z) : keeps (writeHead c).
Proof.
  intros st. unfold writeHead, st_of. destruct (headersSent st), st; split;
    reflexivity.
Qed.

Lemma keeps_meter_end : keeps meter_end.
Proof. unfold meter_end, response_finish. keeps_tac. Qed.

Lemma keeps_meter_write (chunk : string) : keeps (meter_write chunk).
Proof. unfold meter_write. keeps_tac. Qed.

Ltac keeps_all :=
  repeat first
    [ apply keeps_writeHead
    | apply keeps_meter_end
    | apply keeps_meter_write
    | apply keeps_seq
    | apply keeps_skip
    | apply keeps_act
    | apply keeps_branch
    | apply keeps_reading; intros ?
    | apply keeps_each; intros ?
    | apply keeps_upd; intros [] ; split; reflexivity ].

Lemma keeps_pipe : keeps pipe.
Proof. unfold pipe. keeps_all. Qed.

Lemma keeps_invoke (ev : fragment_event) (l : listener) :
  keeps (invoke cfg ev l).
Proof.
  destruct l as [a|a| |]; simpl.
  - apply keeps_act.
  - destruct ev; try apply keeps_skip. unfold primaryResponse.
    repeat apply keeps_seq; try apply keeps_pipe; keeps_all.
  - destruct ev; try apply keeps_skip. unfold primaryFallback.
    repeat apply keeps_seq; try apply keeps_pipe; keeps_all.
  - destruct ev; try apply keeps_skip. unfold primaryError, response_end.
    keeps_all.
Qed.

Lemma keeps_settle : keeps (settle cfg).
Proof.
  unfold settle. apply keeps_reading. intros s.
  destruct (templateP s); try apply keeps_skip.
  destruct (contextP s); try apply keeps_skip.
  destruct (wired s); try apply keeps_skip.
  unfold onResolved. keeps_tac.
Qed.

Lemma mild_quiet (p : proc) : keeps p → heads 0 p → mild p.
Proof.
  intros Hk Hh st. destruct (Hk st) as [H1 H2]. specialize (Hh st).
  split; [assumption|]. split; intros E.
  - split; [congruence | lia].
  - split; [lia|]. intros _. lia.
Qed.

Lemma mild_branch (b : state → bool) (p q : proc) :
  mild p → mild q → mild (branch b p q).
Proof. intros Hp Hq st. unfold branch. destruct (b st); auto. Qed.

Lemma mild_upd_seq (f : state → state) (p : proc) :
  (∀ st, shouldWriteHead (f st) = shouldWriteHead st
         ∧ listeners (f st) = listeners st) →
  mild p → mild (upd f ;; p).
Proof.
  intros Hf Hp st. rewrite seq_upd. destruct (Hf st) as [H1 H2].
  destruct (Hp (f st)) as (P1 & P2 & P3). rewrite H1 in P2, P3.
  split; [congruence|]. split; assumption.
Qed.

Lemma mild_handleError (err : error) : mild (handleError err).
Proof.
  intros st. pose proof (heads_handleError err st) as Hh.
  destruct (shouldWriteHead st) eqn:El.
  - assert (handleError err st
            = (act (Emit (EError err)) ;;
               (writeHead (error_status err) ;;
                response_end (error_body err)))
                (set_shouldWriteHead false st)) as E.
    { unfold handleError, error_status, error_body, response_end, seq, act,
        branch, upd.
      simpl. rewrite El.
      destruct (presentable err);
        destruct (writeHead _ _) as [[[|] ?] ?]; reflexivity. }
    assert (keeps (act (Emit (EError err)) ;;
                   (writeHead (error_status err) ;;
                    response_end (error_body err)))) as Hk
      by (unfold response_end; keeps_all).
    destruct (Hk (set_shouldWriteHead false st)) as [K1 K2].
    rewrite <- E in K1, K2.
    split; [rewrite K2; now destruct st|].
    split; [discriminate|]. intros _. split; [assumption|].
    rewrite K1. destruct st; discriminate.
  - rewrite handleError_unlatched in * by assumption.
    destruct (keeps_meter_end st) as [K1 K2].
    pose proof (heads_meter_end st) as Hm.
    destruct (meter_end st) as [[ok st'] o].
    unfold st_of, out_of in *; simpl in *.
    split; [assumption|]. split; [|discriminate]. intros _.
    split; [congruence|]. rewrite !count_cons. simpl. lia.
Qed.

Lemma mild_finish : mild finish.
Proof.
  intros st. pose proof (heads_finish st) as Hh.
  destruct (shouldWriteHead st) eqn:El.
  - assert (finish st
            = (act (Emit (EResponse (finish_status st) (responseHeaders st))) ;;
               (writeHead (finish_status st) ;; pipe))
                (set_shouldWriteHead false st)) as E.
    { unfold finish, finish_status, reading, seq, act, branch, upd.
      simpl. rewrite El. destruct st; simpl.
      destruct (writeHead _ _) as [[[|] ?] ?]; [|reflexivity].
      destruct (pipe _) as [[? ?] ?]; reflexivity. }
    assert (keeps (act (Emit (EResponse (finish_status st)
                                (responseHeaders st))) ;;
                   (writeHead (finish_status st) ;; pipe))) as Hk
      by (repeat apply keeps_seq; try apply keeps_pipe; keeps_all).
    destruct (Hk (set_shouldWriteHead false st)) as [K1 K2].
    rewrite <- E in K1, K2.
    split; [rewrite K2; now destruct st|].
    split; [discriminate|]. intros _. split; [assumption|].
    rewrite K1. destruct st; discriminate.
  - rewrite finish_unlatched by assumption.
    unfold st_of, out_of; simpl.
    split; [reflexivity|]. split; [auto | discriminate].
Qed.

Lemma pending_mono (st st' : state) (id : nat) (ev : event)
  (rest : list event) :
  (∀ n, (length (prim_for n (listeners_of st' id))
         ≤ length (prim_for n (listeners_of st id)))%nat) →
  (pending st' id rest ≤ pending st id (ev :: rest))%nat.
Proof.
  intros H. unfold pending, head_names, emits. cbn [foldr existsb].
  pose proof (H EvResponse). pose proof (H EvFallback).
  pose proof (H EvError).
  repeat match goal with
         | |- context [existsb ?f rest] => destruct (existsb f rest)
         end;
    rewrite ?orb_true_r, ?orb_false_r;
    repeat match goal with
           | |- context [if ?b then _ else _] => destruct b
           end; lia.
Qed.

Lemma pending_spent (st st' : state) (id : nat) (fe : fragment_event)
  (rest : list event) :
  (∀ n, (length (prim_for n (listeners_of st' id))
         ≤ length (prim_for n (listeners_of st id)))%nat) →
  length (prim_for (name_of fe) (listeners_of st' id)) = 0%nat →
  (pending st' id rest
   + (if is_head_type fe
      then length (prim_for (name_of fe) (listeners_of st id)) else 0)
   ≤ pending st id (FragmentEmits id fe :: rest))%nat.
Proof.
  intros H H0. pose proof (H EvResponse). pose proof (H EvFallback).
  pose proof (H EvError).
  unfold pending, head_names, emits. cbn [foldr existsb].
  rewrite Nat.eqb_refl. cbn [andb].
  repeat match goal with
         | |- context [existsb ?f rest] => destruct (existsb f rest)
         end;
    rewrite ?orb_true_r, ?orb_false_r;
    destruct fe; cbn [name_of is_head_type event_name_eqb] in *; lia.
Qed.

Lemma pending_kinds (st : state) (id : nat) (evs : list event) :
  (∀ n, (length (prim_for n (listeners_of st id)) ≤ 1)%nat) →
  (pending st id evs ≤ head_kinds id evs)%nat.
Proof.
  intros H. unfold pending, head_kinds, head_names. cbn [foldr List.filter].
  pose proof (H EvResponse). pose proof (H EvFallback).
  pose proof (H EvError).
  destruct (emits id EvResponse evs), (emits id EvFallback evs),
    (emits id EvError evs); simpl; lia.
Qed.

Lemma armed_same_listeners (st st' : state) (who : option nat) :
  listeners st' = listeners st →
  (shouldWriteHead st' = true → shouldWriteHead st = true) →
  armed_inv st who → armed_inv st' who.
Proof.
  intros Hl Hs [A1 A2]. split; [auto|].
  intros id. unfold listeners_of. rewrite Hl. apply A2.
Qed.

Lemma mild_pays (p : proc) (ev : event) : mild p → pays p ev.
Proof.
  intros Hp st who Ha. destruct (Hp st) as (P1 & P2 & P3).
  destruct (shouldWriteHead st) eqn:El.
  - destruct (P3 eq_refl) as [Hw Hz]. exists None. split.
    + destruct Ha as [A1 A2]. rewrite (A1 El) in A2.
      split; [reflexivity|]. intros id. unfold listeners_of. rewrite P1.
      apply A2.
    + split; [discriminate|].
      intros rest _. unfold heads_left. rewrite El.
      destruct (shouldWriteHead (st_of (p st))) eqn:El'; [|lia].
      rewrite (Hz eq_refl). lia.
  - destruct (P2 eq_refl) as [Hl Hz]. exists who. split.
    + apply (armed_same_listeners st); [assumption|congruence|assumption].
    + split; [reflexivity|].
      intros rest _. unfold heads_left. rewrite El, Hl, Hz.
      destruct who as [id|]; [|lia]. simpl. apply pending_mono.
      intros n. unfold listeners_of. now rewrite P1.
Qed.

Lemma filter_comm {A : Type} (P Q : A → Prop)
  `{!∀ x, Decision (P x), !∀ x, Decision (Q x)} (l : list A) :
  filter P (filter Q l) = filter Q (filter P l).
Proof.
  rewrite !list_filter_filter. apply list_filter_iff. intros x. tauto.
Qed.

Lemma prim_hit (n : event_name) (ls : list (event_name * listener)) :
  prim (filter (λ nl, event_name_eqb (fst nl) n = true) ls) = prim_for n ls.
Proof. unfold prim_for, prim. apply filter_comm. Qed.

Lemma prim_for_filter (n : event_name) (P : event_name * listener → Prop)
  `{!∀ x, Decision (P x)} (ls : list (event_name * listener)) :
  (length (prim_for n (filter P ls)) ≤ length (prim_for n ls))%nat.
Proof.
  unfold prim_for, prim.
  rewrite (filter_comm _ P), (filter_comm _ P). apply length_filter.
Qed.

Lemma prim_filter_nil (P : event_name * listener → Prop)
  `{!∀ x, Decision (P x)} (ls : list (event_name * listener)) :
  prim ls = [] → prim (filter P ls) = [].
Proof.
  intros Hnil. unfold prim in *. rewrite filter_comm, Hnil. reflexivity.
Qed.

Lemma prim_add_reemit (a : attributes) (ls : list (event_name * listener)) :
  prim (ls ++ map (λ n, (n, Reemit a)) FRAGMENT_EVENTS) = prim ls.
Proof.
  unfold prim. rewrite filter_app. fold (prim ls).
  fold (prim (map (λ n, (n, Reemit a)) FRAGMENT_EVENTS)).
  rewrite prim_reemit. apply app_nil_r.
Qed.

Lemma fragmentFound_result (f : fragment) (st : state) :
  fragmentFound f st
  = (true,
     (let st1 := add_listeners (fid f)
                   (map (λ n, (n, Reemit (attrs f))) FRAGMENT_EVENTS) st in
      if primary (attrs f) && shouldWriteHead st
      then add_listeners (fid f) (primary_listeners (attrs f))
             (set_shouldWriteHead false st1)
      else st1),
     []).
Proof.
  unfold fragmentFound, handlePrimaryFragment, branch, seq, upd, skip.
  destruct (primary (attrs f)), st as [[|] ? ? ? ? ? ? ? ? ? ? ? ? ? ? ?];
    reflexivity.
Qed.

Lemma fragmentFound_pays (f : fragment) (st : state) :
  wired st = true → pays_at (fragmentFound f) (FragmentFound f) st.
Proof.
  intros W who [A1 A2]. rewrite fragmentFound_result.
  unfold st_of, out_of; cbn [fst snd]; cbv zeta. rewrite count_nil.
  set (st1 := add_listeners (fid f) _ st).
  assert (∀ id, prim (listeners_of st1 id) = prim (listeners_of st id)) as Hp1.
  { intros id. subst st1. rewrite listeners_of_add.
    destruct (decide _) as [<-|]; [apply prim_add_reemit | reflexivity]. }
  destruct (primary (attrs f) && shouldWriteHead st) eqn:E.
  - apply andb_true_iff in E as [Ep El]. specialize (A1 El). subst who.
    assert (armed_inv
              (add_listeners (fid f) (primary_listeners (attrs f))
                 (set_shouldWriteHead false st1)) (Some (fid f))) as Ha'.
    { split; [destruct st; discriminate|]. intros id.
      rewrite listeners_of_add.
      assert (shouldWriteHead st1 = shouldWriteHead st) as _
        by (subst st1; now destruct st).
      replace (listeners_of (set_shouldWriteHead false st1))
        with (listeners_of st1) by (now destruct st1).
      destruct (decide (fid f = id)) as [<-|Hne].
      * split; [congruence|]. intros n. unfold prim_for, prim.
        rewrite filter_app. fold (prim (listeners_of st1 (fid f))).
        rewrite Hp1. rewrite (proj1 (A2 (fid f))) by discriminate.
        destruct n; vm_compute; lia.
      * destruct (A2 id) as [B1 B2]. split.
        -- intros _. rewrite Hp1. apply B1. discriminate.
        -- intros n. unfold prim_for. rewrite Hp1. apply B2. }
    exists (Some (fid f)). split; [exact Ha'|].
    split; [congruence|].
    intros rest Hrest. unfold heads_left. rewrite El.
    replace (shouldWriteHead _) with false by (now destruct st).
    assert (claims_head st f = true) as Hc
      by (unfold claims_head; now rewrite W, El, Ep).
    specialize (Hrest f eq_refl Hc).
    pose proof (pending_kinds _ (fid f) rest
                  (λ n, proj2 (proj2 Ha' (fid f)) n)).
    simpl. lia.
  - exists who.
    assert (shouldWriteHead st1 = shouldWriteHead st) as El1
      by (subst st1; now destruct st).
    split.
    + split; [rewrite El1; exact A1|]. intros id. destruct (A2 id) as [B1 B2].
      split; [intros H; rewrite Hp1; auto|].
      intros n. unfold prim_for. rewrite Hp1. apply B2.
    + split; [reflexivity|].
      intros rest _. unfold heads_left. rewrite El1.
      destruct (shouldWriteHead st); [lia|].
      destruct who as [i|]; [|lia]. simpl. apply pending_mono.
      intros n. unfold prim_for. now rewrite Hp1.
Qed.

Lemma prim_for_hit_gone (n : event_name)
  (ls : list (event_name * listener)) :
  prim_for n (filter (λ nl, event_name_eqb (fst nl) n = false) ls) = [].
Proof.
  unfold prim_for, prim.
  induction ls as [|nl ls IH]; [reflexivity|].
  rewrite filter_cons. destruct (decide _) as [E|_]; [|exact IH].
  rewrite filter_cons. destruct (decide _) as [_|_]; [|exact IH].
  rewrite filter_cons. destruct (decide _) as [E'|_]; [congruence|exact IH].
Qed.

Lemma fragmentEmits_pays (id : nat) (fe : fragment_event) :
  pays (fragmentEmits cfg id fe) (FragmentEmits id fe).
Proof.
  intros st who [A1 A2]. unfold fragmentEmits, reading. rewrite seq_upd.
  set (ls := default [] (listeners st !! id)).
  set (hit := filter _ ls). set (rest := filter _ ls).
  set (st1 := set_listeners _ st).
  destruct (keeps_each (λ nl, invoke cfg fe (snd nl)) hit
              (λ nl, keeps_invoke fe (snd nl)) st1) as [K1 K2].
  pose proof (heads_invoke_all fe hit st1) as Hw.
  fold (listeners_of st id) in ls.
  assert (prim hit = prim_for (name_of fe) ls) as Hhit
    by (subst hit; apply prim_hit).
  rewrite Hhit in Hw. clear Hhit.
  set (r := each _ hit st1) in *.
  assert (shouldWriteHead (st_of r) = shouldWriteHead st) as El'
    by (rewrite K1; subst st1; now destruct st).
  assert (∀ id', listeners_of (st_of r) id'
                 = if decide (id = id') then rest else listeners_of st id')
    as Hls.
  { intros id'. unfold listeners_of at 1. rewrite K2.
    subst st1. apply (listeners_of_insert st). }
  exists who. split.
  - split; [rewrite El'; exact A1|]. intros id'. rewrite Hls.
    destruct (A2 id') as [B1 B2].
    destruct (decide (id = id')) as [<-|Hne]; [|split; assumption].
    split.
    + intros H. subst rest. apply prim_filter_nil. now apply B1.
    + intros n. subst rest. etransitivity; [apply prim_for_filter|apply B2].
  - split; [reflexivity|].
    intros rest' _. unfold heads_left. rewrite El'.
    destruct (A2 id) as [B1 B2]. specialize (B2 (name_of fe)).
    fold ls in B1, B2.
    assert (who ≠ Some id →
            count is_writeHead (out_of r) = 0%nat) as Hz.
    { intros H. unfold prim_for in Hw. rewrite (B1 H) in Hw. simpl in Hw.
      destruct (is_head_type fe); lia. }
    destruct (shouldWriteHead st) eqn:El.
    + rewrite Hz; [lia|]. rewrite (A1 eq_refl). discriminate.
    + destruct who as [i|]; [|rewrite Hz; [lia|discriminate]].
      destruct (decide (i = id)) as [->|Hne].
      * assert (∀ n, (length (prim_for n (listeners_of (st_of r) id))
                      ≤ length (prim_for n ls))%nat) as Hle.
        { intros n. rewrite Hls. destruct (decide (id = id)); [|congruence].
          subst rest. apply prim_for_filter. }
        assert (length (prim_for (name_of fe) (listeners_of (st_of r) id))
                = 0%nat) as Hgone.
        { rewrite Hls. destruct (decide (id = id)); [|congruence].
          subst rest. now rewrite prim_for_hit_gone. }
        pose proof (pending_spent st (st_of r) id fe rest' Hle Hgone).
        unfold ls in Hw. lia.
      * rewrite Hz by congruence. simpl. apply pending_mono.
        intros n. rewrite Hls. destruct (decide (id = i)); [congruence|].
        reflexivity.
Qed.

Lemma react_pays (ev : event) : pays (react cfg ev) ev.
Proof.
  destruct ev as [tpl|e|ctx|e|f|id fe| |e|chunk|]; simpl.
  - apply mild_pays, mild_quiet.
    + apply keeps_branch; [|apply keeps_skip].
      apply keeps_seq; [keeps_all | apply keeps_settle].
    + apply heads_branch; [|apply heads_skip].
      apply (heads_seq 0 0); [apply heads_upd|].
      unfold settle. apply heads_reading. intros s.
      destruct (templateP s); try apply heads_skip.
      destruct (contextP s); try apply heads_skip.
      destruct (wired s); try apply heads_skip.
      unfold onResolved.
      apply (heads_seq 0 0); [now apply heads_act|].
      apply (heads_seq 0 0); [apply heads_upd|].
      apply (heads_seq 0 0); [|now apply heads_act].
      apply heads_each. intros x. now apply heads_act.
  - apply mild_pays, mild_branch; [|apply mild_quiet;
                                     [apply keeps_skip | apply heads_skip]].
    apply mild_upd_seq; [intros []; split; reflexivity|].
    apply mild_handleError.
  - apply mild_pays, mild_quiet.
    + apply keeps_branch; [|apply keeps_skip].
      apply keeps_seq; [keeps_all | apply keeps_settle].
    + apply heads_branch; [|apply heads_skip].
      apply (heads_seq 0 0); [apply heads_upd|].
      unfold settle. apply heads_reading. intros s.
      destruct (templateP s); try apply heads_skip.
      destruct (contextP s); try apply heads_skip.
      destruct (wired s); try apply heads_skip.
      unfold onResolved.
      apply (heads_seq 0 0); [now apply heads_act|].
      apply (heads_seq 0 0); [apply heads_upd|].
      apply (heads_seq 0 0); [|now apply heads_act].
      apply heads_each. intros x. now apply heads_act.
  - apply mild_pays, mild_quiet.
    + apply keeps_branch; [|apply keeps_skip].
      apply keeps_seq; [apply keeps_act|].
      apply keeps_seq; [keeps_all | apply keeps_settle].
    + apply heads_branch; [|apply heads_skip].
      apply (heads_seq 0 0); [now apply heads_act|].
      apply (heads_seq 0 0); [apply heads_upd|].
      unfold settle. apply heads_reading. intros s.
      destruct (templateP s); try apply heads_skip.
      destruct (contextP s); try apply heads_skip.
      destruct (wired s); try apply heads_skip.
      unfold onResolved.
      apply (heads_seq 0 0); [now apply heads_act|].
      apply (heads_seq 0 0); [apply heads_upd|].
      apply (heads_seq 0 0); [|now apply heads_act].
      apply heads_each. intros x. now apply heads_act.
  - intros st who Ha. unfold branch. destruct (wired st) eqn:W.
    + now apply fragmentFound_pays.
    + apply (mild_pays skip); [|assumption].
      apply mild_quiet; [apply keeps_skip | apply heads_skip].
  - intros st who Ha. unfold branch. destruct (wired st).
    + now apply fragmentEmits_pays.
    + apply (mild_pays skip); [|assumption].
      apply mild_quiet; [apply keeps_skip | apply heads_skip].
  - apply mild_pays, mild_branch; [|apply mild_quiet;
                                     [apply keeps_skip | apply heads_skip]].
    apply mild_upd_seq; [intros []; split; reflexivity|].
    apply mild_finish.
  - apply mild_pays, mild_branch; [|apply mild_quiet;
                                     [apply keeps_skip | apply heads_skip]].
    apply mild_upd_seq; [intros []; split; reflexivity|].
    apply mild_handleError.
  - apply mild_pays, mild_quiet.
    + keeps_all.
    + apply heads_branch; [|apply heads_skip].
      apply heads_branch; [apply heads_meter_write | apply heads_upd].
  - apply mild_pays, mild_quiet.
    + keeps_all.
    + apply heads_branch; [|apply heads_skip].
      apply (heads_seq 0 0); [apply heads_upd|].
      apply heads_branch; [apply heads_meter_end | apply heads_skip].
Qed.

Lemma step_react (st : state) (ev : event) :
  step cfg st ev = (st_of (react cfg ev st), out_of (react cfg ev st)).
Proof. unfold step, st_of, out_of. now destruct (react cfg ev st) as [[? ?] ?]. Qed.

Lemma run_cons (st : state) (ev : event) (evs : list event) :
  run cfg st (ev :: evs)
  = (fst (run cfg (fst (step cfg st ev)) evs),
     snd (step cfg st ev) ++ snd (run cfg (fst (step cfg st ev)) evs)).
Proof.
  simpl. destruct (step cfg st ev) as [st1 o1]. simpl.
  now destruct (run cfg st1 evs).
Qed.

Lemma run_app (st : state) (l1 l2 : list event) :
  run cfg st (l1 ++ l2)
  = (fst (run cfg (fst (run cfg st l1)) l2),
     snd (run cfg st l1) ++ snd (run cfg (fst (run cfg st l1)) l2)).
Proof.
  revert st. induction l1 as [|ev l1 IH]; intros st.
  - simpl. now destruct (run cfg st l2).
  - rewrite <- app_comm_cons, !run_cons, IH. simpl. now rewrite app_assoc.
Qed.

Lemma fragmentEmits_effect (st : state) (id : nat) (fe : fragment_event) :
  shouldWriteHead (st_of (fragmentEmits cfg id fe st)) = shouldWriteHead st
  ∧ (count is_writeHead (out_of (fragmentEmits cfg id fe st))
     ≤ if is_head_type fe
       then length (prim_for (name_of fe) (listeners_of st id))
       else 0)%nat.
Proof.
  unfold fragmentEmits, reading. rewrite seq_upd.
  set (ls := default [] (listeners st !! id)).
  set (hit := filter _ ls). set (st1 := set_listeners _ st).
  destruct (keeps_each (λ nl, invoke cfg fe (snd nl)) hit
              (λ nl, keeps_invoke fe (snd nl)) st1) as [K1 K2].
  pose proof (heads_invoke_all fe hit st1) as Hw.
  subst hit. rewrite prim_hit in Hw.
  split; [rewrite K1; subst st1; now destruct st | exact Hw].
Qed.

(** The latch is never set again, and only the events of [clears_latch]
    clear it. *)
Lemma react_latch (ev : event) (st : state) :
  (shouldWriteHead st = false →
   shouldWriteHead (st_of (react cfg ev st)) = false)
  ∧ (clears_latch ev = false →
     shouldWriteHead (st_of (react cfg ev st)) = shouldWriteHead st).
Proof.
  assert (∀ p, keeps p →
            (shouldWriteHead st = false → shouldWriteHead (st_of (p st)) = false)
            ∧ (shouldWriteHead (st_of (p st)) = shouldWriteHead st)) as Hk.
  { intros p Hp. destruct (Hp st) as [-> _]. auto. }
  assert (∀ p, mild p →
            shouldWriteHead st = false →
            shouldWriteHead (st_of (p st)) = false) as Hm.
  { intros p Hp El. now destruct (Hp st) as (_ & [? _] & _). }
  destruct ev as [tpl|e|ctx|e|f|id fe| |e|chunk|]; simpl.
  - split; intros; apply Hk; auto;
      (apply keeps_branch; [|apply keeps_skip]);
      (apply keeps_seq; [keeps_all | apply keeps_settle]).
  - split; [|discriminate]. apply Hm.
    apply mild_branch; [|apply mild_quiet; [apply keeps_skip | apply heads_skip]].
    apply mild_upd_seq; [intros []; split; reflexivity | apply mild_handleError].
  - split; intros; apply Hk; auto;
      (apply keeps_branch; [|apply keeps_skip]);
      (apply keeps_seq; [keeps_all | apply keeps_settle]).
  - split; intros; apply Hk; auto;
      (apply keeps_branch; [|apply keeps_skip]);
      (apply keeps_seq; [apply keeps_act|]);
      (apply keeps_seq; [keeps_all | apply keeps_settle]).
  - unfold branch. destruct (wired st); [|split; reflexivity || auto].
    rewrite fragmentFound_result. unfold st_of; simpl.
    destruct (primary (attrs f)), st as [[|] ? ? ? ? ? ? ? ? ? ? ? ? ? ? ?];
      simpl; split; congruence.
  - unfold branch. destruct (wired st); [|split; reflexivity || auto].
    destruct (fragmentEmits_effect st id fe) as [-> _]. auto.
  - split; [|discriminate]. apply Hm.
    apply mild_branch; [|apply mild_quiet; [apply keeps_skip | apply heads_skip]].
    apply mild_upd_seq; [intros []; split; reflexivity | apply mild_finish].
  - split; [|discriminate]. apply Hm.
    apply mild_branch; [|apply mild_quiet; [apply keeps_skip | apply heads_skip]].
    apply mild_upd_seq; [intros []; split; reflexivity | apply mild_handleError].
  - split; intros; apply Hk; auto; keeps_all.
  - split; intros; apply Hk; auto; keeps_all.
Qed.

Lemma run_latch (evs : list event) (st : state) :
  shouldWriteHead st = false → shouldWriteHead (fst (run cfg st evs)) = false.
Proof.
  revert st. induction evs as [|ev evs IH]; intros st El; [exact El|].
  rewrite run_cons. simpl. apply IH. rewrite step_react. simpl.
  now apply react_latch.
Qed.

(** The listeners of [handlePrimaryFragment] stay with the fragment that
    got them. *)
Lemma run_armed (evs : list event) (st : state) (who : option nat) :
  armed_inv st who →
  ∃ who', armed_inv (fst (run cfg st evs)) who'
          ∧ (shouldWriteHead st = false → who' = who).
Proof.
  revert st who. induction evs as [|ev evs IH]; intros st who Ha.
  - exists who. auto.
  - rewrite run_cons. simpl. rewrite step_react. simpl.
    destruct (react_pays ev st who Ha) as (who1 & Ha1 & Hw1 & _).
    destruct (IH _ _ Ha1) as (who2 & Ha2 & Hw2).
    exists who2. split; [assumption|]. intros El.
    rewrite Hw2, Hw1; auto. now apply react_latch.
Qed.

Lemma claimant_heads_once_cons (st : state) (ev : event)
  (evs : list event) :
  claimant_heads_once cfg st (ev :: evs) →
  claimant_heads_once cfg (fst (step cfg st ev)) evs.
Proof.
  intros H pre f post -> Hc.
  apply (H (ev :: pre) f post); [reflexivity|].
  now rewrite run_cons.
Qed.

Lemma run_heads (evs : list event) (st : state) (who : option nat) :
  armed_inv st who →
  claimant_heads_once cfg st evs →
  (count is_writeHead (snd (run cfg st evs)) ≤ heads_left st who evs)%nat.
Proof.
  revert st who. induction evs as [|ev evs IH]; intros st who Ha Hev.
  - simpl. rewrite count_nil. lia.
  - rewrite run_cons. simpl. rewrite step_react. simpl. rewrite count_app.
    destruct (react_pays ev st who Ha) as (who1 & Ha1 & _ & Hb).
    assert (count is_writeHead (out_of (react cfg ev st))
            + heads_left (st_of (react cfg ev st)) who1 evs
            ≤ heads_left st who (ev :: evs))%nat as Hb'.
    { apply Hb. intros f -> Hc. now apply (Hev [] f evs). }
    apply claimant_heads_once_cons in Hev. rewrite step_react in Hev.
    specialize (IH _ _ Ha1 Hev). lia.
Qed.

Lemma initial_armed (prior : Z) : armed_inv (initial prior) None.
Proof.
  split; [reflexivity|]. intros id. unfold listeners_of. simpl.
  rewrite lookup_empty. split; [reflexivity|].
  intros n. simpl. lia.
Qed.

Lemma request_run (prior : Z) (evs : list event) :
  request cfg prior evs
  = (fst (run cfg (initial prior) evs),
     Emit EStart :: snd (run cfg (initial prior) evs)).
Proof. unfold request. now destruct (run cfg (initial prior) evs). Qed.

Lemma templateRejected_step (prior : Z) (st : state) (t : list action)
  (err : error) :
  inv prior st t → templateP st = Pending →
  snd (step cfg st (TemplateRejected err))
  = [Emit (EError err); WriteHead (error_status err) baseline;
     ResponseEnd (error_body err)]
  ∧ responseEnded (fst (step cfg st (TemplateRejected err))) = true.
Proof.
  intros [Hs Ht] Hp. destruct (inv_pending _ _ Hs Hp) as [Hw El].
  destruct (inv_latch _ _ Hs El) as (Hh & Hrh & _).
  rewrite step_react. simpl. unfold branch. rewrite Hp. rewrite seq_upd.
  rewrite handleError_latched by (destruct st; assumption).
  simpl. replace (responseHeaders (set_templateP Rejected st))
    with (responseHeaders st) by (now destruct st).
  rewrite Hrh. split; [reflexivity | now destruct st].
Qed.

Lemma fragmentFound_arms (f : fragment) (st : state) :
  armed_inv st None → shouldWriteHead st = true →
  primary (attrs f) = true →
  armed_inv (st_of (fragmentFound f st)) (Some (fid f))
  ∧ shouldWriteHead (st_of (fragmentFound f st)) = false.
Proof.
  intros [A1 A2] El Hp. rewrite fragmentFound_result.
  unfold st_of; cbn [fst snd]; cbv zeta. rewrite Hp, El. simpl andb. cbv iota.
  set (st1 := add_listeners (fid f) _ st).
  assert (∀ id, prim (listeners_of st1 id) = []) as Hp1.
  { intros id. subst st1. rewrite listeners_of_add.
    destruct (decide _) as [<-|]; [rewrite prim_add_reemit|];
      apply A2; discriminate. }
  split; [|now destruct st].
  split; [destruct st; discriminate|]. intros id.
  rewrite listeners_of_add.
  replace (listeners_of (set_shouldWriteHead false st1))
    with (listeners_of st1) by (now destruct st1).
  destruct (decide (fid f = id)) as [<-|Hne].
  - split; [congruence|]. intros n. unfold prim_for, prim.
    rewrite filter_app. fold (prim (listeners_of st1 (fid f))).
    rewrite Hp1. destruct n; vm_compute; lia.
  - split; [intros _; apply Hp1|]. intros n. unfold prim_for.
    rewrite Hp1. simpl. lia.
Qed.

Lemma step_context (st : state) (e : error) :
  step cfg st (ContextRejected e)
  = (fst (step cfg st (ContextResolved ∅)),
     (match contextP st with
      | None => [Emit (EContextError e)]
      | Some _ => []
      end) ++ snd (step cfg st (ContextResolved ∅))).
Proof.
  rewrite !step_react. simpl. unfold branch.
  destruct (contextP st); [reflexivity|].
  rewrite seq_st, seq_out. reflexivity.
Qed.

(** The baseline values, under a filter that leaves them alone. *)
Section Plain.
Hypothesis Hkeep : keeps_baseline cfg.

Lemma plain_seq (p q : proc) :
  plain_heads p → plain_heads q → plain_heads (p ;; q).
Proof.
  intros Hp Hq st Hst. rewrite seq_st, seq_out.
  destruct (Hp st Hst) as [P1 P2]. destruct (ok_of (p st)).
  - destruct (Hq _ P1) as [Q1 Q2]. split; [assumption|].
    intros c hs Hin. apply elem_of_app in Hin as [Hin|Hin]; eauto.
  - split; [assumption|]. intros c hs Hin. rewrite app_nil_r in Hin. eauto.
Qed.

Lemma plain_skip : plain_heads skip.
Proof.
  intros st Hst. split; [assumption|]. intros c hs Hin.
  unfold skip, out_of in Hin; simpl in Hin. elems Hin.
Qed.

Lemma plain_act (a : action) : is_writeHead a = false → plain_heads (act a).
Proof.
  intros Ha st Hst. split; [assumption|]. intros c hs Hin.
  unfold act, out_of in Hin; simpl in Hin. elems Hin. subst a. discriminate.
Qed.

Lemma plain_upd (f : state → state) :
  (∀ st, plain (responseHeaders st) → plain (responseHeaders (f st))) →
  plain_heads (upd f).
Proof.
  intros H st Hst. split; [now apply H|]. intros c hs Hin.
  unfold upd, out_of in Hin; simpl in Hin. elems Hin.
Qed.

Lemma plain_branch (b : state → bool) (p q : proc) :
  plain_heads p → plain_heads q → plain_heads (branch b p q).
Proof. intros Hp Hq st. unfold branch. destruct (b st); auto. Qed.

Lemma plain_reading (k : state → proc) :
  (∀ s, plain_heads (k s)) → plain_heads (reading k).
Proof. intros H st. apply H. Qed.

Lemma plain_each {A : Type} (f : A → proc) (l : list A) :
  (∀ x, plain_heads (f x)) → plain_heads (each f l).
Proof.
  intros H. induction l as [|x l IH]; [apply plain_skip|].
  simpl. apply plain_seq; auto.
Qed.

Lemma plain_writeHead (c : Z) : plain_heads (writeHead c).
Proof.
  intros st Hst. unfold writeHead, st_of, out_of.
  destruct (headersSent st); simpl; (split; [now destruct st|]);
    intros c' hs Hin; elems Hin; now inversion Hin.
Qed.

Lemma baseline_key_other (k : string) :
  k ∈ baseline_keys → k ≠ "location" ∧ k ≠ "link".
Proof.
  intros Hk. unfold baseline_keys in Hk.
  elems Hk; subst k; split; discriminate.
Qed.

Lemma plain_assign_filtered (a : attributes) (hs rh : gmap string string) :
  plain rh → plain (assign_filtered cfg a hs rh).
Proof.
  intros Hrh k Hk. rewrite <- (Hrh k Hk). unfold assign_filtered.
  unfold keeps_baseline in Hkeep.
  destruct (filterResponseHeaders cfg) as [f|]; [|reflexivity].
  apply lookup_union_r. now apply Hkeep.
Qed.

Lemma plain_assign_location (hs rh : gmap string string) :
  plain rh → plain (assign_location hs rh).
Proof.
  intros Hrh k Hk. rewrite <- (Hrh k Hk). unfold assign_location.
  destruct (baseline_key_other k Hk) as [H1 H2].
  destruct (hs !! "location") as [l|]; [destruct (truthy l)|];
    rewrite ?lookup_insert_ne by congruence; reflexivity.
Qed.

Lemma plain_assign_link (hs rh : gmap string string) :
  plain rh → plain (assign_link cfg hs rh).
Proof.
  intros Hrh k Hk. rewrite <- (Hrh k Hk). unfold assign_link.
  destruct (baseline_key_other k Hk) as [H1 H2].
  destruct (truthy _);
    rewrite ?lookup_insert_ne by congruence; reflexivity.
Qed.

Ltac plain_all :=
  repeat first
    [ apply plain_writeHead
    | apply plain_seq
    | apply plain_skip
    | apply plain_act; reflexivity
    | apply plain_branch
    | apply plain_reading; intros ?
    | apply plain_each; intros ?
    | apply plain_upd; intros []; simpl; intros; assumption ].

Lemma plain_pipe : plain_heads pipe.
Proof. unfold pipe, meter_write, meter_end, response_finish. plain_all. Qed.

Lemma plain_invoke (ev : fragment_event) (l : listener) :
  plain_heads (invoke cfg ev l).
Proof.
  destruct l as [a|a| |]; simpl.
  - now apply plain_act.
  - destruct ev as [|sc hs| | | | |]; try apply plain_skip.
    unfold primaryResponse.
    apply plain_seq;
      [apply plain_upd; intros []; simpl; apply plain_assign_filtered|].
    apply plain_seq;
      [apply plain_upd; intros []; simpl; apply plain_assign_location|].
    apply plain_seq;
      [apply plain_upd; intros []; simpl; apply plain_assign_link|].
    apply plain_seq; [plain_all|].
    apply plain_seq; [apply plain_writeHead | apply plain_pipe].
  - destruct ev; try apply plain_skip. unfold primaryFallback.
    apply plain_seq; [plain_all|].
    apply plain_seq; [apply plain_writeHead | apply plain_pipe].
  - destruct ev; try apply plain_skip. unfold primaryError, response_end.
    plain_all.
Qed.

Lemma plain_react (ev : event) : plain_heads (react cfg ev).
Proof.
  destruct ev as [tpl|e|ctx|e|f|id fe| |e|chunk|]; simpl.
  - apply plain_branch; [|apply plain_skip].
    apply plain_seq; [plain_all|]. unfold settle. apply plain_reading.
    intros s. destruct (templateP s), (contextP s), (wired s);
      try apply plain_skip. unfold onResolved. plain_all.
  - apply plain_branch; [|apply plain_skip].
    apply plain_seq; [plain_all|].
    unfold handleError, response_end, meter_end, response_finish.
    destruct (presentable e); plain_all.
  - apply plain_branch; [|apply plain_skip].
    apply plain_seq; [plain_all|]. unfold settle. apply plain_reading.
    intros s. destruct (templateP s), (contextP s), (wired s);
      try apply plain_skip. unfold onResolved. plain_all.
  - apply plain_branch; [|apply plain_skip].
    apply plain_seq; [plain_all|].
    apply plain_seq; [plain_all|]. unfold settle. apply plain_reading.
    intros s. destruct (templateP s), (contextP s), (wired s);
      try apply plain_skip. unfold onResolved. plain_all.
  - apply plain_branch; [|apply plain_skip].
    unfold fragmentFound, handlePrimaryFragment, add_listeners.
    destruct (primary (attrs f)); plain_all.
  - apply plain_branch; [|apply plain_skip].
    unfold fragmentEmits. apply plain_reading. intros s.
    apply plain_seq; [plain_all|]. apply plain_each. intros x.
    apply plain_invoke.
  - apply plain_branch; [|apply plain_skip].
    apply plain_seq; [plain_all|]. unfold finish.
    apply plain_reading. intros s. apply plain_branch; [|apply plain_skip].
    apply plain_seq; [plain_all|]. apply plain_seq; [plain_all|].
    apply plain_seq; [apply plain_writeHead | apply plain_pipe].
  - apply plain_branch; [|apply plain_skip].
    apply plain_seq; [plain_all|].
    unfold handleError, response_end, meter_end, response_finish.
    destruct (presentable e); plain_all.
  - unfold meter_write. plain_all.
  - unfold meter_end, response_finish. plain_all.
Qed.

Lemma plain_run (evs : list event) (st : state) :
  plain (responseHeaders st) →
  ∀ c hs, WriteHead c hs ∈ snd (run cfg st evs) → plain hs.
Proof.
  revert st. induction evs as [|ev evs IH]; intros st Hst c hs Hin.
  - simpl in Hin. elems Hin.
  - rewrite run_cons in Hin. simpl in Hin. rewrite step_react in Hin.
    simpl in Hin. destruct (plain_react ev st Hst) as [P1 P2].
    apply elem_of_app in Hin as [Hin|Hin]; eauto.
Qed.

End Plain.

(** *** What the specification claims of the handler *)

(** C1, as far as the code goes.  In every request no body byte and no
    end of the response comes before the first call of [writeHead], and
    a response that has been ended had its head written at least once.
    The call is the only one in every request in which the fragment that
    claims the head (the primary fragment found while the latch is set)
    emits, after it was found, at most one of [response], [fallback] and
    [error], whatever the other fragments emit: then [writeHead] is
    called at most once, and exactly once when the response has been
    ended. *)
Theorem writeHead_once (prior : Z) (evs : list event) :
  head_first is_body (snd (request cfg prior evs)) = true
  ∧ head_first is_response_end (snd (request cfg prior evs)) = true
  ∧ (responseEnded (fst (request cfg prior evs)) = true →
     (1 ≤ count is_writeHead (snd (request cfg prior evs)))%nat)
  ∧ (claimant_heads_once cfg (initial prior) evs →
     (count is_writeHead (snd (request cfg prior evs)) ≤ 1)%nat
     ∧ (responseEnded (fst (request cfg prior evs)) = true →
        count is_writeHead (snd (request cfg prior evs)) = 1%nat)).
Proof.
  destruct (request_inv prior evs) as [Hs Ht].
  assert (responseEnded (fst (request cfg prior evs)) = true →
          (1 ≤ count is_writeHead (snd (request cfg prior evs)))%nat)
    as Hge.
  { intros He. exact (tr_sent _ _ Ht (inv_ended _ _ Hs He)). }
  split; [apply Ht|]. split; [apply Ht|]. split; [exact Hge|].
  intros Hev.
  assert (count is_writeHead (snd (request cfg prior evs)) ≤ 1)%nat as Hle.
  { rewrite request_run. simpl. rewrite count_cons. simpl.
    exact (run_heads evs _ None (initial_armed prior) Hev). }
  split; [exact Hle|]. intros He. specialize (Hge He). lia.
Qed.

(** C3, as the code has it.  In every state a request can reach: while
    the latch is set, [handleError] emits [error], writes 404 for
    [TEMPLATE_NOT_FOUND] and 500 otherwise with the baseline headers, and
    ends the response with the presentable string, or with no body when
    there is none; once the latch is cleared it emits [error] and ends the
    meter, without a call of [writeHead] and without touching the status.
    A rejected template and an [error] of the processor are handled so. *)
Theorem handleError_by_latch (prior : Z) (evs : list event) (err : error) :
  let st := fst (request cfg prior evs) in
  (shouldWriteHead st = true →
   handleError err st
   = (true,
      set_responseEnded
        (set_head (error_status err) (set_shouldWriteHead false st)),
      [Emit (EError err); WriteHead (error_status err) baseline;
       ResponseEnd (error_body err)]))
  ∧ (shouldWriteHead st = false →
     out_of (handleError err st)
     = Emit (EError err) :: MeterEnd :: out_of (meter_end st)
     ∧ count is_writeHead (out_of (handleError err st)) = 0%nat
     ∧ statusCode (st_of (handleError err st)) = statusCode st
     ∧ headersSent (st_of (handleError err st)) = headersSent st)
  ∧ error_status err = (if is_TEMPLATE_NOT_FOUND err then 404 else 500)
  ∧ error_body err
    = match presentable err with JString s => Some s | _ => None end
  ∧ (templateP st = Pending →
     snd (step cfg st (TemplateRejected err))
     = [Emit (EError err); WriteHead (error_status err) baseline;
        ResponseEnd (error_body err)])
  ∧ (wired st = true → errorL st = true →
     snd (step cfg st (StreamError err))
     = out_of (handleError err (set_errorL false st))
     ∧ shouldWriteHead (set_errorL false st) = shouldWriteHead st).
Proof.
  intros st. destruct (request_inv prior evs) as [Hs Ht]. fold st in Hs, Ht.
  split; [|split; [|split; [reflexivity|split; [reflexivity|split]]]].
  - intros El. destruct (inv_latch _ _ Hs El) as (Hh & Hrh & _).
    rewrite handleError_latched by assumption. now rewrite Hrh.
  - intros El. rewrite handleError_unlatched by assumption.
    pose proof (heads_meter_end st) as Hm.
    assert (statusCode (st_of (meter_end st)) = statusCode st
            ∧ headersSent (st_of (meter_end st)) = headersSent st) as Hsc.
    { destruct (meterEnded st) eqn:Em.
      - rewrite meter_end_closed by assumption. auto.
      - rewrite meter_end_open by assumption.
        destruct (piped st && negb (responseEnded st)), st; auto. }
    destruct (meter_end st) as [[ok st'] o]. unfold out_of, st_of in *.
    simpl in *. split; [reflexivity|]. split; [|exact Hsc].
    rewrite !count_cons. simpl. lia.
  - intros Hp. exact (proj1 (templateRejected_step prior st _ err (conj Hs Ht) Hp)).
  - intros Hw He. rewrite step_react. simpl. unfold branch.
    rewrite Hw, He. simpl. rewrite seq_upd. split; [reflexivity|].
    now destruct st.
Qed.


(** C2, as the code has it.  The latch starts set and is never set again.
    It is cleared only when a primary fragment is found, when the
    processor finishes, or when an error reaches [handleError]; finding a
    primary fragment while the latch is set clears it at once, before the
    fragment has emitted anything.  The fragment found first is then the
    only one whose events call [writeHead]: an event of any other
    fragment calls it zero times, whichever responds first. *)
Theorem latch_claimed_when_primary_found (prior : Z) :
  shouldWriteHead (initial prior) = true
  ∧ (∀ st ev, shouldWriteHead st = true →
              shouldWriteHead (fst (step cfg st ev)) = false →
              clears_latch ev = true)
  ∧ (∀ st ev, shouldWriteHead st = false →
              shouldWriteHead (fst (step cfg st ev)) = false)
  ∧ (∀ st f, wired st = true → shouldWriteHead st = true →
             primary (attrs f) = true →
             shouldWriteHead (fst (step cfg st (FragmentFound f))) = false)
  ∧ (∀ pre f post id fe,
       wired (fst (run cfg (initial prior) pre)) = true →
       shouldWriteHead (fst (run cfg (initial prior) pre)) = true →
       primary (attrs f) = true →
       id ≠ fid f →
       count is_writeHead
         (snd (step cfg
                 (fst (run cfg (initial prior)
                         (pre ++ FragmentFound f :: post)))
                 (FragmentEmits id fe))) = 0%nat).
Proof.
  split; [reflexivity|]. split; [|split; [|split]].
  - intros st ev El El'. rewrite step_react in El'. simpl in El'.
    destruct (clears_latch ev) eqn:E; [reflexivity|].
    rewrite (proj2 (react_latch ev st) E) in El'. congruence.
  - intros st ev El. rewrite step_react. simpl. now apply react_latch.
  - intros st f Hw El Hp. rewrite step_react. simpl. unfold branch.
    rewrite Hw. rewrite fragmentFound_result. unfold st_of. simpl.
    rewrite Hp, El. now destruct st.
  - intros pre f post id fe Hw El Hp Hne.
    rewrite run_app, run_cons. simpl.
    set (st0 := fst (run cfg (initial prior) pre)) in *.
    destruct (run_armed pre _ None (initial_armed prior)) as (who0 & A0 & _).
    fold st0 in A0.
    assert (who0 = None) as -> by (destruct A0 as [A1 _]; auto).
    destruct (fragmentFound_arms f st0 A0 El Hp) as [A1 El1].
    assert (fst (step cfg st0 (FragmentFound f)) = st_of (fragmentFound f st0))
      as -> by (rewrite step_react; simpl; unfold branch; now rewrite Hw).
    destruct (run_armed post _ _ A1) as (who2 & A2 & Hw2).
    rewrite (Hw2 El1) in A2.
    set (st2 := fst (run cfg (st_of (fragmentFound f st0)) post)) in *.
    rewrite step_react. simpl. unfold branch.
    destruct (wired st2); [|reflexivity].
    destruct (fragmentEmits_effect st2 id fe) as [_ Hc].
    destruct A2 as [_ A2]. destruct (A2 id) as [B1 _].
    unfold prim_for in Hc. rewrite B1 in Hc by congruence. simpl in Hc.
    destruct (is_head_type fe); lia.
Qed.

Lemma response_head_location (a : attributes) (hs rh : gmap string string) :
  response_head cfg a hs rh !! "location"
  = match hs !! "location" with
    | Some l =>
        if truthy l then Some l
        else assign_filtered cfg a hs rh !! "location"
    | None => assign_filtered cfg a hs rh !! "location"
    end.
Proof.
  unfold response_head, assign_link, assign_location.
  destruct (truthy (preloadAssets cfg hs));
    rewrite ?lookup_insert_ne by discriminate;
    (destruct (hs !! "location") as [l|]; [destruct (truthy l)|]);
    rewrite ?lookup_insert_eq; reflexivity.
Qed.



End HandlerFacts.

(** ** The handler on sample requests *)

Section HandlerExamples.
Import Handler HandlerInv Samples.

(** The request [other_fails]: the fragment that claims the head emits
    [response] only, and the head is written once, although another
    fragment emits [response] and [error]. *)
Lemma writeHead_once_witness :
  claimant_heads_once cfg_plain (initial 0) other_fails
  ∧ (head_kinds 5 other_fails =? 2)%nat = true
  ∧ responseEnded (fst (request cfg_plain 0 other_fails)) = true
  ∧ count is_writeHead (snd (request cfg_plain 0 other_fails)) = 1%nat.
Proof.
  assert (claimant_heads_once cfg_plain (initial 0) other_fails) as H.
  { intros pre f post E Hc.
    repeat (destruct pre as [|? pre];
            [try discriminate E; injection E as <- <-
            |try discriminate E; injection E as <- E]);
      try discriminate Hc; vm_compute; lia. }
  split; [exact H|]. split; [reflexivity|].
  assert (responseEnded (fst (request cfg_plain 0 other_fails)) = true)
    as He by (vm_compute; reflexivity).
  split; [exact He|].
  exact (proj2 (proj2 (proj2 (proj2
           (writeHead_once cfg_plain 0 other_fails))) H) He).
Defined.

(** C1 fails when the primary fragment emits [error] after [response]:
    the head is written twice in a request that is completed. *)
Lemma writeHead_twice :
  count is_writeHead (snd (request cfg_plain 0 response_then_error)) = 2%nat
  ∧ claims_head
      (fst (request cfg_plain 0 [TemplateResolved []; ContextResolved ∅]))
      first_primary = true
  ∧ head_kinds 0 response_then_error = 2%nat
  ∧ responseEnded (fst (request cfg_plain 0 response_then_error)) = true
  ∧ head_values "location" (snd (request cfg_plain 0 response_then_error))
    = [(200, None); (500, None)].
Proof. vm_compute. repeat split. Qed.

(** C2 fails: the latch is cleared when the primary fragment is found,
    before any of the four events, and a second primary fragment that
    responds first does not write the head; the response of the first
    one does. *)
Lemma second_primary_ignored :
  shouldWriteHead (fst (request cfg_plain 0 primary_found)) = false
  ∧ count is_writeHead (snd (request cfg_plain 0 primary_found)) = 0%nat
  ∧ count is_writeHead (snd (request cfg_plain 0 second_responds)) = 0%nat
  ∧ head_values "location"
      (snd (request cfg_plain 0
              (second_responds ++ [FragmentEmits 0 (FResponse 301 ∅)])))
    = [(301, None)].
Proof. vm_compute. repeat split. Qed.

(** C3 fails: an error of the processor while the primary fragment has
    not responded comes before the head is written, and the handler
    answers it with no status; it only ends the meter. *)
Lemma error_before_head_not_answered :
  headersSent (fst (request cfg_plain 0 primary_found)) = false
  ∧ snd (step cfg_plain (fst (request cfg_plain 0 primary_found))
           (StreamError plain_error))
    = [Emit (EError plain_error); MeterEnd; Emit (EEnd 0)]
  ∧ headersSent
      (fst (request cfg_plain 0 (primary_found ++ [StreamError plain_error])))
    = false.
Proof. vm_compute. repeat split. Qed.



End HandlerExamples.

(** ** The client runtime *)

Section PipeFacts.
Import JsString Pipe.

Lemma finished_iff (st : state) :
  finished st = true ↔ initState st = [] ∧ parsed st = true.
Proof.
  unfold finished. rewrite andb_true_iff, Z.eqb_eq. split.
  - intros [Hl Hp]. split; [|exact Hp].
    destruct (initState st); [reflexivity|]. simpl in Hl. lia.
  - intros [-> Hp]. split; [reflexivity | exact Hp].
Qed.

Lemma parsed_iff (st : state) :
  parsed st = true
  ↔ readyState st = "complete" ∨ readyState st = "interactive".
Proof.
  unfold parsed. rewrite andb_true_iff, orb_true_iff, !String.eqb_eq.
  split; [tauto|]. intros H. split; [|exact H].
  unfold truthy. destruct H as [-> | ->]; reflexivity.
Qed.

Lemma fireDone_onDone (st : state) :
  existsb is_onDone (fireDone st) = finished st.
Proof. unfold fireDone. now destruct (finished st). Qed.

Lemma handlerFn_onDone (attributes : string) (index : Z) (st : state) :
  existsb is_onDone (snd (handlerFn attributes index st))
  = finished (fst (handlerFn attributes index st)).
Proof. unfold handlerFn. simpl. apply fireDone_onDone. Qed.

Lemma doInit_onDone (result : init_result) (node : option nat)
  (attributes : string) (index : Z) (st : state) :
  existsb is_onDone (snd (doInit result node attributes index st)) = true →
  finished (fst (doInit result node attributes index st)) = true.
Proof.
  unfold doInit. destruct result as [| |[|]]; simpl; try discriminate;
    rewrite fireDone_onDone; auto.
Qed.

Lemma loaded_onDone (m : module_value) (w : waiting) (st : state) :
  existsb is_onDone (snd (loaded m w st)) = true →
  finished (fst (loaded m w st)) = true.
Proof.
  destruct m as [|result]; simpl.
  - rewrite fireDone_onDone. auto.
  - apply doInit_onDone.
Qed.

(** Whatever happens, [onDone] is called only by a step that leaves
    nothing in [initState] and finds the document parsed. *)
Lemma step_onDone (st : state) (ev : event) :
  existsb is_onDone (snd (step st ev)) = true →
  finished (fst (step st ev)) = true.
Proof.
  destruct ev as [index|index script attributes|index script attributes node
                 |h cb|k m|k|s|el]; simpl; try discriminate.
  - unfold placeholder. destruct (currentScript (scripts st)). discriminate.
  - unfold start. destruct (currentScript (scripts st)).
    destruct script as [s|]; [destruct (truthy s)|]; discriminate.
  - unfold end_. destruct (currentScript (scripts st)) as [e scripts'].
    destruct (dom_end _ _ e scripts') as [[|] l'];
      (destruct script as [s|]; [destruct (truthy s)|]); discriminate.
  - destruct (loading st !! k); [apply loaded_onDone | discriminate].
  - destruct (rendering st !! k); [|discriminate].
    rewrite handlerFn_onDone. auto.
Qed.

Lemma run_onDone (evs : list event) (st0 st : state) (o : list call) :
  (st, o) ∈ run st0 evs →
  existsb is_onDone o = true →
  initState st = [] ∧ parsed st = true.
Proof.
  revert st0. induction evs as [|ev evs IH]; intros st0 Hin Ho; simpl in Hin.
  - now apply elem_of_nil in Hin.
  - destruct (step st0 ev) as [st1 o1] eqn:E.
    apply elem_of_cons in Hin as [Hin|Hin]; [|eauto].
    injection Hin as -> ->. apply finished_iff.
    pose proof (step_onDone st0 ev) as H. rewrite E in H. now apply H.
Qed.

(** C10.  [start] always records the current script for the index.  With
    a script it appends the index to [initState], calls [onStart] and asks
    the loader for the script; without one it changes nothing else:
    [initState], the hooks and whether the page counts as finished stay as
    they were, and nothing is called.  So a change of [initState] or a
    call shows that a script was given. *)
Theorem start_registers_with_script (st : state) (index : Z)
  (script : option string) (attributes : string) :
  let r := start index script attributes st in
  starts (fst r) !! index = Some (fst (currentScript (scripts st)))
  ∧ (∀ i, i ≠ index → starts (fst r) !! i = starts st !! i)
  ∧ scripts (fst r) = snd (currentScript (scripts st))
  ∧ hooks (fst r) = hooks st
  ∧ (∀ s, script = Some s → s ≠ "" →
       initState (fst r) = initState st ++ [index]
       ∧ snd r = [HookCall onStart (hooks st onStart)
                    (Some (attributes, index));
                  Require s false])
  ∧ (script = None ∨ script = Some "" →
       initState (fst r) = initState st
       ∧ snd r = []
       ∧ finished (fst r) = finished st)
  ∧ (initState (fst r) ≠ initState st ∨ snd r ≠ [] →
     ∃ s, script = Some s ∧ s ≠ "").
Proof.
  intros r. subst r. unfold start.
  destruct (currentScript (scripts st)) as [el scripts'] eqn:Ec.
  assert (∀ s, truthy s = true ↔ s ≠ "") as Ht
    by (intros s; unfold truthy; rewrite negb_true_iff; apply String.eqb_neq).
  destruct script as [s|]; [destruct (truthy s) eqn:E|]; simpl;
    (split; [apply lookup_insert_eq|]);
    (split; [intros i Hi; now apply lookup_insert_ne|]);
    (split; [reflexivity|]); (split; [reflexivity|]).
  - split; [|split].
    + intros s' [= <-] _. split; reflexivity.
    + intros [H|[= ->]]; [discriminate|]. discriminate.
    + intros _. exists s. split; [reflexivity|]. now apply Ht.
  - assert (s = "") as ->.
    { destruct (String.eqb_spec s "") as [e|n]; [exact e|].
      apply Ht in n. congruence. }
    split; [|split].
    + intros s' [= <-] Hne. congruence.
    + intros _. repeat split.
    + intros [H|H]; congruence.
  - split; [|split].
    + intros s' H. discriminate.
    + intros _. repeat split.
    + intros [H|H]; congruence.
Qed.

End PipeFacts.

(** ** The runtime on sample pages *)

Section PipeExamples.
Import Pipe Pages.

Example parsed_first_calls :
  calls parsed_first
  = [HookCall onStart 0 (Some ("{}", 0)); Require "a.js" false;
     Require "a.js" true;
     HookCall onBeforeInit 0 (Some ("{}", 0)); Init (Some 7%nat);
     HookCall onAfterInit 0 (Some ("{}", 0)); HookCall onDone 0 None].
Proof. reflexivity. Qed.

(** C9.  The runtime misses what it sets out to do (line 42: [onDone]
    is to be called once the document is parsed and no fragment is being
    streamed).  On the page [loaded_first] the only fragment is
    initialised while the document is still loading: [onDone] is not
    called then, and nothing calls it when the document is parsed,
    although from then on [initState] is empty, the document is parsed
    and nothing is pending.  On [parsed_first], the same page with the
    document parsed before the module is loaded, [onDone] is called. *)
Lemma onDone_missed_when_parsed_late :
  existsb is_onDone (calls loaded_first) = false
  ∧ initState (final loaded_first) = []
  ∧ parsed (final loaded_first) = true
  ∧ loading (final loaded_first) = []
  ∧ rendering (final loaded_first) = []
  ∧ existsb is_onDone (calls parsed_first) = true.
Proof. vm_compute. repeat split. Qed.

End PipeExamples.


(** * Further properties *)

(** ** Preload hints and the index generator *)

Section PreloadMore.
Import JsString Preload IndexGen.

Lemma substring_skip (a b : string) (n : nat) :
  String.substring (String.length a) n (a +:+ b) = String.substring 0 n b.
Proof.
  induction a as [|c a IH]; [reflexivity|].
  change (String c a +:+ b) with (String c (a +:+ b)).
  exact IH.
Qed.

Lemma substring_prefix (a b : string) :
  String.substring 0 (String.length a) (a +:+ b) = a.
Proof.
  induction a as [|c a IH]; [now destruct b|].
  change (String c a +:+ b) with (String c (a +:+ b)).
  cbn [String.length String.substring]. now rewrite IH.
Qed.

Lemma occurs_inside (pre sub post : string) :
  occurs_at sub (pre +:+ sub +:+ post) (String.length pre).
Proof.
  unfold occurs_at. rewrite substring_skip. apply substring_prefix.
Qed.

(** X1.  An address in which [://host] occurs anywhere is taken to be on
    the host of the request, and gets no [crossorigin]: so does every
    address on that host, but also one on a host that merely begins with
    its name, or one that carries the text in its path or query.  Without
    a host header nothing is [crossorigin]. *)
Theorem getCrossOriginHeader_host_inside (pre h post : string) :
  getCrossOriginHeader (pre +:+ "://" +:+ h +:+ post) (Some h) = ""
  ∧ (∀ u, getCrossOriginHeader u None = "")
  ∧ (∀ u, getCrossOriginHeader u (Some "") = "").
Proof.
  split; [|split; reflexivity].
  unfold getCrossOriginHeader.
  destruct (indexOf (pre +:+ "://" +:+ h +:+ post) ("://" +:+ h) <? 0)%Z
    eqn:E; [|now rewrite andb_false_r].
  exfalso.
  assert ("://" +:+ h ≠ "") as Hne by discriminate.
  apply (proj1 (indexOf_negative_occurs _ _ Hne) E (String.length pre)).
  exact (occurs_inside pre ("://" +:+ h) post).
Qed.

Lemma scriptRefs_relevant (refs : list link_ref) :
  scriptRefs
    (filter (λ r, rel r = "stylesheet" ∨ rel r = "fragment-script") refs)
  = scriptRefs refs.
Proof.
  unfold scriptRefs. f_equal. rewrite list_filter_filter.
  apply list_filter_iff. intros r. tauto.
Qed.

Lemma styleRefs_relevant (refs : list link_ref) :
  styleRefs
    (filter (λ r, rel r = "stylesheet" ∨ rel r = "fragment-script") refs)
  = styleRefs refs.
Proof.
  unfold styleRefs. f_equal. rewrite list_filter_filter.
  apply list_filter_iff. intros r. tauto.
Qed.

Lemma scriptRefs_none (refs : list link_ref) :
  (∀ r, r ∈ refs → rel r ≠ "fragment-script") → scriptRefs refs = [].
Proof.
  intros H. unfold scriptRefs. induction refs as [|r refs IH]; [reflexivity|].
  rewrite filter_cons. destruct (decide _) as [e|n].
  - exfalso. apply (H r); [left | exact e].
  - apply IH. intros r' Hr'. apply H. now right.
Qed.

Lemma styleRefs_none (refs : list link_ref) :
  (∀ r, r ∈ refs → rel r ≠ "stylesheet") → styleRefs refs = [].
Proof.
  intros H. unfold styleRefs. induction refs as [|r refs IH]; [reflexivity|].
  rewrite filter_cons. destruct (decide _) as [e|n].
  - exfalso. apply (H r); [left | exact e].
  - apply IH. intros r' Hr'. apply H. now right.
Qed.

(** X2.  The entries of the [link] header with a relation other than
    [stylesheet] and [fragment-script] have no effect on the hints. *)
Theorem getAssetsToPreload_other_relations (refs : list link_ref)
  (host : option string) :
  getAssetsToPreload
    (filter (λ r, rel r = "stylesheet" ∨ rel r = "fragment-script") refs)
    host
  = getAssetsToPreload refs host.
Proof.
  unfold getAssetsToPreload.
  now rewrite scriptRefs_relevant, styleRefs_relevant.
Qed.

(** X3.  The hints do not depend on where the scripts stand among the
    styles in the [link] header: entries that are no styles can be moved
    behind entries that are no scripts. *)
Theorem getAssetsToPreload_styles_first (a b : list link_ref)
  (host : option string) :
  (∀ r, r ∈ a → rel r ≠ "stylesheet") →
  (∀ r, r ∈ b → rel r ≠ "fragment-script") →
  getAssetsToPreload (a ++ b) host = getAssetsToPreload (b ++ a) host.
Proof.
  intros Ha Hb. unfold getAssetsToPreload, scriptRefs, styleRefs.
  rewrite !filter_app, !map_app.
  fold (scriptRefs a) (scriptRefs b) (styleRefs a) (styleRefs b).
  rewrite (styleRefs_none a Ha), (scriptRefs_none b Hb).
  now rewrite !app_nil_r.
Qed.

Lemma getAssetsToPreload_styles_first_witness :
  getAssetsToPreload
    [LinkRef "fragment-script" "a.js"; LinkRef "stylesheet" "b.css"] None
  = getAssetsToPreload
      [LinkRef "stylesheet" "b.css"; LinkRef "fragment-script" "a.js"] None.
Proof.
  apply (getAssetsToPreload_styles_first
           [LinkRef "fragment-script" "a.js"]
           [LinkRef "stylesheet" "b.css"] None).
  - intros r Hr. apply list_elem_of_singleton in Hr. subst r. discriminate.
  - intros r Hr. apply list_elem_of_singleton in Hr. subst r. discriminate.
Defined.

(** X4.  For every initial index and every step, as long as the sums
    up to the one of call [k] are doubles, the call number [k] of the
    closure returns [initialIndex + k * step].  With a step of at least
    one, the ranges of [step] numbers that begin at the returned values
    do not overlap; with a step of zero every call returns the initial
    index.  Where the sums are no doubles the closure does not count:
    from [2^53] on, a step of one is rounded away and every call returns
    [2^53]. *)
Theorem nextIndexGenerator_ranges (initialIndex step : Z) (k : nat) :
  (∀ j, (1 ≤ j ≤ k)%nat → exact (initialIndex + Z.of_nat j * step)) →
  let g := nextIndexGenerator initialIndex step in
  fst (next (after k g)) = Int (initialIndex + Z.of_nat k * step)
  ∧ (1 <= step →
     ∀ j, (j < k)%nat →
       ∃ v, fst (next (after j g)) = Int v
            ∧ v + step <= initialIndex + Z.of_nat k * step)
  ∧ (step = 0 → fst (next (after k g)) = Int initialIndex)
  ∧ calls 3 (nextIndexGenerator (2 ^ 53) 1)
    = [Int (2 ^ 53); Int (2 ^ 53); Int (2 ^ 53)].
Proof.
  intros Hex g. subst g. unfold nextIndexGenerator.
  rewrite after_state by exact Hex. cbn [next fst index].
  split; [reflexivity|]. split; [|split].
  - intros Hs j Hj. exists (initialIndex + Z.of_nat j * step).
    rewrite after_state by (intros i Hi; apply Hex; lia).
    split; [reflexivity | nia].
  - intros ->. f_equal. lia.
  - vm_compute. reflexivity.
Qed.

Lemma nextIndexGenerator_ranges_witness :
  fst (next (after 2 (nextIndexGenerator 10 4))) = Int 18
  ∧ ∀ j, (j < 2)%nat →
      ∃ v, fst (next (after j (nextIndexGenerator 10 4))) = Int v
           ∧ v + 4 <= 18.
Proof.
  assert (∀ j, (1 ≤ j ≤ 2)%nat → exact (10 + Z.of_nat j * 4)) as H
    by (intros j Hj; apply exact_small; lia).
  split.
  - exact (proj1 (nextIndexGenerator_ranges 10 4 2 H)).
  - exact (proj1 (proj2 (nextIndexGenerator_ranges 10 4 2 H)) ltac:(lia)).
Defined.

End PreloadMore.

(** ** The client runtime: markers, hooks and the order of the calls *)

Section PipeMore.
Import JsString Pipe PipeRuns.

Lemma currentScript_none (l : list script_el) :
  fst (currentScript l) = None → marked l = [] ∧ snd (currentScript l) = l.
Proof.
  induction l as [|s l IH]; [split; reflexivity|]. simpl.
  destruct (currentScript l) as [[found|] rest']; [discriminate|].
  destruct (data_pipe s) eqn:E; [discriminate|]. intros _.
  destruct IH as [IH1 IH2]; [reflexivity|]. simpl in IH2.
  unfold marked in *. simpl. split; [exact IH1 | reflexivity].
Qed.

Lemma currentScript_some (l : list script_el) (found : nat) :
  fst (currentScript l) = Some found →
  ∃ l1 l2, l = l1 ++ Script found true :: l2 ∧ marked l2 = []
           ∧ snd (currentScript l) = l1 ++ Script found false :: l2.
Proof.
  induction l as [|s l IH]; [discriminate|]. simpl.
  destruct (currentScript l) as [[f|] rest'] eqn:Ec; simpl.
  - intros [= ->]. destruct IH as (l1 & l2 & -> & Hm & Hr); [reflexivity|].
    simpl in Hr. subst rest'. exists (s :: l1), l2. repeat split; assumption.
  - destruct (data_pipe s) eqn:E; [|discriminate]. simpl. intros [= <-].
    exists [], l. destruct s as [i d]. simpl in *. subst d.
    split; [reflexivity|]. split; [|reflexivity].
    apply (currentScript_none l). now rewrite Ec.
Qed.

Lemma marked_app (l1 l2 : list script_el) :
  marked (l1 ++ l2) = marked l1 ++ marked l2.
Proof. apply List.filter_app. Qed.

(** [currentScript] pops the last of the scripts that carry
    [data-pipe]. *)
Lemma currentScript_pops (l : list script_el) :
  fst (currentScript l) = last (map sid (marked l))
  ∧ marked (snd (currentScript l)) = removelast (marked l)
  ∧ (marked l = [] → fst (currentScript l) = None).
Proof.
  destruct (fst (currentScript l)) as [found|] eqn:E.
  - destruct (currentScript_some l found E) as (l1 & l2 & Hl & Hm & Hr).
    rewrite Hr. rewrite Hl at 1 2 3.
    rewrite !marked_app. cbn [marked List.filter data_pipe].
    fold (marked l2). rewrite Hm, app_nil_r.
    split; [|split].
    + rewrite map_app. simpl. now rewrite last_snoc.
    + now rewrite removelast_last.
    + intros H. now destruct (marked l1).
  - destruct (currentScript_none l E) as [Hm Hr]. rewrite Hr, Hm.
    repeat split.
Qed.

(** X5.  [currentScript] takes the last script that carries [data-pipe]
    and removes the attribute from it, and from it alone: the scripts
    that carry the attribute afterwards are the earlier ones, the
    document keeps its scripts, and [undefined] is returned exactly when
    no script carries the attribute, the document being left as it is. *)
Theorem currentScript_takes_last (l : list script_el) :
  let r := currentScript l in
  fst r = last (map sid (marked l))
  ∧ marked (snd r) = removelast (marked l)
  ∧ map sid (snd r) = map sid l
  ∧ (fst r = None ↔ marked l = [])
  ∧ (fst r = None → snd r = l)
  ∧ (∀ found, fst r = Some found →
       ∃ l1 l2, l = l1 ++ Script found true :: l2 ∧ marked l2 = []
                ∧ snd r = l1 ++ Script found false :: l2).
Proof.
  intros r. subst r.
  destruct (fst (currentScript l)) as [found|] eqn:E.
  - destruct (currentScript_some l found E) as (l1 & l2 & Hl & Hm & Hr).
    rewrite Hr. rewrite Hl at 1 2 3 4.
    rewrite !marked_app. cbn [marked List.filter data_pipe].
    fold (marked l2). rewrite Hm, app_nil_r.
    split; [|split; [|split; [|split; [|split]]]].
    + rewrite map_app. simpl. now rewrite last_snoc.
    + now rewrite removelast_last.
    + rewrite !map_app. reflexivity.
    + split; [discriminate|]. intros H. now destruct (marked l1).
    + discriminate.
    + intros f [= <-]. exists l1, l2. rewrite <- Hl. auto.
  - destruct (currentScript_none l E) as [Hm Hr]. rewrite Hr, Hm.
    split; [reflexivity|]. split; [reflexivity|]. split; [reflexivity|].
    split; [tauto|]. split; [reflexivity | discriminate].
Qed.

Lemma currentScript_parsed (l : list script_el) (n : nat) :
  fst (currentScript (l ++ [Script n true])) = Some n
  ∧ marked (snd (currentScript (l ++ [Script n true]))) = marked l.
Proof.
  destruct (currentScript_pops (l ++ [Script n true])) as (H1 & H2 & _).
  rewrite H1, H2, marked_app. cbn [marked List.filter data_pipe].
  split; [|now rewrite removelast_last].
  rewrite map_app. simpl. now rewrite last_snoc.
Qed.

(** X6.  A marker call made right after its script was parsed records
    that script, whatever else the document holds: [placeholder] and
    [start] store it under the index, and the scripts that carried
    [data-pipe] before are left for the calls they belong to. *)
Theorem marker_call_records_parsed_script (st : state) (n : nat)
  (index : Z) (script : option string) (attributes : string) :
  let st1 := fst (step st (ScriptParsed (Script n true))) in
  let p := step st1 (CallPlaceholder index) in
  let s := step st1 (CallStart index script attributes) in
  placeholders (fst p) !! index = Some (Some n)
  ∧ starts (fst s) !! index = Some (Some n)
  ∧ marked (scripts (fst p)) = marked (scripts st)
  ∧ marked (scripts (fst s)) = marked (scripts st)
  ∧ snd p = []
  ∧ starts (fst p) = starts st
  ∧ placeholders (fst s) = placeholders st.
Proof.
  cbv zeta. cbn [step fst scripts]. unfold placeholder, start.
  cbn [scripts placeholders starts].
  destruct (currentScript_parsed (scripts st) n) as [H1 H2].
  destruct (currentScript (scripts st ++ [Script n true])) as [el rest].
  simpl in H1, H2. subst el.
  destruct script as [x|]; [destruct (truthy x)|]; simpl;
    rewrite !lookup_insert_eq; auto 10.
Qed.

Lemma final_of_cons (st : state) (ev : event) (evs : list event) :
  final_of st (ev :: evs) = final_of (fst (step st ev)) evs.
Proof.
  unfold final_of. simpl. destruct (step st ev) as [st1 o]. simpl.
  rewrite last_cons. now destruct (last (map fst (run st1 evs))).
Qed.

Lemma calls_of_cons (st : state) (ev : event) (evs : list event) :
  calls_of st (ev :: evs)
  = snd (step st ev) ++ calls_of (fst (step st ev)) evs.
Proof.
  unfold calls_of. simpl. now destruct (step st ev) as [st1 o].
Qed.

Lemma final_of_snoc (st : state) (evs : list event) (ev : event) :
  final_of st (evs ++ [ev]) = fst (step (final_of st evs) ev).
Proof.
  revert st. induction evs as [|e evs IH]; intros st.
  - simpl. now rewrite final_of_cons.
  - rewrite <- app_comm_cons, !final_of_cons. apply IH.
Qed.

(** What a step does to the hooks. *)
Lemma step_hooks (st : state) (ev : event) (h : hook) :
  hooks (fst (step st ev)) h
  = match ev with
    | CallAssignHook h' cb => if hook_eqb h' h then cb else hooks st h
    | _ => hooks st h
    end.
Proof.
  destruct ev as [index|index script attributes|index script attributes node
                 |h' cb|k m|k|s|el]; simpl; try reflexivity.
  - unfold placeholder. now destruct (currentScript (scripts st)).
  - unfold start. destruct (currentScript (scripts st)).
    destruct script as [s|]; [destruct (truthy s)|]; reflexivity.
  - unfold end_. destruct (currentScript (scripts st)) as [e scripts'].
    now destruct (dom_end _ _ e scripts') as [[|] l'].
  - destruct (loading st !! k) as [w|]; [|reflexivity].
    destruct m as [|[| |[|]]]; reflexivity.
  - now destruct (rendering st !! k).
Qed.

Lemma final_hooks (evs : list event) (st : state) (h : hook) :
  hooks (final_of st evs) h = installed h evs (hooks st h).
Proof.
  revert st. induction evs as [|ev evs IH]; intros st; [reflexivity|].
  rewrite final_of_cons, IH, step_hooks. unfold installed. simpl.
  now destruct ev.
Qed.

Lemma fireDone_current (st st' : state) :
  hooks st' = hooks st → Forall (to_current st) (fireDone st').
Proof.
  intros H. unfold fireDone. destruct (finished st'); [|constructor].
  constructor; [simpl; now rewrite H | constructor].
Qed.

Lemma step_current (st : state) (ev : event) :
  Forall (to_current st) (snd (step st ev)).
Proof.
  destruct ev as [index|index script attributes|index script attributes node
                 |h' cb|k m|k|s|el]; simpl; try constructor.
  - unfold placeholder. destruct (currentScript (scripts st)). constructor.
  - unfold start. destruct (currentScript (scripts st)).
    destruct script as [s|]; [destruct (truthy s)|]; simpl;
      repeat constructor.
  - unfold end_. destruct (currentScript (scripts st)) as [e scripts'].
    destruct (dom_end _ _ e scripts') as [[|] l'];
      (destruct script as [s|]; [destruct (truthy s)|]); simpl;
      repeat constructor.
  - destruct (loading st !! k) as [w|]; [|constructor].
    destruct m as [|[| |[|]]]; simpl; repeat (constructor; [reflexivity|]);
      try constructor; try (apply fireDone_current; reflexivity).
  - destruct (rendering st !! k) as [w|]; [|constructor]. simpl.
    constructor; [reflexivity|]. apply fireDone_current; reflexivity.
Qed.

(** X7.  A hook is always called through the callback that was assigned
    to it last: in every run, each hook call of a step goes to the
    callback that the calls of [assignHook] before that step left
    installed ([noop] when there was none).  Assigning a hook calls
    nothing and changes no other hook. *)
Theorem hooks_called_as_assigned (st : state) (pre : list event)
  (ev : event) :
  Forall
    (λ c, match c with
          | HookCall h cb _ => cb = installed h pre (hooks st h)
          | _ => True
          end)
    (snd (step (final_of st pre) ev))
  ∧ (∀ h cb,
       snd (step st (CallAssignHook h cb)) = []
       ∧ hooks (fst (step st (CallAssignHook h cb))) h = cb
       ∧ ∀ h', h' ≠ h →
           hooks (fst (step st (CallAssignHook h cb))) h' = hooks st h').
Proof.
  split.
  - eapply Forall_impl; [apply step_current|].
    intros [h cb args| |]; simpl; auto.
    intros ->. apply final_hooks.
  - intros h cb. simpl. split; [reflexivity|].
    split; [now destruct h|].
    intros h' Hne. destruct h, h'; simpl; congruence.
Qed.

Lemma number_app (p : call → bool) (a b : list call) :
  number p (a ++ b) = (number p a + number p b)%nat.
Proof. unfold number. now rewrite List.filter_app, length_app. Qed.

Lemma number_fireDone (p : call → bool) (st : state) :
  (∀ cb, p (HookCall onDone cb None) = false) →
  number p (fireDone st) = 0%nat.
Proof.
  intros H. unfold fireDone, number. destruct (finished st); [|reflexivity].
  simpl. now rewrite H.
Qed.

(** What one step adds to the counts. *)
Lemma step_counts (st : state) (ev : event) :
  let st' := fst (step st ev) in
  let o := snd (step st ev) in
  (number (is_hook onBeforeInit) o + length (loading st')
   = number is_callback_request o + length (loading st))%nat
  ∧ (number (is_hook onAfterInit) o + length (rendering st')
     ≤ number (is_hook onBeforeInit) o + length (rendering st))%nat
  ∧ (number is_init o ≤ number (is_hook onBeforeInit) o)%nat
  ∧ (length (initState st')
     ≤ length (initState st) + number (is_hook onStart) o)%nat
  ∧ (length (initState st) + number (is_hook onStart) o
     ≤ length (initState st') + number (is_hook onAfterInit) o)%nat.
Proof.
  assert (∀ s, number (is_hook onBeforeInit) (fireDone s) = 0%nat) as F1
    by (intros s; now apply number_fireDone).
  assert (∀ s, number (is_hook onAfterInit) (fireDone s) = 0%nat) as F2
    by (intros s; now apply number_fireDone).
  assert (∀ s, number (is_hook onStart) (fireDone s) = 0%nat) as F3
    by (intros s; now apply number_fireDone).
  assert (∀ s, number is_callback_request (fireDone s) = 0%nat) as F4
    by (intros s; now apply number_fireDone).
  assert (∀ s, number is_init (fireDone s) = 0%nat) as F5
    by (intros s; now apply number_fireDone).
  assert (∀ l : list Z, (length (removelast l) ≤ length l)%nat
                        ∧ (length l ≤ length (removelast l) + 1)%nat) as R.
  { intros l. destruct l as [|x l] using rev_ind; [simpl; lia|].
    rewrite removelast_last, length_app. simpl. lia. }
  unfold number in *.
  destruct ev as [index|index script attributes|index script attributes node
                 |h' cb|k m|k|s|el]; cbn [step].
  - unfold placeholder. destruct (currentScript (scripts st)). simpl. lia.
  - unfold start. destruct (currentScript (scripts st)).
    destruct script as [s|]; [destruct (truthy s)|]; simpl;
      rewrite ?length_app; simpl; lia.
  - unfold end_, given. destruct (currentScript (scripts st)) as [e scripts'].
    destruct (dom_end _ _ e scripts') as [[|] l'];
      (destruct script as [s|]; [destruct (truthy s)|]); simpl;
      rewrite ?length_app; simpl; lia.
  - simpl. lia.
  - destruct (loading st !! k) as [w|] eqn:E; [|simpl; lia].
    assert (length (delete k (loading st)) + 1 = length (loading st))%nat
      as D.
    { rewrite length_delete by (rewrite E; eauto).
      apply lookup_lt_Some in E. lia. }
    destruct (R (initState st)) as [R1 R2].
    destruct m as [|[| |[|]]]; simpl;
      rewrite ?length_app, ?F1, ?F2, ?F3, ?F4, ?F5; simpl; lia.
  - destruct (rendering st !! k) as [w|] eqn:E; [|simpl; lia].
    assert (length (delete k (rendering st)) + 1 = length (rendering st))%nat
      as D.
    { rewrite length_delete by (rewrite E; eauto).
      apply lookup_lt_Some in E. lia. }
    destruct (R (initState st)) as [R1 R2].
    unfold handlerFn. simpl.
    rewrite ?F1, ?F2, ?F3, ?F4, ?F5. simpl. lia.
  - simpl. lia.
  - simpl. lia.
Qed.

(** X8.  In every run of the runtime, from any state: the before-hook is
    called once for each callback of the loader that has run, so the
    calls of [onBeforeInit] and the callbacks still waiting add up to the
    callbacks asked for; [onAfterInit] is called at most once for each
    call of [onBeforeInit], the promises still pending being counted;
    the initialisation function is called at most once for each call of
    [onBeforeInit]; and [initState] holds at most one index for each call
    of [onStart] and loses at most one for each call of [onAfterInit]. *)
Theorem hook_calls_balance (st : state) (evs : list event) :
  let cs := calls_of st evs in
  let fin := final_of st evs in
  (number (is_hook onBeforeInit) cs + length (loading fin)
   = number is_callback_request cs + length (loading st))%nat
  ∧ (number (is_hook onAfterInit) cs + length (rendering fin)
     ≤ number (is_hook onBeforeInit) cs + length (rendering st))%nat
  ∧ (number is_init cs ≤ number (is_hook onBeforeInit) cs)%nat
  ∧ (length (initState fin)
     ≤ length (initState st) + number (is_hook onStart) cs)%nat
  ∧ (length (initState st) + number (is_hook onStart) cs
     ≤ length (initState fin) + number (is_hook onAfterInit) cs)%nat.
Proof.
  revert st. induction evs as [|ev evs IH]; intros st.
  - unfold calls_of, final_of, number. simpl. lia.
  - cbv zeta. rewrite calls_of_cons, final_of_cons, !number_app.
    specialize (IH (fst (step st ev))). cbv zeta in IH.
    pose proof (step_counts st ev) as S. cbv zeta in S. lia.
Qed.

Lemma calls_balance (st : state) (evs : list event) :
  (number (is_hook onBeforeInit) (calls_of st evs)
   + length (loading (final_of st evs))
   = number is_callback_request (calls_of st evs) + length (loading st))%nat
  ∧ (number (is_hook onAfterInit) (calls_of st evs)
     + length (rendering (final_of st evs))
     ≤ number (is_hook onBeforeInit) (calls_of st evs)
       + length (rendering st))%nat
  ∧ (length (initState st) + number (is_hook onStart) (calls_of st evs)
     ≤ length (initState (final_of st evs))
       + number (is_hook onAfterInit) (calls_of st evs))%nat.
Proof.
  revert st. induction evs as [|ev evs IH]; intros st.
  - unfold calls_of, final_of, number. simpl. lia.
  - rewrite calls_of_cons, final_of_cons, !number_app.
    specialize (IH (fst (step st ev))).
    pose proof (step_counts st ev) as S. cbv zeta in S. lia.
Qed.

(** Only [start] with a script calls [onStart], and only [end] with a
    script asks the loader for a callback. *)
Lemma step_asks (st : state) (ev : event) :
  number (is_hook onStart) (snd (step st ev))
  = (if is_start_with_script ev then 1 else 0)%nat
  ∧ (number is_callback_request (snd (step st ev))
     ≤ if is_end_with_script ev then 1 else 0)%nat.
Proof.
  assert (∀ s, number (is_hook onStart) (fireDone s) = 0%nat) as F1
    by (intros s; now apply number_fireDone).
  assert (∀ s, number is_callback_request (fireDone s) = 0%nat) as F2
    by (intros s; now apply number_fireDone).
  unfold number in *.
  destruct ev as [index|index script attributes|index script attributes node
                 |h' cb|k m|k|s|el]; cbn [step is_start_with_script
                                            is_end_with_script].
  - unfold placeholder. destruct (currentScript (scripts st)). simpl. lia.
  - unfold start, given. destruct (currentScript (scripts st)).
    destruct script as [s|]; [destruct (truthy s)|]; simpl; lia.
  - unfold end_, given. destruct (currentScript (scripts st)) as [e scripts'].
    destruct (dom_end _ _ e scripts') as [[|] l'];
      (destruct script as [s|]; [destruct (truthy s)|]); simpl; lia.
  - simpl. lia.
  - destruct (loading st !! k) as [w|]; [|simpl; lia].
    destruct m as [|[| |[|]]]; simpl;
      rewrite ?length_app, ?F1, ?F2; simpl; lia.
  - destruct (rendering st !! k) as [w|]; [|simpl; lia].
    unfold handlerFn. simpl. rewrite ?F1, ?F2. simpl. lia.
  - simpl. lia.
  - simpl. lia.
Qed.

Lemma run_asks (st : state) (evs : list event) :
  number (is_hook onStart) (calls_of st evs) = starts_with_script evs
  ∧ (number is_callback_request (calls_of st evs)
     ≤ ends_with_script evs)%nat.
Proof.
  revert st. induction evs as [|ev evs IH]; intros st; [split; reflexivity|].
  rewrite calls_of_cons, !number_app.
  destruct (IH (fst (step st ev))) as [I1 I2].
  destruct (step_asks st ev) as [S1 S2].
  unfold starts_with_script, ends_with_script in *. simpl.
  destruct (is_start_with_script ev), (is_end_with_script ev); simpl; lia.
Qed.

Lemma calls_of_snoc (st : state) (evs : list event) (ev : event) :
  calls_of st (evs ++ [ev])
  = calls_of st evs ++ snd (step (final_of st evs) ev).
Proof.
  revert st. induction evs as [|e evs IH]; intros st.
  - simpl. rewrite calls_of_cons. unfold calls_of, final_of. simpl.
    now rewrite app_nil_r.
  - rewrite <- app_comm_cons, !calls_of_cons, final_of_cons, IH.
    now rewrite app_assoc.
Qed.

(** X18.  [onDone] is called only when nothing is pending.  [fireDone]
    calls it exactly when [initState] is empty and the document is
    parsed, and a step of the runtime that calls it leaves [initState]
    empty with the document parsed.  On a page that, up to that step,
    called [end] with a script at most as often as [start] with a
    script, no callback of the loader is waiting then and no promise of
    an initialisation is pending. *)
Theorem onDone_with_nothing_pending :
  (∀ st, existsb is_onDone (fireDone st) = true
         ↔ initState st = [] ∧ parsed st = true)
  ∧ (∀ st ev,
       existsb is_onDone (snd (step st ev)) = true →
       initState (fst (step st ev)) = []
       ∧ parsed (fst (step st ev)) = true)
  ∧ (∀ doc ready pre ev,
       (ends_with_script (pre ++ [ev])
        ≤ starts_with_script (pre ++ [ev]))%nat →
       existsb is_onDone
         (snd (step (final_of (initial doc ready) pre) ev)) = true →
       loading (fst (step (final_of (initial doc ready) pre) ev)) = []
       ∧ rendering (fst (step (final_of (initial doc ready) pre) ev))
         = []).
Proof.
  split; [|split].
  - intros st. rewrite fireDone_onDone. apply finished_iff.
  - intros st ev H. now apply finished_iff, step_onDone.
  - intros doc ready pre ev Hbal Hdone.
    apply step_onDone, finished_iff in Hdone as [Hinit _].
    rewrite <- final_of_snoc in *.
    destruct (calls_balance (initial doc ready) (pre ++ [ev]))
      as (B1 & B2 & B3).
    destruct (run_asks (initial doc ready) (pre ++ [ev])) as [A1 A2].
    rewrite Hinit in B3. simpl in B1, B2, B3.
    split; apply length_zero_iff_nil; lia.
Qed.

Lemma attached_detach (x : nat) (l : list script_el) :
  attached x (detach x l) = false.
Proof.
  unfold attached, detach. induction l as [|s l IH]; [reflexivity|].
  simpl. destruct (Nat.eqb (sid s) x) eqn:E; simpl; [exact IH|].
  now rewrite E.
Qed.

Lemma attached_detach_other (x y : nat) (l : list script_el) :
  attached x l = false → attached x (detach y l) = false.
Proof.
  unfold attached, detach. induction l as [|s l IH]; [reflexivity|].
  simpl. intros H. apply orb_false_iff in H as [H1 H2].
  destruct (Nat.eqb (sid s) y); simpl; [auto|]. rewrite H1. auto.
Qed.

Lemma attached_sids (x : nat) (l l' : list script_el) :
  map sid l' = map sid l → attached x l' = attached x l.
Proof.
  unfold attached. revert l'. induction l as [|s l IH]; intros [|s' l'] H;
    try discriminate; [reflexivity|].
  simpl in *. injection H as H1 H2. rewrite H1. f_equal. auto.
Qed.

Lemma currentScript_sids (l : list script_el) :
  map sid (snd (currentScript l)) = map sid l.
Proof.
  destruct (fst (currentScript l)) as [found|] eqn:E.
  - destruct (currentScript_some l found E) as (l1 & l2 & Hl & _ & Hr).
    rewrite Hr, Hl. now rewrite !map_app.
  - destruct (currentScript_none l E) as [_ Hr]. now rewrite Hr.
Qed.

Lemma move_to_completed (p s : nat) (end_el : option nat)
  (l l1 : list script_el) :
  move_to p s end_el l = (true, l1) → attached p l1 = false.
Proof.
  unfold move_to. destruct (attached p l); [|discriminate].
  destruct end_el as [e|]; [|discriminate].
  destruct (upto e _) as [seg|]; [|discriminate].
  intros [= <-]. apply attached_detach.
Qed.

(** What lines 79-97 need to complete, and what they leave behind. *)
Lemma dom_end_completed (placeholder start end_el : option nat)
  (l l' : list script_el) :
  dom_end placeholder start end_el l = (true, l') →
  ∃ s e, start = Some s ∧ end_el = Some e
         ∧ attached s l' = false
         ∧ attached e l' = false
         ∧ (∀ p, placeholder = Some p → attached p l' = false).
Proof.
  unfold dom_end. destruct start as [s|]; [|discriminate].
  destruct (match placeholder with
            | Some p => move_to p s end_el l
            | None => (true, l)
            end) as [moved l1] eqn:Em.
  destruct (moved && attached s l1) eqn:Ea; [|discriminate].
  apply andb_true_iff in Ea as [-> _].
  destruct end_el as [e|]; [|discriminate].
  destruct (attached e (detach s l1)); [|discriminate].
  intros [= <-]. exists s, e. repeat split.
  - apply attached_detach_other, attached_detach.
  - apply attached_detach.
  - intros p ->.
    now apply attached_detach_other, attached_detach_other,
      (move_to_completed p s (Some e) l).
Qed.

Lemma dom_end_detached (placeholder start end_el : option nat)
  (l : list script_el) :
  (∃ s, start = Some s ∧ attached s l = false
        ∧ ∀ p, placeholder = Some p → attached p l = false) →
  dom_end placeholder start end_el l = (false, l).
Proof.
  intros (s & -> & Hs & Hp). unfold dom_end.
  destruct placeholder as [p|].
  - unfold move_to. now rewrite (Hp p eq_refl).
  - now rewrite Hs.
Qed.

(** X9.  [end] never touches [initState], the hooks, the recorded
    markers or the pending promises, and it calls at most the loader,
    once, with a callback, and only for a script that is given.  When the
    start marker of the index was never recorded, or was recorded as
    [undefined], or no script carries [data-pipe] any more, the call ends
    in an exception before the loader is asked; so it does, at line 96,
    when there is no placeholder and the start marker is no longer in
    the document, and at line 97, with the start marker already removed,
    when there is no end marker.  A call that asked the loader has
    removed its markers: a second call for the same index, with no new
    [start] in between, ends in an exception and asks nothing. *)
Theorem end_asks_loader_once (st : state) (index : Z)
  (script : option string) (attributes : string) (node : option nat) :
  let r := end_ index script attributes node st in
  initState (fst r) = initState st
  ∧ hooks (fst r) = hooks st
  ∧ placeholders (fst r) = placeholders st
  ∧ starts (fst r) = starts st
  ∧ rendering (fst r) = rendering st
  ∧ ((snd r = [] ∧ loading (fst r) = loading st)
     ∨ ∃ s, script = Some s ∧ s ≠ "" ∧ snd r = [Require s true]
            ∧ loading (fst r)
              = loading st ++ [Waiting index attributes node])
  ∧ (starts st !! index = None ∨ starts st !! index = Some None
     ∨ marked (scripts st) = [] →
     snd r = [] ∧ loading (fst r) = loading st)
  ∧ (∀ s, starts st !! index = Some (Some s) →
       default None (placeholders st !! index) = None →
       (attached s (scripts st) = false →
        snd r = [] ∧ loading (fst r) = loading st
        ∧ scripts (fst r) = snd (currentScript (scripts st)))
       ∧ (attached s (scripts st) = true → marked (scripts st) = [] →
          scripts (fst r) = detach s (scripts st)))
  ∧ (snd r ≠ [] →
     ∀ script' attributes' node',
       snd (end_ index script' attributes' node' (fst r)) = []
       ∧ loading (fst (end_ index script' attributes' node' (fst r)))
         = loading (fst r)).
Proof.
  intros r. subst r. unfold end_.
  destruct (currentScript_pops (scripts st)) as (_ & _ & Cn).
  pose proof (currentScript_sids (scripts st)) as Hsids.
  pose proof (currentScript_none (scripts st)) as Hnone.
  destruct (currentScript (scripts st)) as [e scripts'] eqn:Ec.
  cbn [fst snd] in Cn, Hsids, Hnone.
  destruct (dom_end _ _ e scripts') as [completed l'] eqn:Ed.
  cbn [fst snd initState hooks placeholders starts rendering loading
       scripts].
  repeat (split; [reflexivity|]).
  assert (completed = false →
          (if completed && given script
           then loading st ++ [Waiting index attributes node]
           else loading st) = loading st
          ∧ match script with
            | Some s => if completed && truthy s then [Require s true]
                        else []
            | None => []
            end = []) as Hthrown.
  { intros ->. split; [reflexivity|]. now destruct script. }
  split; [|split; [|split]].
  - destruct completed; [|left; now apply and_comm, Hthrown].
    destruct script as [s|]; [|left; split; reflexivity].
    simpl. destruct (truthy s) eqn:Et; [|left; split; reflexivity].
    right. exists s. split; [reflexivity|].
    split; [now apply truthy_spec | split; reflexivity].
  - intros H. apply and_comm, Hthrown.
    destruct completed; [|reflexivity]. exfalso.
    apply dom_end_completed in Ed as (s & e' & Hs & He & _).
    destruct H as [H|[H|H]].
    + rewrite H in Hs. discriminate.
    + rewrite H in Hs. discriminate.
    + rewrite (Cn H) in He. discriminate.
  - intros s Hs Hp. rewrite Hs, Hp in Ed. unfold dom_end in Ed.
    simpl in Ed.
    rewrite (attached_sids s _ _ Hsids) in Ed. split.
    + intros Ha. rewrite Ha in Ed. injection Ed as <- <-.
      destruct (Hthrown eq_refl) as [H1 H2]. auto.
    + intros Ha Hm. rewrite Ha in Ed. rewrite (Cn Hm) in Ed.
      injection Ed as <- <-.
      destruct (Hnone (Cn Hm)) as [_ ->]. reflexivity.
  - intros Hasked script' attributes' node'.
    destruct completed;
      [|exfalso; apply Hasked; now destruct (Hthrown eq_refl)].
    apply dom_end_completed in Ed as (s & e' & Hs & He & Ha & _ & Hpl).
    set (l2 := snd (currentScript l')).
    assert (dom_end (default None (placeholders st !! index))
              (default None (starts st !! index))
              (fst (currentScript l')) l2
            = (false, l2)) as Hd.
    { apply dom_end_detached. exists s. split; [exact Hs|]. split.
      - subst l2. rewrite (attached_sids s _ _ (currentScript_sids l')).
        exact Ha.
      - intros p Hp. subst l2.
        rewrite (attached_sids p _ _ (currentScript_sids l')). auto. }
    subst l2. destruct (currentScript l') as [e2 l2]. cbn [fst snd] in Hd.
    rewrite Hd. cbn [fst snd loading]. split; [now destruct script'|].
    reflexivity.
Qed.

End PipeMore.

(** ** Performance entries *)

Section PerfMore.
Import Perf.

Variables (num value : Type).
Variable Number : value → option num.
Variable truthy_num : num → bool.
Variable minus : num → num → num.

Lemma addPerfEntry_cases (perf : option (performance num)) (date_now : num)
  (n d : value) (es : list (entry num value)) :
  (snd (addPerfEntry Number truthy_num minus perf date_now n d es) = es
   ∧ adds Number truthy_num (Report perf date_now n d) = false)
  ∨ (∃ dur t, addPerfEntry Number truthy_num minus perf date_now n d es
              = (Returned, es ++ [Entry n dur "tailor" t])
              ∧ Number d = Some dur
              ∧ adds Number truthy_num (Report perf date_now n d) = true).
Proof.
  unfold addPerfEntry, adds. simpl. destruct perf as [p|]; [|now left].
  destruct (has_key p "false"); [now left|].
  destruct (Number d) as [dur|]; [|now left].
  destruct (now p) as [t|]; [|now left].
  destruct (truthy_num t).
  - right. exists dur, t. auto.
  - destruct (navigationStart p) as [t0|]; [|now left].
    right. exists dur, (minus date_now t0). auto.
Qed.

Lemma snoc_differs {A : Type} (l : list A) (x : A) : l ++ [x] ≠ l.
Proof.
  intros E. apply (f_equal length) in E. rewrite length_app in E.
  simpl in E. lia.
Qed.

(** X10.  The test of line 175 does not look at the key [timing]: the
    negation applies to the string, so the key looked up is [false].  The
    call returns without adding an entry if and only if the object has
    the key [false]; so two [performance] objects that differ only in
    their other keys, [timing] among them, give the same result.  Where
    Navigation Timing is not supported (no key [timing], [perf.timing]
    undefined) and the object has no key [false], the call never returns
    without an entry, against the comment of line 174: it returns only
    when the duration converts and [perf.now()] is truthy, and then it
    has added the entry with that start time; otherwise it throws.  With
    a falsy [perf.now()] it throws whenever the duration converts, in
    line 182, and the entries stay as they are. *)
Theorem addPerfEntry_ignores_timing (p : performance num) (date_now : num)
  (n d : value) (es : list (entry num value)) :
  (addPerfEntry Number truthy_num minus (Some p) date_now n d es
   = (Returned, es)
   ↔ has_key p "false" = true)
  ∧ (∀ keys,
       keys "false" = has_key p "false" →
       addPerfEntry Number truthy_num minus
         (Some (Performance keys (now p) (navigationStart p)))
         date_now n d es
       = addPerfEntry Number truthy_num minus (Some p) date_now n d es)
  ∧ (has_key p "timing" = false → navigationStart p = None →
     has_key p "false" = false →
     (fst (addPerfEntry Number truthy_num minus (Some p) date_now n d es)
      = Returned
      ↔ ∃ dur t, Number d = Some dur ∧ now p = Some t
                 ∧ truthy_num t = true)
     ∧ (∀ dur t,
          Number d = Some dur → now p = Some t → truthy_num t = true →
          addPerfEntry Number truthy_num minus (Some p) date_now n d es
          = (Returned, es ++ [Entry n dur "tailor" t]))
     ∧ (∀ t,
          now p = Some t → truthy_num t = false →
          addPerfEntry Number truthy_num minus (Some p) date_now n d es
          = (Thrown, es)))
  ∧ (fst (addPerfEntry Number truthy_num minus (Some p) date_now n d es)
     = Thrown →
     snd (addPerfEntry Number truthy_num minus (Some p) date_now n d es)
     = es).
Proof.
  split; [|split; [|split]].
  - split.
    + intros E.
      destruct (addPerfEntry_cases (Some p) date_now n d es)
        as [[_ Hadds]|(dur & t & E' & _ & _)].
      * destruct (has_key p "false") eqn:Hk; [reflexivity|].
        unfold addPerfEntry in E. rewrite Hk in E.
        destruct (Number d) as [dur|]; [|discriminate].
        destruct (now p) as [t|]; [|discriminate].
        destruct (truthy_num t).
        -- injection E as E. now apply snoc_differs in E.
        -- destruct (navigationStart p); [|discriminate].
           injection E as E. now apply snoc_differs in E.
      * rewrite E' in E. injection E as E. now apply snoc_differs in E.
    + unfold addPerfEntry. now intros ->.
  - intros keys Hk. unfold addPerfEntry. simpl. now rewrite Hk.
  - intros _ Ht Hk. unfold addPerfEntry. rewrite Hk, Ht.
    split; [|split].
    + split.
      * destruct (Number d) as [dur|]; [|discriminate].
        destruct (now p) as [t|]; [|discriminate].
        destruct (truthy_num t) eqn:T; [|discriminate].
        intros _. now exists dur, t.
      * now intros (dur & t & -> & -> & ->).
    + now intros dur t -> -> ->.
    + intros t -> ->. now destruct (Number d).
  - unfold addPerfEntry. destruct (has_key p "false"); [discriminate|].
    destruct (Number d) as [dur|]; [|reflexivity].
    destruct (now p) as [t|]; [|reflexivity].
    destruct (truthy_num t); [discriminate|].
    now destruct (navigationStart p).
Qed.

Lemma reported_snoc (rs : list (report num value)) (r : report num value)
  (es : list (entry num value)) :
  reported Number truthy_num minus (rs ++ [r]) es
  = snd (addPerfEntry Number truthy_num minus (r_perf r) (r_date r)
           (r_name r) (r_duration r)
           (reported Number truthy_num minus rs es)).
Proof. unfold reported. now rewrite fold_left_app. Qed.

(** X11.  The entries only grow, at their end: after any calls of
    [addPerfEntry], [getEntries] returns the entries there were before,
    followed by one entry for each call that added one, in the order of
    the calls, each with the name it was called with and the entry type
    [tailor]. *)
Theorem getEntries_in_call_order (rs : list (report num value))
  (es : list (entry num value)) :
  ∃ new,
    getEntries (reported Number truthy_num minus rs es) = es ++ new
    ∧ map name new = map r_name (List.filter (adds Number truthy_num) rs)
    ∧ Forall (λ e, entryType e = "tailor") new.
Proof.
  unfold getEntries.
  induction rs as [|r rs IH] using rev_ind.
  - exists []. simpl. rewrite app_nil_r. auto.
  - destruct IH as (new & Hn & Hm & Ht). rewrite reported_snoc, Hn.
    destruct r as [perf date_now n d]. simpl.
    rewrite List.filter_app, map_app. simpl.
    destruct (addPerfEntry_cases perf date_now n d (es ++ new))
      as [[He Ha] | (dur & t & He & _ & Ha)]; rewrite Ha.
    + exists new. rewrite He. simpl. rewrite app_nil_r. auto.
    + exists (new ++ [Entry n dur "tailor" t]). rewrite He. simpl.
      split; [now rewrite app_assoc|]. split.
      * rewrite map_app, Hm. reflexivity.
      * apply Forall_app. split; [exact Ht|]. repeat constructor.
Qed.

End PerfMore.

Section PerfExamples.
Import Perf.

(** A browser without Navigation Timing: the object has the key [now]
    only, the clock returns 5.  The call adds the entry. *)
Lemma addPerfEntry_ignores_timing_witness :
  addPerfEntry (λ _ : string, Some 3%Z) (λ z, negb (z =? 0)%Z) Z.sub
    (Some (Performance (λ k, String.eqb k "now") (Some 5%Z) None))
    0%Z "a" "3" []
  = (Returned, [Entry "a" 3%Z "tailor" 5%Z]).
Proof.
  apply (proj1 (proj2 (proj1 (proj2 (proj2
           (addPerfEntry_ignores_timing Z string (λ _ : string, Some 3%Z)
              (λ z, negb (z =? 0)%Z) Z.sub
              (Performance (λ k, String.eqb k "now") (Some 5%Z) None)
              0%Z "a" "3" [])))
           eq_refl eq_refl eq_refl)) 3%Z 5%Z); reflexivity.
Defined.

End PerfExamples.

(** ** The request handler: the processor, the events and the head *)

Section HandlerMore.
Import JsString Handler HandlerInv HandlerTraces.
Local Open Scope proc_scope.

Variable cfg : config.

(** *** Parts of the state a procedure leaves alone *)

Lemma stays_seq {A : Type} (field : state → A) (p q : proc) :
  stays field p → stays field q → stays field (p ;; q).
Proof.
  intros Hp Hq st. rewrite seq_st.
  destruct (ok_of (p st)); [rewrite Hq|]; apply Hp.
Qed.

Lemma stays_skip {A : Type} (field : state → A) : stays field skip.
Proof. intros st. reflexivity. Qed.

Lemma stays_act {A : Type} (field : state → A) (a : action) :
  stays field (act a).
Proof. intros st. reflexivity. Qed.

Lemma stays_upd {A : Type} (field : state → A) (f : state → state) :
  (∀ st, field (f st) = field st) → stays field (upd f).
Proof. intros H st. apply H. Qed.

Lemma stays_branch {A : Type} (field : state → A) (b : state → bool)
  (p q : proc) :
  stays field p → stays field q → stays field (branch b p q).
Proof. intros Hp Hq st. unfold branch. destruct (b st); auto. Qed.

Lemma stays_reading {A : Type} (field : state → A) (k : state → proc) :
  (∀ s, stays field (k s)) → stays field (reading k).
Proof. intros H st. apply H. Qed.

Lemma stays_each {A B : Type} (field : state → A) (f : B → proc)
  (l : list B) :
  (∀ x, stays field (f x)) → stays field (each f l).
Proof.
  intros H. induction l as [|x l IH]; [apply stays_skip|].
  simpl. apply stays_seq; auto.
Qed.

Lemma stays_writeHead {A : Type} (field : state → A) (c : Z) :
  (∀ c st, field (set_head c st) = field st) → stays field (writeHead c).
Proof.
  intros H st. unfold writeHead, st_of.
  destruct (headersSent st); simpl; [reflexivity | apply H].
Qed.

Ltac unfold_procs :=
  unfold primaryResponse, primaryFallback, primaryError, handleError,
    finish, fragmentFound, handlePrimaryFragment, settle, onResolved, pipe,
    meter_end, meter_write, response_finish, response_end.

Ltac stays_tac :=
  repeat match goal with
    | |- stays _ (seq _ _) => apply stays_seq
    | |- stays _ skip => apply stays_skip
    | |- stays _ (act _) => apply stays_act
    | |- stays _ (branch _ _ _) => apply stays_branch
    | |- stays _ (reading _) => apply stays_reading; intros ?; cbv beta zeta
    | |- stays _ (each _ _) => apply stays_each; intros ?; cbv beta zeta
    | |- stays _ (upd _) => apply stays_upd; intros []; reflexivity
    | |- stays _ (writeHead _) =>
        apply stays_writeHead; intros ? []; reflexivity
    | |- stays _ (match ?x with _ => _ end) => destruct x
    end.

(** *** Calls a procedure does not make *)

Lemma quiet_seq (q : action → bool) (p r : proc) :
  quiet q p → quiet q r → quiet q (p ;; r).
Proof.
  intros Hp Hr st. rewrite seq_out, List.filter_app, Hp.
  destruct (ok_of (p st)); [apply Hr | reflexivity].
Qed.

Lemma quiet_skip (q : action → bool) : quiet q skip.
Proof. intros st. reflexivity. Qed.

Lemma quiet_act (q : action → bool) (a : action) :
  q a = false → quiet q (act a).
Proof. intros H st. unfold act, out_of. simpl. now rewrite H. Qed.

Lemma quiet_upd (q : action → bool) (f : state → state) : quiet q (upd f).
Proof. intros st. reflexivity. Qed.

Lemma quiet_branch (q : action → bool) (b : state → bool) (p r : proc) :
  quiet q p → quiet q r → quiet q (branch b p r).
Proof. intros Hp Hr st. unfold branch. destruct (b st); auto. Qed.

Lemma quiet_reading (q : action → bool) (k : state → proc) :
  (∀ s, quiet q (k s)) → quiet q (reading k).
Proof. intros H st. apply H. Qed.

Lemma quiet_each {B : Type} (q : action → bool) (f : B → proc)
  (l : list B) :
  (∀ x, quiet q (f x)) → quiet q (each f l).
Proof.
  intros H. induction l as [|x l IH]; [apply quiet_skip|].
  simpl. apply quiet_seq; auto.
Qed.

Lemma quiet_writeHead (q : action → bool) (c : Z) :
  (∀ c hs, q (WriteHead c hs) = false) → quiet q (writeHead c).
Proof.
  intros H st. unfold writeHead, out_of.
  destruct (headersSent st); simpl; now rewrite H.
Qed.

Ltac quiet_tac :=
  repeat match goal with
    | |- quiet _ (seq _ _) => apply quiet_seq
    | |- quiet _ skip => apply quiet_skip
    | |- quiet _ (upd _) => apply quiet_upd
    | |- quiet _ (act _) => apply quiet_act; reflexivity
    | |- quiet _ (branch _ _ _) => apply quiet_branch
    | |- quiet _ (reading _) => apply quiet_reading; intros ?; cbv beta zeta
    | |- quiet _ (each _ _) => apply quiet_each; intros ?; cbv beta zeta
    | |- quiet _ (writeHead _) =>
        apply quiet_writeHead; intros ? ?; reflexivity
    | |- quiet _ (match ?x with _ => _ end) => destruct x
    end.

(** *** The template processor *)

Lemma seq_act (a : action) (p : proc) (st : state) :
  st_of ((act a ;; p) st) = st_of (p st)
  ∧ out_of ((act a ;; p) st) = a :: out_of (p st).
Proof.
  unfold seq, act, st_of, out_of. destruct (p st) as [[ok st'] o].
  split; reflexivity.
Qed.

Lemma react_plain (ev : event) :
  settles ev = false →
  quiet is_input (react cfg ev)
  ∧ stays templateP (react cfg ev)
  ∧ stays contextP (react cfg ev)
  ∧ stays wired (react cfg ev).
Proof.
  destruct ev as [tpl|e|c|e|f|id fe|  |e|chunk| ]; try discriminate;
    intros _; cbn [react]; unfold fragmentEmits, invoke;
    unfold_procs; (split; [quiet_tac|]); (split; [stays_tac|]);
    (split; stays_tac).
Qed.

Lemma onResolved_result (tpl : list string) (ctx : gmap string string)
  (st : state) :
  onResolved cfg tpl ctx st = (true, set_wired st, input_calls cfg tpl ctx).
Proof.
  unfold onResolved, input_calls. unfold seq at 1. unfold act at 1.
  rewrite seq_upd. unfold seq. rewrite each_act. reflexivity.
Qed.

Lemma filter_input_calls (tpl : list string) (ctx : gmap string string) :
  List.filter is_input (input_calls cfg tpl ctx) = input_calls cfg tpl ctx.
Proof.
  unfold input_calls. simpl. f_equal. rewrite List.filter_app. simpl.
  f_equal. induction tpl as [|x tpl IH]; [reflexivity|].
  simpl. now rewrite IH.
Qed.

(** What [settle] does. *)
Lemma settle_result (st : state) :
  settle cfg st
  = match templateP st, contextP st, wired st with
    | Fulfilled tpl, Some ctx, false =>
        (true, set_wired st, input_calls cfg tpl ctx)
    | _, _, _ => (true, st, [])
    end.
Proof.
  unfold settle, reading.
  destruct (templateP st) as [|tpl|]; try reflexivity.
  destruct (contextP st) as [ctx|]; try reflexivity.
  destruct (wired st); [reflexivity | apply onResolved_result].
Qed.

Lemma settled_with_more (evs : list event) (ev : event)
  (ctx : gmap string string) :
  settled_with evs ctx → settled_with (evs ++ [ev]) ctx.
Proof.
  intros [H|[-> [e H]]]; [left | right; split; [reflexivity | exists e]];
    apply elem_of_app; now left.
Qed.

Lemma processed_same (evs : list event) (ev : event) (st st' : state)
  (t o : list action) :
  processed cfg evs st t →
  templateP st' = templateP st → contextP st' = contextP st →
  wired st' = wired st → List.filter is_input o = [] →
  processed cfg (evs ++ [ev]) st' (t ++ o).
Proof.
  unfold processed. intros (P1 & P2 & P3) E1 E2 E3 Ho.
  rewrite E1, E2, E3, List.filter_app, Ho, app_nil_r.
  split; [|split; [|exact P3]].
  - intros tpl H. apply elem_of_app. left. auto.
  - intros ctx H. apply settled_with_more. auto.
Qed.

Lemma processed_unwired (evs : list event) (st : state) (t : list action) :
  processed cfg evs st t →
  templateP st = Pending ∨ contextP st = None →
  wired st = false ∧ List.filter is_input t = [].
Proof.
  intros (_ & _ & P3) H. destruct (wired st); [|auto].
  destruct P3 as (x & y & Hx & Hy & _). destruct H; congruence.
Qed.

(** The promises settle: the state after [upd] and [settle]. *)
Lemma processed_settled (evs : list event) (ev : event) (st st1 : state)
  (t pre : list action) :
  processed cfg evs st t →
  wired st = false → List.filter is_input t = [] →
  wired st1 = false →
  List.filter is_input pre = [] →
  (∀ tpl, templateP st1 = Fulfilled tpl →
          templateP st = Fulfilled tpl ∨ ev = TemplateResolved tpl) →
  (∀ ctx, contextP st1 = Some ctx →
          contextP st = Some ctx ∨ ev = ContextResolved ctx
          ∨ (ctx = ∅ ∧ ∃ e, ev = ContextRejected e)) →
  processed cfg (evs ++ [ev]) (st_of (settle cfg st1))
    (t ++ pre ++ out_of (settle cfg st1)).
Proof.
  intros (P1 & P2 & _) Hw Ht Hw1 Hpre H1 H2.
  assert (∀ tpl, templateP st1 = Fulfilled tpl →
                 TemplateResolved tpl ∈ evs ++ [ev]) as Q1.
  { intros tpl H. apply elem_of_app. destruct (H1 tpl H) as [E| ->].
    - left. auto.
    - right. now left. }
  assert (∀ ctx, contextP st1 = Some ctx → settled_with (evs ++ [ev]) ctx)
    as Q2.
  { intros ctx H. destruct (H2 ctx H) as [E|[->|[-> [e ->]]]].
    - apply settled_with_more. auto.
    - left. apply elem_of_app. right. now left.
    - right. split; [reflexivity|]. exists e.
      apply elem_of_app. right. now left. }
  unfold processed. rewrite settle_result, !List.filter_app, Ht, Hpre.
  destruct st1 as [l1 rh1 tp1 cp1 w1 fl1 el1 ls1 sc1 hs1 re1 pi1 bu1 se1
                     cs1 me1].
  simpl in *. subst w1.
  destruct tp1 as [|tpl|]; [|destruct cp1 as [ctx|]|];
    unfold st_of, out_of; simpl;
    (split; [exact Q1|]); (split; [exact Q2|]); try reflexivity.
  exists tpl, ctx. repeat (split; [reflexivity|]). apply filter_input_calls.
Qed.

Lemma processed_step (evs : list event) (ev : event) (st : state)
  (t : list action) :
  processed cfg evs st t →
  processed cfg (evs ++ [ev]) (st_of (react cfg ev st))
    (t ++ out_of (react cfg ev st)).
Proof.
  intros HP.
  assert (processed cfg (evs ++ [ev]) (st_of (skip st))
            (t ++ out_of (skip st))) as Hskip
    by (apply (processed_same evs ev st); auto).
  destruct (settles ev) eqn:Es.
  - destruct ev as [tpl|e|c|e|f|id fe|  |e|chunk| ]; try discriminate;
      cbn [react]; unfold branch.
    + (* the template is there *)
      destruct (templateP st) as [|tpl0|] eqn:Et; try exact Hskip.
      destruct (processed_unwired evs st t HP (or_introl Et)) as [Hw Hf].
      rewrite seq_upd.
      apply (processed_settled evs _ st _ t [] HP Hw Hf);
        [now destruct st | reflexivity | |].
      * intros x. destruct st; simpl. intros [= <-]. now right.
      * intros x. destruct st; simpl. auto.
    + (* the template failed *)
      destruct (templateP st) as [|tpl0|] eqn:Et; try exact Hskip.
      destruct (processed_unwired evs st t HP (or_introl Et)) as [Hw Hf].
      rewrite seq_upd.
      assert (quiet is_input (handleError e)
              ∧ stays templateP (handleError e)
              ∧ stays contextP (handleError e)
              ∧ stays wired (handleError e)) as (Q & S1 & S2 & S3).
      { unfold_procs. split; [quiet_tac|]. split; [stays_tac|].
        split; stays_tac. }
      destruct HP as (P1 & P2 & P3). unfold processed.
      rewrite List.filter_app, Q, app_nil_r, S1, S2, S3.
      split; [|split].
      * destruct st; simpl. discriminate.
      * intros ctx H. apply settled_with_more. apply P2.
        now destruct st.
      * replace (wired (set_templateP Rejected st)) with (wired st)
          by (now destruct st).
        rewrite Hw. exact Hf.
    + (* the context is there *)
      destruct (contextP st) as [c0|] eqn:Ec; try exact Hskip.
      destruct (processed_unwired evs st t HP (or_intror Ec)) as [Hw Hf].
      rewrite seq_upd.
      apply (processed_settled evs _ st _ t [] HP Hw Hf);
        [now destruct st | reflexivity | |].
      * intros x. destruct st; simpl. auto.
      * intros x. destruct st; simpl. intros [= <-]. right. now left.
    + (* the context failed *)
      destruct (contextP st) as [c0|] eqn:Ec; try exact Hskip.
      destruct (processed_unwired evs st t HP (or_intror Ec)) as [Hw Hf].
      destruct (seq_act (Emit (EContextError e))
                  (upd (set_contextP (Some ∅)) ;; settle cfg) st) as [-> ->].
      rewrite seq_upd.
      apply (processed_settled evs _ st _ t [Emit (EContextError e)]
               HP Hw Hf);
        [now destruct st | reflexivity | |].
      * intros x. destruct st; simpl. auto.
      * intros x. destruct st; simpl. intros [= <-]. right. right.
        split; [reflexivity|]. eauto.
  - destruct (react_plain ev Es) as (Q & S1 & S2 & S3).
    apply (processed_same evs ev st); auto.
Qed.

Lemma request_snoc (prior : Z) (evs : list event) (ev : event) :
  request cfg prior (evs ++ [ev])
  = (st_of (react cfg ev (fst (request cfg prior evs))),
     snd (request cfg prior evs)
     ++ out_of (react cfg ev (fst (request cfg prior evs)))).
Proof.
  rewrite !request_run, run_app. cbn [fst snd].
  rewrite run_cons. cbn [run fst snd]. rewrite step_react. cbn [fst snd].
  now rewrite app_nil_r.
Qed.

Lemma request_processed (prior : Z) (evs : list event) :
  processed cfg evs (fst (request cfg prior evs))
    (snd (request cfg prior evs)).
Proof.
  induction evs as [|ev evs IH] using rev_ind.
  - split; [discriminate|]. split; [discriminate | reflexivity].
  - rewrite request_snoc. cbn [fst snd]. now apply processed_step.
Qed.

(** X12.  The template processor is created at most once in a request,
    and only when the template has resolved and the context has settled:
    until then the handler makes no call on it.  When it is created, it
    gets a fresh index generator that starts at 0 with step
    [maxAssetLinks] and the context the fetch resolved with (the empty
    object when the fetch failed); the items of the parsed template are
    written to it in their order, once each, and its input is ended.
    Nothing else is ever written to it. *)
Theorem template_processed_once (prior : Z) (evs : list event) :
  let st := fst (request cfg prior evs) in
  let t := snd (request cfg prior evs) in
  (wired st = false → List.filter is_input t = [])
  ∧ (wired st = true →
     ∃ tpl ctx,
       TemplateResolved tpl ∈ evs
       ∧ (ContextResolved ctx ∈ evs
          ∨ (ctx = ∅ ∧ ∃ e, ContextRejected e ∈ evs))
       ∧ List.filter is_input t
         = ProcessTemplate
             (IndexGen.nextIndexGenerator 0 (maxAssetLinks cfg)) ctx
           :: map Write tpl ++ [EndInput]).
Proof.
  cbv zeta. destruct (request_processed prior evs) as (P1 & P2 & P3).
  split; intros Hw; rewrite Hw in P3; [exact P3|].
  destruct P3 as (tpl & ctx & Ht & Hc & Hf).
  exists tpl, ctx. split; [now apply P1|]. split; [now apply P2 | exact Hf].
Qed.

(** *** A template that fails *)

Lemma unwired_plain (ev : event) (st : state) :
  wired st = false → settles ev = false → react cfg ev st = (true, st, []).
Proof.
  intros Hw Es.
  destruct ev as [tpl|e|c|e|f|id fe|  |e|chunk| ]; try discriminate;
    cbn [react]; unfold branch; rewrite Hw; reflexivity.
Qed.

Lemma rejected_step (ev : event) (st : state) :
  templateP st = Rejected → wired st = false →
  templateP (st_of (react cfg ev st)) = Rejected
  ∧ wired (st_of (react cfg ev st)) = false
  ∧ Forall (λ a, is_context_error a = true) (out_of (react cfg ev st)).
Proof.
  intros Ht Hw. destruct (settles ev) eqn:Es.
  - destruct ev as [tpl|e|c|e|f|id fe|  |e|chunk| ]; try discriminate;
      cbn [react]; unfold branch.
    + rewrite Ht. repeat split; auto.
    + rewrite Ht. repeat split; auto.
    + destruct (contextP st) eqn:Ec; [repeat split; auto|].
      rewrite seq_upd, settle_result.
      destruct st as [l rh tp cp w fl el ls sc hsent re pi bu se cs me].
      simpl in *. subst tp w. repeat split. constructor.
    + destruct (contextP st) eqn:Ec; [repeat split; auto|].
      destruct (seq_act (Emit (EContextError e))
                  (upd (set_contextP (Some ∅)) ;; settle cfg) st) as [-> ->].
      rewrite seq_upd, settle_result.
      destruct st as [l rh tp cp w fl el ls sc hsent re pi bu se cs me].
      simpl in *. subst tp w. repeat split. repeat constructor.
  - rewrite unwired_plain by assumption. repeat split; auto.
Qed.

Lemma rejected_run (evs : list event) (st : state) :
  templateP st = Rejected → wired st = false →
  Forall (λ a, is_context_error a = true) (snd (run cfg st evs)).
Proof.
  revert st. induction evs as [|ev evs IH]; intros st Ht Hw;
    [constructor|].
  rewrite run_cons. cbn [snd]. rewrite step_react. cbn [fst snd].
  destruct (rejected_step ev st Ht Hw) as (Ht' & Hw' & Ho).
  apply Forall_app. split; [exact Ho | now apply IH].
Qed.

Lemma pending_step (ev : event) (st : state) :
  wired st = false →
  templateP (st_of (react cfg ev st)) = Pending →
  templateP st = Pending
  ∧ Forall (λ a, is_emit a = true) (out_of (react cfg ev st)).
Proof.
  intros Hw. destruct (settles ev) eqn:Es.
  - destruct ev as [tpl|e|c|e|f|id fe|  |e|chunk| ]; try discriminate;
      cbn [react]; unfold branch.
    + destruct (templateP st) eqn:Et;
        [|intros H; unfold skip, st_of in H; simpl in H; congruence ..].
      rewrite seq_upd, settle_result.
      destruct st as [l rh tp cp w fl el ls sc hsent re pi bu se cs me].
      simpl in *. subst w.
      destruct cp; unfold st_of; simpl; discriminate.
    + destruct (templateP st) eqn:Et;
        [|intros H; unfold skip, st_of in H; simpl in H; congruence ..].
      rewrite seq_upd.
      assert (stays templateP (handleError e)) as S
        by (unfold_procs; stays_tac).
      rewrite S. destruct st; simpl. discriminate.
    + destruct (contextP st) eqn:Ec;
        [intros H; split; [exact H | constructor]|].
      rewrite seq_upd, settle_result.
      destruct st as [l rh tp cp w fl el ls sc hsent re pi bu se cs me].
      simpl in *. subst w.
      destruct tp; unfold st_of, out_of; simpl; try discriminate.
      intros _. split; [reflexivity | constructor].
    + destruct (contextP st) eqn:Ec;
        [intros H; split; [exact H | constructor]|].
      destruct (seq_act (Emit (EContextError e))
                  (upd (set_contextP (Some ∅)) ;; settle cfg) st) as [-> ->].
      rewrite seq_upd, settle_result.
      destruct st as [l rh tp cp w fl el ls sc hsent re pi bu se cs me].
      simpl in *. subst w.
      destruct tp; unfold st_of, out_of; simpl; try discriminate.
      intros _. split; [reflexivity | repeat constructor].
  - rewrite unwired_plain by assumption. intros H.
    split; [exact H | constructor].
Qed.

Lemma pending_emits (prior : Z) (evs : list event) :
  templateP (fst (request cfg prior evs)) = Pending →
  Forall (λ a, is_emit a = true) (snd (request cfg prior evs)).
Proof.
  induction evs as [|ev evs IH] using rev_ind.
  - intros _. repeat constructor.
  - rewrite request_snoc. cbn [fst snd]. intros Hp.
    pose proof (request_inv cfg prior evs) as Hi.
    set (st := fst (request cfg prior evs)) in *.
    set (t := snd (request cfg prior evs)) in *.
    destruct (react_preserves cfg ev prior st t I Hi) as (Hi' & _ & Hmono).
    destruct Hi' as [Hs' _].
    destruct (inv_pending _ _ Hs' Hp) as [Hw' _].
    assert (wired st = false) as Hw.
    { destruct (wired st); [|reflexivity]. rewrite Hmono in Hw'; auto. }
    destruct (pending_step ev st Hw Hp) as [Hp0 Ho].
    apply Forall_app. split; [now apply IH | exact Ho].
Qed.

(** X13.  A template that fails is the end of the request.  Until the
    template fetch settles the handler only emits events; when it fails
    the handler emits [error], writes the head (404 for
    [TEMPLATE_NOT_FOUND], 500 otherwise) with the baseline headers and
    ends the response with the presentable text, if any; and whatever
    happens afterwards, it makes no further call at all, except to emit
    [context:error]: nothing is written or piped to the response, the
    template processor is never created, and [end] is not emitted. *)
Theorem template_failure_is_final (prior : Z) (pre post : list event)
  (e : error) :
  templateP (fst (request cfg prior pre)) = Pending →
  ∃ before after,
    snd (request cfg prior (pre ++ TemplateRejected e :: post))
    = before
      ++ [Emit (EError e); WriteHead (error_status e) baseline;
          ResponseEnd (error_body e)]
      ++ after
    ∧ Forall (λ a, is_emit a = true) before
    ∧ Forall (λ a, is_context_error a = true) after.
Proof.
  intros Hp.
  pose proof (request_inv cfg prior pre) as Hi.
  pose proof (pending_emits prior pre Hp) as Hb.
  rewrite request_run in *. cbn [fst snd] in *.
  rewrite run_app. cbn [fst snd]. rewrite run_cons. cbn [fst snd].
  set (st := fst (run cfg (initial prior) pre)) in *.
  destruct (templateRejected_step cfg prior st _ e Hi Hp) as [Ho _].
  rewrite Ho.
  exists (Emit EStart :: snd (run cfg (initial prior) pre)).
  exists (snd (run cfg (fst (step cfg st (TemplateRejected e))) post)).
  split; [reflexivity|]. split; [exact Hb|].
  destruct (inv_pending _ _ (proj1 Hi) Hp) as [Hw _].
  apply rejected_run.
  - rewrite step_react. cbn [fst react]. unfold branch. rewrite Hp, seq_upd.
    assert (stays templateP (handleError e)) as S
      by (unfold_procs; stays_tac).
    rewrite S. now destruct st.
  - rewrite step_react. cbn [fst react]. unfold branch. rewrite Hp, seq_upd.
    assert (stays wired (handleError e)) as S
      by (unfold_procs; stays_tac).
    rewrite S. now destruct st.
Qed.

(** *** The head is announced *)

Lemma announced_app (prev : option action) (t1 t2 : list action) :
  announced prev t1 → (∀ p, announced p t2) → announced prev (t1 ++ t2).
Proof.
  revert prev. induction t1 as [|a t1 IH]; intros prev H1 H2; [apply H2|].
  destruct H1 as [Ha H1]. split; [exact Ha | now apply IH].
Qed.

Lemma polite_seq (p q : proc) : polite p → polite q → polite (p ;; q).
Proof.
  intros Hp Hq st prev. rewrite seq_out. apply announced_app; [apply Hp|].
  intros p'. destruct (ok_of (p st)); [apply Hq | exact I].
Qed.

Lemma polite_skip : polite skip.
Proof. intros st prev. exact I. Qed.

Lemma polite_upd (f : state → state) : polite (upd f).
Proof. intros st prev. exact I. Qed.

Lemma polite_act (a : action) : is_writeHead a = false → polite (act a).
Proof.
  intros H st prev. unfold act, out_of. simpl.
  split; [now destruct a | exact I].
Qed.

Lemma polite_branch (b : state → bool) (p q : proc) :
  polite p → polite q → polite (branch b p q).
Proof. intros Hp Hq st prev. unfold branch. destruct (b st); auto. Qed.

Lemma polite_reading (k : state → proc) :
  (∀ s, polite (k s)) → polite (reading k).
Proof. intros H st prev. apply H. Qed.

Lemma polite_each {B : Type} (f : B → proc) (l : list B) :
  (∀ x, polite (f x)) → polite (each f l).
Proof.
  intros H. induction l as [|x l IH]; [apply polite_skip|].
  simpl. apply polite_seq; auto.
Qed.

Lemma writeHead_out (c : Z) (st : state) :
  out_of (writeHead c st) = [WriteHead c (responseHeaders st)].
Proof. unfold writeHead, out_of. now destruct (headersSent st). Qed.

(** [response] is emitted with the status and the headers of the head
    that is written next. *)
Lemma polite_response (c : Z) (rest : proc) :
  polite rest →
  polite (reading (λ st, act (Emit (EResponse c (responseHeaders st)))) ;;
          writeHead c ;; rest).
Proof.
  intros Hr st prev. rewrite seq_out. unfold reading at 1 2 3.
  unfold act at 1 2 3. unfold ok_of at 1, st_of at 1, out_of at 1.
  cbn [fst snd]. rewrite seq_out, writeHead_out.
  split; [exact I|]. split; [split; reflexivity|].
  destruct (ok_of (writeHead c st)); [apply Hr | exact I].
Qed.

Lemma polite_error (e : error) (c : Z) (rest : proc) :
  polite rest →
  polite (act (Emit (EError e)) ;; writeHead c ;; rest).
Proof.
  intros Hr st prev. rewrite seq_out. unfold act at 1 2 3.
  unfold ok_of at 1, st_of at 1, out_of at 1.
  cbn [fst snd]. rewrite seq_out, writeHead_out.
  split; [exact I|]. split; [exact I|].
  destruct (ok_of (writeHead c st)); [apply Hr | exact I].
Qed.

Ltac polite_tac :=
  repeat match goal with
    | |- polite (seq (reading _) (seq (writeHead _) _)) =>
        apply polite_response
    | |- polite (seq (act (Emit (EError _))) (seq (writeHead _) _)) =>
        apply polite_error
    | |- polite (seq _ _) => apply polite_seq
    | |- polite skip => apply polite_skip
    | |- polite (upd _) => apply polite_upd
    | |- polite (act _) => apply polite_act; reflexivity
    | |- polite (branch _ _ _) => apply polite_branch
    | |- polite (reading _) => apply polite_reading; intros ?; cbv beta zeta
    | |- polite (each _ _) => apply polite_each; intros ?; cbv beta zeta
    | |- polite (match ?x with _ => _ end) => destruct x
    end.

Lemma polite_pipe : polite pipe.
Proof. unfold_procs. polite_tac. Qed.

Lemma polite_meter_end : polite meter_end.
Proof. unfold_procs. polite_tac. Qed.

Lemma polite_handleError (e : error) : polite (handleError e).
Proof.
  intros st prev. unfold handleError.
  match goal with
  | |- announced _ (out_of ((act ?a ;; ?p) st)) =>
      destruct (seq_act a p st) as [_ ->]
  end.
  split; [exact I|]. unfold branch.
  destruct (shouldWriteHead st).
  - rewrite seq_upd, seq_out, writeHead_out.
    split; [exact I|].
    destruct (ok_of _); [|exact I].
    cbn [app]. destruct (presentable e);
      match goal with
      | |- announced _ (out_of (?p _)) =>
          let H := fresh in
          assert (polite p) as H by (unfold response_end; polite_tac);
          apply H
      end.
  - assert (polite (act MeterEnd ;; meter_end)) as H
      by (apply polite_seq; [now apply polite_act | apply polite_meter_end]).
    apply H.
Qed.

Lemma polite_react (ev : event) : polite (react cfg ev).
Proof.
  destruct ev as [tpl|e|c|e|f|id fe|  |e|chunk| ]; cbn [react];
    unfold fragmentEmits, invoke;
    repeat match goal with
      | |- polite (handleError _) => apply polite_handleError
      | |- polite pipe => apply polite_pipe
      | |- polite meter_end => apply polite_meter_end
      | |- polite (seq (reading _) (seq (writeHead _) _)) =>
          apply polite_response
      | |- polite (seq (act (Emit (EError _))) (seq (writeHead _) _)) =>
          apply polite_error
      | |- polite (seq _ _) => apply polite_seq
      | |- polite skip => apply polite_skip
      | |- polite (upd _) => apply polite_upd
      | |- polite (act _) => apply polite_act; reflexivity
      | |- polite (branch _ _ _) => apply polite_branch
      | |- polite (reading _) =>
          apply polite_reading; intros ?; cbv beta zeta
      | |- polite (each _ _) => apply polite_each; intros ?; cbv beta zeta
      | |- polite (match ?x with _ => _ end) => destruct x
      | |- _ =>
          progress unfold primaryResponse, primaryFallback, primaryError,
            finish, fragmentFound, handlePrimaryFragment, settle,
            onResolved, meter_write, response_end
      end.
Qed.

Lemma polite_run (evs : list event) (st : state) (prev : option action) :
  announced prev (snd (run cfg st evs)).
Proof.
  revert st prev. induction evs as [|ev evs IH]; intros st prev; [exact I|].
  rewrite run_cons. cbn [snd]. rewrite step_react. cbn [fst snd].
  apply announced_app; [apply polite_react | intros p; apply IH].
Qed.

Lemma announced_before (prev : option action) (t1 t2 : list action)
  (c : Z) (hs : gmap string string) :
  announced prev (t1 ++ WriteHead c hs :: t2) →
  announces (last (option_list prev ++ t1)) c hs.
Proof.
  revert prev. induction t1 as [|a t1 IH]; intros prev H.
  - destruct H as [H _]. now destruct prev.
  - destruct H as [_ H]. apply IH in H.
    replace (last (option_list prev ++ a :: t1))
      with (last (option_list (Some a) ++ t1)); [exact H|].
    simpl. destruct prev; simpl; [|reflexivity].
    now destruct t1.
Qed.

(** X14.  Whoever listens to the handler learns of the head before it
    is written: in every request, each call of [response.writeHead]
    comes directly after the handler emitted [response] with the very
    status and headers of that call, or [error]. *)
Theorem writeHead_is_announced (prior : Z) (evs : list event) :
  let t := snd (request cfg prior evs) in
  announced None t
  ∧ ∀ t1 c hs t2,
      t = t1 ++ WriteHead c hs :: t2 →
      ∃ t0 x, t1 = t0 ++ [Emit x]
              ∧ (x = EResponse c hs ∨ ∃ e, x = EError e).
Proof.
  cbv zeta. rewrite request_run. cbn [snd].
  assert (announced None
            (Emit EStart :: snd (run cfg (initial prior) evs))) as H
    by (split; [exact I | apply polite_run]).
  split; [exact H|]. intros t1 c hs t2 E. rewrite E in H.
  apply announced_before in H. simpl in H.
  destruct t1 as [|a t1] using rev_ind; [contradiction|].
  rewrite last_snoc in H. simpl in H.
  destruct a as [x| | | | | | | | |]; try contradiction.
  exists t1, x. split; [reflexivity|].
  destruct x; try contradiction.
  - right. eauto.
  - left. destruct H as [-> ->]. reflexivity.
Qed.

(** *** The pipe *)

Lemma careful_seq (p q : proc) : careful p → careful q → careful (p ;; q).
Proof.
  intros Hp Hq st t Hi. rewrite seq_st, seq_out.
  specialize (Hp st t Hi). destruct (ok_of (p st)).
  - rewrite app_assoc. now apply Hq.
  - now rewrite app_nil_r.
Qed.

Lemma careful_skip : careful skip.
Proof.
  intros st t Hi. unfold skip, st_of, out_of. simpl. now rewrite app_nil_r.
Qed.

Lemma careful_act (a : action) : is_pipe a = false → careful (act a).
Proof.
  intros Ha st t [H1 H2]. unfold act, st_of, out_of. simpl.
  split; [|exact H2]. rewrite count_app, H1. unfold count. simpl.
  rewrite Ha. simpl. lia.
Qed.

Lemma careful_upd (f : state → state) :
  (∀ st, piped (f st) = piped st ∧ headersSent (f st) = headersSent st) →
  careful (upd f).
Proof.
  intros Hf st t [H1 H2]. unfold piped_inv, upd, st_of, out_of. simpl.
  destruct (Hf st) as [-> ->]. now rewrite app_nil_r.
Qed.

Lemma careful_branch (b : state → bool) (p q : proc) :
  careful p → careful q → careful (branch b p q).
Proof. intros Hp Hq st t. unfold branch. destruct (b st); auto. Qed.

Lemma careful_reading (k : state → proc) :
  (∀ s, careful (k s)) → careful (reading k).
Proof. intros H st t. apply H. Qed.

Lemma careful_each {B : Type} (f : B → proc) (l : list B) :
  (∀ x, careful (f x)) → careful (each f l).
Proof.
  intros H. induction l as [|x l IH]; [apply careful_skip|].
  simpl. apply careful_seq; auto.
Qed.

Lemma careful_writeHead (c : Z) : careful (writeHead c).
Proof.
  intros st t [H1 H2]. unfold writeHead, st_of, out_of.
  destruct (headersSent st) eqn:E; simpl.
  - split; [|intros _; exact E].
    rewrite count_app, H1. unfold count. simpl. lia.
  - split; [|now destruct st].
    rewrite count_app, H1. unfold count. destruct st; simpl. lia.
Qed.

(** The pipe is set up after the head was written, and not when
    [writeHead] threw. *)
Lemma careful_head_pipe (c : Z) : careful (writeHead c ;; pipe).
Proof.
  intros st t [H1 H2]. rewrite seq_st, seq_out, writeHead_out.
  unfold writeHead at 1 3, ok_of at 1 2. unfold writeHead, st_of at 2 3 4.
  destruct (headersSent st) eqn:E; cbn [fst snd].
  - split; [|intros _; exact E].
    rewrite count_app, H1. unfold count. simpl. lia.
  - assert (piped st = false) as Hp.
    { destruct (piped st); [|reflexivity]. now specialize (H2 eq_refl). }
    rewrite Hp in H1. unfold pipe.
    match goal with
    | |- piped_inv (st_of ((act ?a ;; ?p) ?s)) (_ ++ _ ++ out_of _) =>
        destruct (seq_act a p s) as [-> ->]
    end.
    rewrite seq_upd.
    match goal with
    | |- piped_inv (st_of (?p ?s)) _ =>
        assert (quiet is_pipe p ∧ stays piped p ∧ stays headersSent p)
          as (Q & S1 & S2)
    end.
    { unfold_procs. split; [quiet_tac|]. split; stays_tac. }
    unfold piped_inv. rewrite S1, S2.
    replace (piped (set_piped (set_head c st))) with true
      by (now destruct st).
    replace (headersSent (set_piped (set_head c st))) with true
      by (now destruct st).
    split; [|reflexivity].
    rewrite !count_app, H1. unfold count at 1 2. cbn [List.filter is_pipe].
    unfold count. rewrite Q. simpl. lia.
Qed.

Ltac careful_tac :=
  repeat match goal with
    | |- careful (seq (writeHead _) pipe) => apply careful_head_pipe
    | |- careful (seq _ _) => apply careful_seq
    | |- careful skip => apply careful_skip
    | |- careful (act _) => apply careful_act; reflexivity
    | |- careful (upd _) => apply careful_upd; intros []; split; reflexivity
    | |- careful (writeHead _) => apply careful_writeHead
    | |- careful (branch _ _ _) => apply careful_branch
    | |- careful (reading _) =>
        apply careful_reading; intros ?; cbv beta zeta
    | |- careful (each _ _) => apply careful_each; intros ?; cbv beta zeta
    | |- careful (match ?x with _ => _ end) => destruct x
    | |- _ =>
        progress unfold primaryResponse, primaryFallback, primaryError,
          handleError, finish, fragmentFound, handlePrimaryFragment,
          settle, onResolved, meter_end, meter_write, response_finish,
          response_end
    end.

Lemma careful_react (ev : event) : careful (react cfg ev).
Proof.
  destruct ev as [tpl|e|c|e|f|id fe|  |e|chunk| ]; cbn [react];
    unfold fragmentEmits, invoke; careful_tac.
Qed.

Lemma run_piped (evs : list event) (st : state) (t : list action) :
  piped_inv st t →
  piped_inv (fst (run cfg st evs)) (t ++ snd (run cfg st evs)).
Proof.
  revert st t. induction evs as [|ev evs IH]; intros st t Hi.
  - simpl. now rewrite app_nil_r.
  - rewrite run_cons. cbn [fst snd]. rewrite step_react. cbn [fst snd].
    rewrite app_assoc. apply IH. now apply careful_react.
Qed.

(** X15.  The output of the template processor is piped into the
    response at most once in a request, and only into a response whose
    head was sent: a listener whose [writeHead] is refused, because the
    head was sent before, does not set up a second pipe. *)
Theorem piped_at_most_once (prior : Z) (evs : list event) :
  let st := fst (request cfg prior evs) in
  let t := snd (request cfg prior evs) in
  (count is_pipe t ≤ 1)%nat
  ∧ (count is_pipe t = 1%nat ↔ piped st = true)
  ∧ (piped st = true → headersSent st = true).
Proof.
  cbv zeta. rewrite request_run. cbn [fst snd].
  assert (piped_inv (initial prior) [Emit EStart]) as H0
    by (split; [reflexivity | discriminate]).
  destruct (run_piped evs _ _ H0) as [H1 H2].
  change ([Emit EStart] ++ snd (run cfg (initial prior) evs))
    with (Emit EStart :: snd (run cfg (initial prior) evs)) in H1.
  rewrite H1. destruct (piped (fst (run cfg (initial prior) evs))).
  - split; [lia|]. split; [tauto | exact H2].
  - split; [lia|]. split; [split; [lia | discriminate] | exact H2].
Qed.

(** *** The events of the fragments *)

Lemma existsb_filter_out (n : event_name)
  (ls : list (event_name * listener)) :
  existsb (λ nl, event_name_eqb (fst nl) n)
    (filter (λ nl, event_name_eqb (fst nl) n = false) ls) = false.
Proof.
  induction ls as [|x ls IH]; [reflexivity|].
  rewrite filter_cons. destruct (decide _) as [E|E]; [|exact IH].
  simpl. now rewrite E, IH.
Qed.

Lemma existsb_filter_sub (n : event_name)
  (P : event_name * listener → Prop) `{∀ x, Decision (P x)}
  (ls : list (event_name * listener)) :
  existsb (λ nl, event_name_eqb (fst nl) n) ls = false →
  existsb (λ nl, event_name_eqb (fst nl) n) (filter P ls) = false.
Proof.
  induction ls as [|x ls IH]; [reflexivity|]. simpl.
  intros E. apply orb_false_iff in E as [E1 E2].
  rewrite filter_cons. destruct (decide _); [|auto].
  simpl. now rewrite E1, IH.
Qed.

Lemma filter_none (n : event_name) (ls : list (event_name * listener)) :
  existsb (λ nl, event_name_eqb (fst nl) n) ls = false →
  filter (λ nl, event_name_eqb (fst nl) n = true) ls = [].
Proof.
  induction ls as [|x ls IH]; [reflexivity|]. simpl.
  intros E. apply orb_false_iff in E as [E1 E2].
  rewrite filter_cons. destruct (decide _) as [D|D]; [congruence | auto].
Qed.

Lemma stays_invoke_listeners (ev : fragment_event) (l : listener) :
  stays listeners (invoke cfg ev l) ∧ stays wired (invoke cfg ev l).
Proof.
  unfold invoke. split; destruct l, ev; unfold_procs; stays_tac.
Qed.

Lemma fragmentEmits_listeners (id : nat) (ev : fragment_event)
  (st : state) :
  listeners (st_of (fragmentEmits cfg id ev st))
  = <[id := filter (λ nl, event_name_eqb (fst nl) (name_of ev) = false)
              (default [] (listeners st !! id))]> (listeners st)
  ∧ wired (st_of (fragmentEmits cfg id ev st)) = wired st.
Proof.
  unfold fragmentEmits, reading. rewrite seq_upd.
  split.
  - rewrite (stays_each listeners (λ nl, invoke cfg ev (snd nl)));
      [now destruct st|].
    intros x. apply stays_invoke_listeners.
  - rewrite (stays_each wired (λ nl, invoke cfg ev (snd nl)));
      [now destruct st|].
    intros x. apply stays_invoke_listeners.
Qed.

Lemma wired_settle (st : state) :
  wired st = true → settle cfg st = (true, st, []).
Proof.
  intros Hw. rewrite settle_result, Hw.
  destruct (templateP st); try reflexivity. now destruct (contextP st).
Qed.

Lemma stays_listeners_settles (ev : event) :
  settles ev = true → stays listeners (react cfg ev).
Proof.
  destruct ev as [tpl|e|c|e|f|id fe|  |e|chunk| ]; try discriminate;
    intros _; cbn [react]; unfold_procs; stays_tac.
Qed.

(** Once wired, always wired. *)
Lemma wired_mono (ev : event) (st : state) :
  wired st = true → wired (st_of (react cfg ev st)) = true.
Proof.
  intros Hw. destruct (settles ev) eqn:Es.
  - destruct ev as [tpl|e|c|e|f|id fe|  |e|chunk| ]; try discriminate;
      cbn [react]; unfold branch.
    + destruct (templateP st); [|auto ..].
      rewrite seq_upd, wired_settle by (now destruct st). now destruct st.
    + destruct (templateP st); [|auto ..]. rewrite seq_upd.
      assert (stays wired (handleError e)) as S
        by (unfold_procs; stays_tac).
      rewrite S. now destruct st.
    + destruct (contextP st); [auto|].
      rewrite seq_upd, wired_settle by (now destruct st). now destruct st.
    + destruct (contextP st); [auto|].
      destruct (seq_act (Emit (EContextError e))
                  (upd (set_contextP (Some ∅)) ;; settle cfg) st) as [-> _].
      rewrite seq_upd, wired_settle by (now destruct st). now destruct st.
  - destruct (react_plain ev Es) as (_ & _ & _ & S). now rewrite S.
Qed.

(** Only [fragment:found] gives a fragment new listeners. *)
Lemma react_waits (ev : event) (st : state) (id : nat) (n : event_name) :
  (∀ f, ev = FragmentFound f → fid f ≠ id) →
  waits n st id = false →
  waits n (st_of (react cfg ev st)) id = false.
Proof.
  intros Hnf Hn. unfold waits, listeners_of in *.
  destruct (settles ev) eqn:Es;
    [now rewrite (stays_listeners_settles ev Es)|].
  destruct (wired st) eqn:Hw; [|now rewrite unwired_plain].
  destruct ev as [tpl|e|c|e|f|id2 fe|  |e|chunk| ]; try discriminate;
    cbn [react].
  - unfold branch. rewrite Hw, fragmentFound_result.
    unfold st_of. cbn [fst snd]. cbv zeta.
    specialize (Hnf f eq_refl).
    destruct (primary (attrs f) && shouldWriteHead st);
      unfold add_listeners; destruct st; simpl in *;
      rewrite ?lookup_insert_ne by assumption; auto.
  - unfold branch. rewrite Hw.
    destruct (fragmentEmits_listeners id2 fe st) as [-> _].
    destruct (decide (id2 = id)) as [->|Hne].
    + rewrite lookup_insert_eq. simpl. now apply existsb_filter_sub.
    + now rewrite lookup_insert_ne.
  - assert (stays listeners (react cfg Finish)) as S
      by (cbn [react]; unfold_procs; stays_tac).
    cbn [react] in S. now rewrite S.
  - assert (stays listeners (react cfg (StreamError e))) as S
      by (cbn [react]; unfold_procs; stays_tac).
    cbn [react] in S. now rewrite S.
  - assert (stays listeners (react cfg (Data chunk))) as S
      by (cbn [react]; unfold_procs; stays_tac).
    cbn [react] in S. now rewrite S.
  - assert (stays listeners (react cfg SourceEnd)) as S
      by (cbn [react]; unfold_procs; stays_tac).
    cbn [react] in S. now rewrite S.
Qed.

Lemma run_waits (evs : list event) (st : state) (id : nat)
  (n : event_name) :
  not_found_in id evs → waits n st id = false →
  waits n (fst (run cfg st evs)) id = false.
Proof.
  revert st. induction evs as [|ev evs IH]; intros st Hnf Hn; [auto|].
  rewrite run_cons. cbn [fst]. rewrite step_react. cbn [fst].
  apply IH; [intros f Hf; apply Hnf; now right|].
  apply react_waits; [|exact Hn]. intros f ->. apply Hnf. now left.
Qed.

(** An event for which the fragment has no listener causes no call. *)
Lemma silent_emission (st : state) (id : nat) (ev : fragment_event) :
  waits (name_of ev) st id = false →
  out_of (react cfg (FragmentEmits id ev) st) = [].
Proof.
  intros Hn. cbn [react]. unfold branch. destruct (wired st); [|reflexivity].
  unfold fragmentEmits, reading. rewrite seq_upd.
  unfold waits, listeners_of in Hn. now rewrite (filter_none _ _ Hn).
Qed.

Lemma emission_clears (st : state) (id : nat) (ev : fragment_event) :
  wired st = true →
  waits (name_of ev) (st_of (react cfg (FragmentEmits id ev) st)) id = false.
Proof.
  intros Hw. cbn [react]. unfold branch. rewrite Hw.
  destruct (fragmentEmits_listeners id ev st) as [Hl _].
  unfold waits, listeners_of. rewrite Hl, lookup_insert_eq. simpl.
  apply existsb_filter_out.
Qed.

(** No fragment has a listener before the processor is set up. *)
Lemma unwired_listeners (prior : Z) (evs : list event) :
  wired (fst (request cfg prior evs)) = false →
  listeners (fst (request cfg prior evs)) = ∅.
Proof.
  induction evs as [|ev evs IH] using rev_ind; [reflexivity|].
  rewrite request_snoc. cbn [fst].
  set (st := fst (request cfg prior evs)) in *. intros Hw'.
  assert (wired st = false) as Hw.
  { destruct (wired st) eqn:E; [|reflexivity].
    rewrite (wired_mono ev st E) in Hw'. discriminate. }
  destruct (settles ev) eqn:Es.
  - rewrite (stays_listeners_settles ev Es). auto.
  - rewrite unwired_plain by assumption. auto.
Qed.

(** X16.  A fragment event is passed on at most once for each name.  In
    a request in which a fragment is announced once with
    [fragment:found], as the template processor announces it, the
    listeners of the handler are registered with [once]: after the
    fragment emitted an event, a later event of the same name from that
    fragment reaches no listener of the handler and causes no call,
    whatever happened in between. *)
Theorem fragment_events_once_per_name (prior : Z) (pre m1 m2 : list event)
  (f : fragment) (ev ev' : fragment_event) :
  not_found_in (fid f) pre →
  not_found_in (fid f) m1 →
  not_found_in (fid f) m2 →
  name_of ev' = name_of ev →
  let st :=
    fst (request cfg prior
           (pre ++ FragmentFound f :: m1
            ++ FragmentEmits (fid f) ev :: m2)) in
  snd (step cfg st (FragmentEmits (fid f) ev')) = [].
Proof.
  intros _ _ Hnf Hname st. subst st.
  replace (pre ++ FragmentFound f :: m1 ++ FragmentEmits (fid f) ev :: m2)
    with ((pre ++ FragmentFound f :: m1) ++ FragmentEmits (fid f) ev :: m2)
    by (now rewrite <- app_assoc).
  set (evs := pre ++ FragmentFound f :: m1).
  pose proof (unwired_listeners prior evs) as Hu.
  rewrite request_run in *. cbn [fst] in *.
  rewrite run_app. cbn [fst]. rewrite run_cons. cbn [fst].
  set (s0 := fst (run cfg (initial prior) evs)) in *.
  rewrite !step_react. cbn [fst snd].
  apply silent_emission. rewrite Hname. apply run_waits; [exact Hnf|].
  destruct (wired s0) eqn:Hw; [now apply emission_clears|].
  rewrite unwired_plain by auto.
  unfold waits, listeners_of, st_of. cbn [fst snd].
  now rewrite (Hu eq_refl).
Qed.

Lemma quiet_invoke_primary (ev : fragment_event) (l : listener) :
  is_primary_listener l = true →
  quiet is_fragment_emit (invoke cfg ev l).
Proof.
  destruct l as [a|a| |]; [discriminate|intros _ ..]; unfold invoke;
    destruct ev; unfold_procs; quiet_tac.
Qed.

Lemma quiet_each_primary (ev : fragment_event)
  (ls : list (event_name * listener)) :
  Forall (λ nl, is_primary_listener (snd nl) = true) ls →
  quiet is_fragment_emit (each (λ nl, invoke cfg ev (snd nl)) ls).
Proof.
  induction 1 as [|nl ls Hnl Hls IH]; simpl; [apply quiet_skip|].
  apply quiet_seq; [now apply quiet_invoke_primary | exact IH].
Qed.

(** The listeners of a fragment that was just found: to those it had,
    one is added for each event, to pass it on, and after them those of
    [handlePrimaryFragment]. *)
Lemma found_listeners (f : fragment) (st : state) :
  ∃ extra,
    listeners_of (st_of (fragmentFound f st)) (fid f)
    = listeners_of st (fid f)
      ++ map (λ n, (n, Reemit (attrs f))) FRAGMENT_EVENTS ++ extra
    ∧ Forall (λ nl, is_primary_listener (snd nl) = true) extra
    ∧ wired (st_of (fragmentFound f st)) = wired st.
Proof.
  rewrite fragmentFound_result. unfold st_of. cbn [fst snd].
  cbv zeta. destruct (primary (attrs f) && shouldWriteHead st).
  - exists (primary_listeners (attrs f)).
    rewrite listeners_of_add, decide_True by reflexivity.
    replace (listeners_of (set_shouldWriteHead false
               (add_listeners (fid f)
                  (map (λ n, (n, Reemit (attrs f))) FRAGMENT_EVENTS) st)))
      with (listeners_of
              (add_listeners (fid f)
                 (map (λ n, (n, Reemit (attrs f))) FRAGMENT_EVENTS) st))
      by (now destruct st).
    rewrite listeners_of_add, decide_True by reflexivity.
    rewrite <- app_assoc.
    split; [reflexivity|]. split; [repeat constructor | now destruct st].
  - exists []. rewrite listeners_of_add, decide_True by reflexivity.
    rewrite app_nil_r.
    split; [reflexivity|]. split; [constructor | now destruct st].
Qed.

Lemma hit_first (n : event_name) (a : attributes)
  (extra : list (event_name * listener)) :
  filter (λ nl, event_name_eqb (fst nl) n = true)
    (map (λ m, (m, Reemit a)) FRAGMENT_EVENTS ++ extra)
  = (n, Reemit a)
    :: filter (λ nl, event_name_eqb (fst nl) n = true) extra.
Proof. rewrite filter_app. now destruct n. Qed.

Lemma event_name_eqb_eq (a b : event_name) :
  event_name_eqb a b = true ↔ a = b.
Proof. destruct a, b; simpl; split; congruence. Qed.

(** Removing the listeners of one name leaves those of another. *)
Lemma filter_other (n m : event_name)
  (ls : list (event_name * listener)) :
  event_name_eqb m n = false →
  filter (λ nl, event_name_eqb (fst nl) n = true)
    (filter (λ nl, event_name_eqb (fst nl) m = false) ls)
  = filter (λ nl, event_name_eqb (fst nl) n = true) ls.
Proof.
  intros Hmn. induction ls as [|x ls IH]; [reflexivity|].
  rewrite (filter_cons _ x ls).
  destruct (decide (event_name_eqb (fst x) m = false)) as [E|E].
  - rewrite !filter_cons.
    destruct (decide (event_name_eqb (fst x) n = true));
      [now rewrite IH | exact IH].
  - rewrite filter_cons. apply not_false_is_true in E.
    apply event_name_eqb_eq in E.
    destruct (decide (event_name_eqb (fst x) n = true)) as [E'|_];
      [|exact IH].
    rewrite E in E'. congruence.
Qed.

(** The listeners of a fragment for an event stay as they are until the
    fragment is found again or emits that event. *)
Lemma react_named (ev : event) (st : state) (id : nat) (n : event_name) :
  (∀ f, ev = FragmentFound f → fid f ≠ id) →
  emits id n [ev] = false →
  filter (λ nl, event_name_eqb (fst nl) n = true)
    (listeners_of (st_of (react cfg ev st)) id)
  = filter (λ nl, event_name_eqb (fst nl) n = true) (listeners_of st id).
Proof.
  intros Hnf Hn. unfold listeners_of.
  destruct (settles ev) eqn:Es;
    [now rewrite (stays_listeners_settles ev Es)|].
  destruct (wired st) eqn:Hw; [|now rewrite unwired_plain].
  destruct ev as [tpl|e|c|e|f|id2 fe|  |e|chunk| ]; try discriminate;
    cbn [react].
  - unfold branch. rewrite Hw, fragmentFound_result.
    unfold st_of. cbn [fst snd]. cbv zeta.
    specialize (Hnf f eq_refl).
    destruct (primary (attrs f) && shouldWriteHead st);
      unfold add_listeners; destruct st; simpl in *;
      rewrite ?lookup_insert_ne by assumption; auto.
  - unfold branch. rewrite Hw.
    destruct (fragmentEmits_listeners id2 fe st) as [-> _].
    destruct (decide (id2 = id)) as [->|Hne].
    + rewrite lookup_insert_eq. simpl. apply filter_other.
      unfold emits in Hn. simpl in Hn. rewrite Nat.eqb_refl in Hn.
      simpl in Hn. now apply orb_false_iff in Hn as [Hn _].
    + now rewrite lookup_insert_ne.
  - assert (stays listeners (react cfg Finish)) as S
      by (cbn [react]; unfold_procs; stays_tac).
    cbn [react] in S. now rewrite S.
  - assert (stays listeners (react cfg (StreamError e))) as S
      by (cbn [react]; unfold_procs; stays_tac).
    cbn [react] in S. now rewrite S.
  - assert (stays listeners (react cfg (Data chunk))) as S
      by (cbn [react]; unfold_procs; stays_tac).
    cbn [react] in S. now rewrite S.
  - assert (stays listeners (react cfg SourceEnd)) as S
      by (cbn [react]; unfold_procs; stays_tac).
    cbn [react] in S. now rewrite S.
Qed.

Lemma emits_cons (id : nat) (n : event_name) (ev : event)
  (evs : list event) :
  emits id n (ev :: evs) = emits id n [ev] || emits id n evs.
Proof. unfold emits. simpl. now rewrite orb_false_r. Qed.

Lemma run_named (evs : list event) (st : state) (id : nat)
  (n : event_name) :
  not_found_in id evs → emits id n evs = false →
  filter (λ nl, event_name_eqb (fst nl) n = true)
    (listeners_of (fst (run cfg st evs)) id)
  = filter (λ nl, event_name_eqb (fst nl) n = true) (listeners_of st id).
Proof.
  revert st. induction evs as [|ev evs IH]; intros st Hnf Hn; [auto|].
  rewrite emits_cons in Hn. apply orb_false_iff in Hn as [Hn1 Hn2].
  rewrite run_cons. cbn [fst]. rewrite step_react. cbn [fst].
  rewrite IH; [|intros f Hf; apply Hnf; now right|exact Hn2].
  apply react_named; [|exact Hn1]. intros f ->. apply Hnf. now left.
Qed.

Lemma run_wired (evs : list event) (st : state) :
  wired st = true → wired (fst (run cfg st evs)) = true.
Proof.
  revert st. induction evs as [|ev evs IH]; intros st Hw; [exact Hw|].
  rewrite run_cons. cbn [fst]. rewrite step_react. cbn [fst].
  now apply IH, wired_mono.
Qed.

(** X17.  When a fragment is found, the handler listens to each of its
    seven events.  In every request in which the fragment is found once,
    after the processor was set up, the first event of each name that
    the fragment emits, whatever happens between the two, is passed on
    as [fragment:<name>] with the attributes of the fragment and the
    arguments of the event: that is the first call the handler makes
    then, before anything it does for a primary fragment, and the event
    is passed on once. *)
Theorem found_fragment_events_forwarded (prior : Z) (pre mid : list event)
  (f : fragment) (ev : fragment_event) :
  wired (fst (request cfg prior pre)) = true →
  not_found_in (fid f) pre →
  not_found_in (fid f) mid →
  emits (fid f) (name_of ev) mid = false →
  ∃ o,
    snd (step cfg
           (fst (request cfg prior (pre ++ FragmentFound f :: mid)))
           (FragmentEmits (fid f) ev))
    = Emit (EFragment (name_of ev) (attrs f) ev) :: o
    ∧ List.filter is_fragment_emit o = [].
Proof.
  intros Hw Hpre Hmid Hn.
  rewrite request_run in *. cbn [fst] in *.
  rewrite run_app. cbn [fst]. rewrite run_cons. cbn [fst].
  set (s0 := fst (run cfg (initial prior) pre)) in *.
  rewrite !step_react. cbn [fst snd].
  assert (filter (λ nl, event_name_eqb (fst nl) (name_of ev) = true)
            (listeners_of s0 (fid f)) = []) as H0.
  { apply filter_none. apply (run_waits pre (initial prior)); [exact Hpre|].
    reflexivity. }
  assert (st_of (react cfg (FragmentFound f) s0)
          = st_of (fragmentFound f s0)) as ->
    by (cbn [react]; unfold branch; now rewrite Hw).
  destruct (found_listeners f s0) as (extra & Hls & Hp & Hw1).
  set (s1 := st_of (fragmentFound f s0)) in *.
  set (s2 := fst (run cfg s1 mid)).
  assert (wired s2 = true) as Hw2
    by (apply run_wired; now rewrite Hw1).
  assert (filter (λ nl, event_name_eqb (fst nl) (name_of ev) = true)
            (listeners_of s2 (fid f))
          = (name_of ev, Reemit (attrs f))
            :: filter (λ nl, event_name_eqb (fst nl) (name_of ev) = true)
                 extra) as Hhit.
  { subst s2. rewrite (run_named mid s1) by assumption.
    now rewrite Hls, filter_app, H0, hit_first. }
  cbn [react]. unfold branch. rewrite Hw2.
  unfold fragmentEmits, reading. rewrite seq_upd.
  fold (listeners_of s2 (fid f)).
  rewrite Hhit. cbn [each snd invoke].
  match goal with
  | |- ∃ o, out_of ((act ?a ;; ?p) ?s) = _ ∧ _ =>
      destruct (seq_act a p s) as [_ ->]; exists (out_of (p s))
  end.
  split; [reflexivity|].
  apply quiet_each_primary.
  apply Forall_forall. intros nl Hnl.
  apply list_elem_of_filter in Hnl as [_ Hnl].
  rewrite Forall_forall in Hp. now apply Hp.
Qed.

End HandlerMore.

(** ** The further properties on sample requests *)

Section MoreExamples.
Import Handler HandlerInv HandlerTraces Samples MoreSamples.

Lemma template_failure_is_final_witness :
  templateP (fst (request cfg_plain 0 [ContextRejected plain_error]))
  = Pending
  ∧ ∃ before after,
      snd (request cfg_plain 0
             ([ContextRejected plain_error]
              ++ TemplateRejected not_found :: [Finish; Data "late"]))
      = before
        ++ [Emit (EError not_found);
            WriteHead (error_status not_found) baseline;
            ResponseEnd (error_body not_found)]
        ++ after
      ∧ Forall (λ a, is_emit a = true) before
      ∧ Forall (λ a, is_context_error a = true) after.
Proof.
  split; [reflexivity|].
  apply (template_failure_is_final cfg_plain 0
           [ContextRejected plain_error] [Finish; Data "late"] not_found).
  reflexivity.
Defined.

Lemma fragment_events_once_per_name_witness :
  snd (step cfg_plain
         (fst (request cfg_plain 0
                 (wired_up ++ FragmentFound some_fragment :: [Data "x"]
                  ++ FragmentEmits 5 (FWarn plain_error)
                     :: [Data "y"; Finish])))
         (FragmentEmits 5 (FWarn not_found)))
  = [].
Proof.
  apply (fragment_events_once_per_name cfg_plain 0 wired_up [Data "x"]
           [Data "y"; Finish] some_fragment (FWarn plain_error)
           (FWarn not_found)).
  - intros f Hf. unfold wired_up in Hf.
    repeat (apply elem_of_cons in Hf as [Hf|Hf]; [discriminate|]).
    now apply elem_of_nil in Hf.
  - intros f Hf.
    repeat (apply elem_of_cons in Hf as [Hf|Hf]; [discriminate|]).
    now apply elem_of_nil in Hf.
  - intros f Hf.
    repeat (apply elem_of_cons in Hf as [Hf|Hf]; [discriminate|]).
    now apply elem_of_nil in Hf.
  - reflexivity.
Defined.

(** The primary fragment is found; the page is streamed, the fragment
    starts, another fragment is found and responds; then the primary
    fragment responds. *)
Lemma found_fragment_events_forwarded_witness :
  ∃ o,
    snd (step cfg_plain
           (fst (request cfg_plain 0
                   (wired_up ++ FragmentFound first_primary
                    :: [Data "x"; FragmentEmits 0 FStart;
                        FragmentFound some_fragment;
                        FragmentEmits 5 (FResponse 200 ∅)])))
           (FragmentEmits 0 (FResponse 200 ∅)))
    = Emit (EFragment EvResponse (attrs first_primary) (FResponse 200 ∅))
      :: o
    ∧ List.filter is_fragment_emit o = [].
Proof.
  apply (found_fragment_events_forwarded cfg_plain 0 wired_up
           [Data "x"; FragmentEmits 0 FStart; FragmentFound some_fragment;
            FragmentEmits 5 (FResponse 200 ∅)]
           first_primary (FResponse 200 ∅)).
  - reflexivity.
  - intros f Hf. unfold wired_up in Hf.
    repeat (apply elem_of_cons in Hf as [Hf|Hf]; [discriminate|]).
    now apply elem_of_nil in Hf.
  - intros f Hf.
    repeat (apply elem_of_cons in Hf as [Hf|Hf];
            [try discriminate; injection Hf as ->; discriminate|]).
    now apply elem_of_nil in Hf.
  - reflexivity.
Defined.

End MoreExamples.

(** ** The preload hints in the head of the page *)

Section LinkHeader.
Import JsString Preload Handler HandlerInv HandlerTraces.
Local Open Scope proc_scope.

Variable cfg : config.

Lemma frugal_stays (p : proc) : stays responseHeaders p → frugal p.
Proof. intros H st. left. apply H. Qed.

Lemma frugal_seq (p q : proc) : frugal p → frugal q → frugal (p ;; q).
Proof.
  intros Hp Hq st. specialize (Hp st). unfold seq, st_of, out_of in *.
  destruct (p st) as [[[|] st1] o1]; cbn [fst snd] in *; [|exact Hp].
  specialize (Hq st1). unfold st_of, out_of in Hq.
  destruct (q st1) as [[ok st2] o2]. cbn [fst snd] in *.
  rewrite count_app. destruct Hp as [<-|Hp]; [|right; lia].
  destruct Hq as [Hq|Hq]; [now left | right; lia].
Qed.

Lemma frugal_each {B : Type} (f : B → proc) (l : list B) :
  (∀ x, frugal (f x)) → frugal (each f l).
Proof.
  intros H. induction l as [|x l IH]; [now left|].
  cbn [each]. now apply frugal_seq.
Qed.

Lemma frugal_primaryResponse (a : attributes) (sc : Z)
  (hs : gmap string string) : frugal (primaryResponse cfg a sc hs).
Proof.
  intros st. right. rewrite primaryResponse_cases. cbv zeta.
  destruct (headersSent st).
  - unfold out_of. cbn [snd]. rewrite !count_cons. simpl. lia.
  - destruct (pipe _) as [[ok st'] o]. unfold out_of. cbn [snd].
    rewrite !count_cons. simpl. lia.
Qed.

Lemma frugal_invoke (ev : fragment_event) (l : listener) :
  frugal (invoke cfg ev l).
Proof.
  destruct l as [a|a| |], ev; cbn [invoke];
    try apply frugal_primaryResponse;
    apply frugal_stays; unfold primaryFallback, primaryError, pipe,
      meter_end, meter_write, response_finish, response_end;
    repeat match goal with
      | |- stays _ (seq _ _) => apply stays_seq
      | |- stays _ skip => apply stays_skip
      | |- stays _ (act _) => apply stays_act
      | |- stays _ (branch _ _ _) => apply stays_branch
      | |- stays _ (reading _) => apply stays_reading; intros ?; cbv beta zeta
      | |- stays _ (each _ _) => apply stays_each; intros ?; cbv beta zeta
      | |- stays _ (upd _) => apply stays_upd; intros []; reflexivity
      | |- stays _ (writeHead _) =>
          apply stays_writeHead; intros ? []; reflexivity
      end.
Qed.

Lemma frugal_react (ev : event) : frugal (react cfg ev).
Proof.
  destruct ev as [tpl|e|c|e|f|id fe|  |e|chunk| ]; cbn [react];
    try (apply frugal_stays;
         unfold handleError, finish, fragmentFound, handlePrimaryFragment,
           settle, onResolved, pipe, meter_end, meter_write,
           response_finish, response_end;
         repeat match goal with
           | |- stays _ (seq _ _) => apply stays_seq
           | |- stays _ skip => apply stays_skip
           | |- stays _ (act _) => apply stays_act
           | |- stays _ (branch _ _ _) => apply stays_branch
           | |- stays _ (reading _) =>
               apply stays_reading; intros ?; cbv beta zeta
           | |- stays _ (each _ _) =>
               apply stays_each; intros ?; cbv beta zeta
           | |- stays _ (upd _) => apply stays_upd; intros []; reflexivity
           | |- stays _ (writeHead _) =>
               apply stays_writeHead; intros ? []; reflexivity
           | |- stays _ (match ?x with _ => _ end) => destruct x
           end; fail).
  intros st. unfold branch. destruct (wired st); [|now left].
  unfold fragmentEmits, reading. rewrite seq_upd.
  match goal with
  | |- context [each ?f ?l ?s] =>
      destruct (frugal_each f l (λ nl, frugal_invoke fe (snd nl)) s)
        as [H|H]
  end; [left; rewrite H; now destruct st | now right].
Qed.

Lemma run_frugal (evs : list event) (st : state) :
  responseHeaders (fst (run cfg st evs)) = responseHeaders st
  ∨ (1 ≤ count is_writeHead (snd (run cfg st evs)))%nat.
Proof.
  revert st. induction evs as [|ev evs IH]; intros st; [now left|].
  rewrite run_cons, step_react. cbn [fst snd]. rewrite count_app.
  destruct (frugal_react ev st) as [H|H]; [|right; lia].
  destruct (IH (st_of (react cfg ev st))) as [H'|H']; [|right; lia].
  left. congruence.
Qed.

(** *** The values of a header in the heads written *)

Lemma head_values_app (k : string) (t1 t2 : list action) :
  head_values k (t1 ++ t2) = head_values k t1 ++ head_values k t2.
Proof. unfold head_values. apply omap_app. Qed.

Lemma head_values_none (k : string) (t : list action) :
  count is_writeHead t = 0%nat → head_values k t = [].
Proof.
  intros H. apply count_zero in H.
  induction H as [|a t Ha Ht IH]; [reflexivity|].
  destruct a; try discriminate; exact IH.
Qed.

(** The listeners called for the first [response] of the fragment that
    claimed the head write one head, the one of [response_head]. *)
Lemma each_invoke_response (k : string) (a : attributes) (sc : Z)
  (hs : gmap string string) (n : event_name)
  (ls : list (event_name * listener)) (st : state) :
  headersSent st = false →
  prim ls = [(n, PrimaryResponse a)] →
  head_values k
    (out_of (each (λ nl, invoke cfg (FResponse sc hs) (snd nl)) ls st))
  = [(sc, response_head cfg a hs (responseHeaders st) !! k)].
Proof.
  intros Hh. induction ls as [|[m l] ls IH]; [discriminate|].
  unfold prim. rewrite filter_cons. fold (prim ls). cbn [snd each].
  destruct (decide (is_primary_listener l = true)) as [E|E].
  - intros [= -> -> Hnil]. cbn [invoke]. unfold seq.
    rewrite primaryResponse_cases. cbv zeta. rewrite Hh.
    pose proof (heads_pipe
                  (set_head sc
                     (set_responseHeaders
                        (response_head cfg a hs (responseHeaders st)) st)))
      as Hp.
    destruct (pipe _) as [[ok st'] o]. unfold out_of in *. cbn [snd] in *.
    assert (head_values k o = []) as Ho by (apply head_values_none; lia).
    destruct ok; cbv beta iota.
    + pose proof (heads_invoke_all cfg (FResponse sc hs) ls st') as Hr.
      rewrite Hnil in Hr. unfold out_of in Hr.
      destruct (each _ ls st') as [[ok2 st2] o2]. cbn [snd] in *.
      change (Emit (EResponse sc (response_head cfg a hs (responseHeaders st)))
              :: WriteHead sc (response_head cfg a hs (responseHeaders st))
              :: o)
        with ([Emit (EResponse sc
                       (response_head cfg a hs (responseHeaders st)));
               WriteHead sc (response_head cfg a hs (responseHeaders st))]
              ++ o).
      rewrite !head_values_app, Ho.
      rewrite (head_values_none k o2) by (simpl in Hr; lia).
      reflexivity.
    + change (Emit (EResponse sc (response_head cfg a hs (responseHeaders st)))
              :: WriteHead sc (response_head cfg a hs (responseHeaders st))
              :: o)
        with ([Emit (EResponse sc
                       (response_head cfg a hs (responseHeaders st)));
               WriteHead sc (response_head cfg a hs (responseHeaders st))]
              ++ o).
      cbn [snd]. rewrite head_values_app, Ho. reflexivity.
  - intros Hprim. destruct l as [a'|a'| |]; try (now elim E).
    cbn [invoke].
    destruct (seq_act (Emit (EFragment (name_of (FResponse sc hs)) a'
                               (FResponse sc hs)))
                (each (λ nl, invoke cfg (FResponse sc hs) (snd nl)) ls) st)
      as [_ ->].
    cbn [head_values omap]. now apply IH.
Qed.

Lemma response_head_link (a : attributes) (hs rh : gmap string string) :
  response_head cfg a hs rh !! "link"
  = if truthy (preloadAssets cfg hs) then Some (preloadAssets cfg hs)
    else assign_filtered cfg a hs rh !! "link".
Proof.
  unfold response_head, assign_link.
  assert (assign_location hs (assign_filtered cfg a hs rh) !! "link"
          = assign_filtered cfg a hs rh !! "link") as Hl.
  { unfold assign_location. destruct (hs !! "location") as [l|]; [|done].
    destruct (truthy l); [|done]. now rewrite lookup_insert_ne. }
  destruct (truthy (preloadAssets cfg hs));
    [now rewrite lookup_insert_eq | exact Hl].
Qed.

(** *** From the fragment found to its response *)

(** Once the latch is cleared, the listeners of [handlePrimaryFragment]
    for an event stay with the fragment until it emits that event. *)
Lemma react_prim_named (ev : event) (st : state) (id : nat)
  (n : event_name) :
  shouldWriteHead st = false →
  emits id n [ev] = false →
  prim_for n (listeners_of (st_of (react cfg ev st)) id)
  = prim_for n (listeners_of st id).
Proof.
  intros El Hn.
  destruct (settles ev) eqn:Es;
    [unfold listeners_of; now rewrite (stays_listeners_settles cfg ev Es)|].
  destruct (wired st) eqn:Hw; [|now rewrite unwired_plain].
  destruct ev as [tpl|e|c|e|f|id2 fe|  |e|chunk| ]; try discriminate;
    cbn [react].
  - unfold branch. rewrite Hw, fragmentFound_result.
    unfold st_of. cbn [fst snd]. cbv zeta.
    rewrite El, andb_false_r, listeners_of_add.
    destruct (decide (fid f = id)) as [<-|_]; [|reflexivity].
    unfold prim_for. now rewrite prim_add_reemit.
  - unfold branch. rewrite Hw. unfold listeners_of at 1.
    destruct (fragmentEmits_listeners cfg id2 fe st) as [-> _].
    destruct (decide (id2 = id)) as [->|Hne].
    + rewrite lookup_insert_eq. simpl default.
      fold (listeners_of st id). unfold prim_for, prim.
      rewrite (filter_comm _ (λ nl, event_name_eqb (fst nl) (name_of fe)
                                    = false)).
      apply filter_other.
      unfold emits in Hn. simpl in Hn. rewrite Nat.eqb_refl in Hn.
      simpl in Hn. now apply orb_false_iff in Hn as [Hn _].
    + now rewrite lookup_insert_ne.
  - unfold branch. rewrite Hw. cbn [andb]. destruct (finishL st);
      [|reflexivity].
    rewrite seq_upd, finish_unlatched by (now destruct st).
    now destruct st.
  - unfold branch. rewrite Hw. cbn [andb]. destruct (errorL st);
      [|reflexivity].
    rewrite seq_upd.
    assert (stays listeners (handleError e)) as S.
    { unfold handleError, meter_end, response_finish, response_end.
      repeat match goal with
        | |- stays _ (seq _ _) => apply stays_seq
        | |- stays _ skip => apply stays_skip
        | |- stays _ (act _) => apply stays_act
        | |- stays _ (branch _ _ _) => apply stays_branch
        | |- stays _ (reading _) =>
            apply stays_reading; intros ?; cbv beta zeta
        | |- stays _ (upd _) => apply stays_upd; intros []; reflexivity
        | |- stays _ (writeHead _) =>
            apply stays_writeHead; intros ? []; reflexivity
        | |- stays _ (match ?x with _ => _ end) => destruct x
        end. }
    unfold listeners_of. rewrite S. now destruct st.
  - assert (stays listeners (react cfg (Data chunk))) as S.
    { cbn [react]. unfold meter_write.
      repeat match goal with
        | |- stays _ (seq _ _) => apply stays_seq
        | |- stays _ skip => apply stays_skip
        | |- stays _ (act _) => apply stays_act
        | |- stays _ (branch _ _ _) => apply stays_branch
        | |- stays _ (upd _) => apply stays_upd; intros []; reflexivity
        end. }
    cbn [react] in S. unfold listeners_of. now rewrite S.
  - assert (stays listeners (react cfg SourceEnd)) as S.
    { cbn [react]. unfold meter_end, response_finish.
      repeat match goal with
        | |- stays _ (seq _ _) => apply stays_seq
        | |- stays _ skip => apply stays_skip
        | |- stays _ (act _) => apply stays_act
        | |- stays _ (branch _ _ _) => apply stays_branch
        | |- stays _ (reading _) =>
            apply stays_reading; intros ?; cbv beta zeta
        | |- stays _ (upd _) => apply stays_upd; intros []; reflexivity
        end. }
    cbn [react] in S. unfold listeners_of. now rewrite S.
Qed.

Lemma run_prim_named (evs : list event) (st : state) (id : nat)
  (n : event_name) :
  shouldWriteHead st = false →
  emits id n evs = false →
  prim_for n (listeners_of (fst (run cfg st evs)) id)
  = prim_for n (listeners_of st id).
Proof.
  revert st. induction evs as [|ev evs IH]; intros st El Hn; [auto|].
  rewrite emits_cons in Hn. apply orb_false_iff in Hn as [Hn1 Hn2].
  rewrite run_cons. cbn [fst]. rewrite step_react. cbn [fst].
  rewrite IH; [now apply react_prim_named| |exact Hn2].
  now apply react_latch.
Qed.

Lemma head_kinds_none (id : nat) (evs : list event) :
  head_kinds id evs = 0%nat →
  emits id EvResponse evs = false.
Proof.
  unfold head_kinds, head_names. cbn [List.filter].
  now destruct (emits id EvResponse evs).
Qed.

(** The fragment that claims the head responds, having emitted none of
    the three events before: the head of the page is written then, for
    the first time, with the headers of [response_head] over the baseline
    ones. *)
Lemma claimant_response (prior : Z) (pre mid : list event) (f : fragment)
  (sc : Z) (hs : gmap string string) (k : string) :
  claims_head (fst (request cfg prior pre)) f = true →
  head_kinds (fid f) mid = 0%nat →
  head_values k
    (snd (request cfg prior
            (pre ++ FragmentFound f :: mid
             ++ [FragmentEmits (fid f) (FResponse sc hs)])))
  = [(sc, response_head cfg (attrs f) hs baseline !! k)].
Proof.
  intros Hc Hk.
  replace (pre ++ FragmentFound f :: mid
           ++ [FragmentEmits (fid f) (FResponse sc hs)])
    with ((pre ++ FragmentFound f :: mid)
          ++ [FragmentEmits (fid f) (FResponse sc hs)])
    by (now rewrite <- app_assoc).
  rewrite request_snoc. cbn [snd]. rewrite head_values_app.
  destruct (request_inv cfg prior pre) as [Hs0 Ht0].
  destruct (request_inv cfg prior (pre ++ FragmentFound f :: mid))
    as [Hs2 Ht2].
  unfold claims_head in Hc.
  apply andb_true_iff in Hc as [Hc Hp].
  apply andb_true_iff in Hc as [Hw0 El0].
  destruct (inv_latch _ _ Hs0 El0) as (Hh0 & _ & _ & Hprim0).
  (* the states on the way *)
  rewrite !request_run in *. cbn [fst snd] in *.
  set (s0 := fst (run cfg (initial prior) pre)) in *.
  destruct (run_armed cfg pre _ None (initial_armed prior))
    as (who0 & A0 & _).
  fold s0 in A0. assert (who0 = None) as -> by (now apply A0).
  destruct (fragmentFound_arms f s0 A0 El0 Hp) as [A1 El1].
  set (s1 := st_of (fragmentFound f s0)) in *.
  assert (run cfg (initial prior) (pre ++ FragmentFound f :: mid)
          = (fst (run cfg s1 mid),
             snd (run cfg (initial prior) pre) ++ snd (run cfg s1 mid)))
    as Hrun.
  { rewrite run_app, run_cons. cbn [fst snd]. rewrite step_react.
    cbn [fst snd]. fold s0.
    assert (react cfg (FragmentFound f) s0 = fragmentFound f s0) as ->
      by (cbn [react]; unfold branch; now rewrite Hw0).
    fold s1. now rewrite fragmentFound_result. }
  rewrite Hrun in *. cbn [fst snd] in *.
  set (s2 := fst (run cfg s1 mid)) in *.
  set (t1 := snd (run cfg s1 mid)) in *.
  (* no head was written so far *)
  assert (count is_writeHead (snd (run cfg (initial prior) pre)) = 0%nat)
    as C0.
  { pose proof (tr_before _ _ Ht0 Hh0) as Hsil.
    apply count_zero.
    inversion Hsil as [|? ? _ Hrest]; subst.
    eapply Forall_impl; [exact Hrest|]. now intros x [Hx _]. }
  assert (count is_writeHead t1 = 0%nat) as C1.
  { assert (claimant_heads_once cfg s1 mid) as Hno.
    { intros pre' f' post _ Hc'. unfold claims_head in Hc'.
      rewrite (run_latch cfg pre' s1 El1), andb_false_r in Hc'.
      discriminate. }
    pose proof (run_heads cfg mid s1 (Some (fid f)) A1 Hno) as Hb.
    unfold heads_left in Hb. rewrite El1 in Hb.
    pose proof (pending_kinds s1 (fid f) mid
                  (λ n, proj2 (proj2 A1 (fid f)) n)).
    subst t1. lia. }
  assert (count is_writeHead
            (Emit EStart :: snd (run cfg (initial prior) pre) ++ t1)
          = 0%nat) as C2.
  { rewrite count_cons, count_app. simpl. lia. }
  assert (headersSent s2 = false) as Hh2.
  { destruct (headersSent s2) eqn:E; [|reflexivity].
    pose proof (tr_sent _ _ Ht2 E). lia. }
  assert (responseHeaders s2 = baseline) as Hr2.
  { destruct (run_frugal (pre ++ FragmentFound f :: mid) (initial prior))
      as [H|H]; rewrite Hrun in H; cbn [fst snd] in H; [exact H|].
    fold t1 in H. rewrite count_cons in C2. simpl in C2. lia. }
  assert (wired s2 = true) as Hw2.
  { apply run_wired. subst s1. rewrite fragmentFound_result.
    unfold st_of. cbn [fst snd]. cbv zeta.
    destruct (primary (attrs f) && shouldWriteHead s0); now destruct s0. }
  (* the listener of [response] is still there *)
  assert (prim_for EvResponse (listeners_of s2 (fid f))
          = [(EvResponse, PrimaryResponse (attrs f))]) as Hl2.
  { subst s2. rewrite run_prim_named;
      [|exact El1|now apply head_kinds_none].
    subst s1. rewrite fragmentFound_result.
    unfold st_of. cbn [fst snd]. cbv zeta. rewrite Hp, El0. cbn [andb].
    rewrite listeners_of_add, decide_True by reflexivity.
    replace (listeners_of (set_shouldWriteHead false
               (add_listeners (fid f)
                  (map (λ n, (n, Reemit (attrs f))) FRAGMENT_EVENTS) s0)))
      with (listeners_of
              (add_listeners (fid f)
                 (map (λ n, (n, Reemit (attrs f))) FRAGMENT_EVENTS) s0))
      by (now destruct s0).
    rewrite listeners_of_add, decide_True by reflexivity.
    unfold prim_for, prim. rewrite !filter_app.
    fold (prim (listeners_of s0 (fid f))). rewrite Hprim0.
    reflexivity. }
  rewrite (head_values_none k _ C2). cbn [app].
  (* the step of the response *)
  cbn [react]. unfold branch. rewrite Hw2.
  unfold fragmentEmits, reading. rewrite seq_upd.
  fold (listeners_of s2 (fid f)).
  rewrite (each_invoke_response k (attrs f) sc hs EvResponse).
  - replace (responseHeaders (set_listeners _ s2)) with (responseHeaders s2)
      by (now destruct s2).
    now rewrite Hr2.
  - now destruct s2.
  - now rewrite prim_hit.
Qed.

(** *** What the specification claims of the link header *)

(** C6, as the code has it.  The value of [getAssetsToPreload] joins
    with a comma first the style hints and then the script hints, in the
    order of the entries; it is empty when both the first script address
    and the first style address are missing, which is the case when no
    entry has one of the two relations.  A script hint is the text
    [<uri>; rel=preload; as=script; nopush] followed by a semicolon and a
    space and then by [crossorigin] or by nothing; [crossorigin] stands
    there exactly when the request has a non-empty host and [://host]
    occurs nowhere in the address.  The listener of the primary
    [response] computes this value from the [link] header of the
    fragment and the host of the request, when that header is there and
    not empty, and sets the [link] header of the page to it unless it is
    empty; it then leaves the header as the filtered headers have it.
    These headers are the ones it emits with [response] and passes to
    [writeHead]: in a request in which the fragment that claims the head
    responds, having emitted none of [response], [fallback] and [error]
    before, this is the only head written so far, and its [link] header
    is the value of the hints or, when that is empty, what
    [filterResponseHeaders] returns for [link], and absent when there is
    no such option. *)
Theorem getAssetsToPreload_hints (refs : list link_ref)
  (reqHost : option string) :
  ((∀ r, r ∈ refs → rel r ≠ "stylesheet" ∧ rel r ≠ "fragment-script") →
   getAssetsToPreload refs reqHost = "")
  ∧ (no_first (scriptRefs refs) && no_first (styleRefs refs) = true →
     getAssetsToPreload refs reqHost = "")
  ∧ (no_first (scriptRefs refs) && no_first (styleRefs refs) = false →
     getAssetsToPreload refs reqHost
     = join "," (map style_hint (styleRefs refs)
                 ++ map (script_hint reqHost) (scriptRefs refs))
     ∧ getAssetsToPreload refs reqHost ≠ "")
  ∧ (∀ u, script_hint reqHost u
          = spec_script_hint u false +:+ "; "
            +:+ getCrossOriginHeader u reqHost)
  ∧ (∀ u, getCrossOriginHeader u reqHost = "crossorigin"
          ∨ getCrossOriginHeader u reqHost = "")
  ∧ (∀ u, getCrossOriginHeader u reqHost = "crossorigin"
          ↔ ∃ h, reqHost = Some h ∧ h ≠ ""
                 ∧ ∀ n, ¬ occurs_at ("://" +:+ h) u n)
  ∧ (∀ hs,
       preloadAssets cfg hs
       = match hs !! "link" with
         | Some l =>
             if truthy l then getAssetsToPreload (parse cfg l) (host cfg)
             else ""
         | None => ""
         end)
  ∧ (∀ a hs rh,
       response_head cfg a hs rh !! "link"
       = if truthy (preloadAssets cfg hs) then Some (preloadAssets cfg hs)
         else assign_filtered cfg a hs rh !! "link")
  ∧ (∀ a sc hs st,
       ∃ o, out_of (primaryResponse cfg a sc hs st)
            = Emit (EResponse sc
                      (response_head cfg a hs (responseHeaders st)))
              :: WriteHead sc (response_head cfg a hs (responseHeaders st))
              :: o)
  ∧ (∀ prior pre mid f sc hs,
       claims_head (fst (request cfg prior pre)) f = true →
       head_kinds (fid f) mid = 0%nat →
       head_values "link"
         (snd (request cfg prior
                 (pre ++ FragmentFound f :: mid
                  ++ [FragmentEmits (fid f) (FResponse sc hs)])))
       = [(sc,
           if truthy (preloadAssets cfg hs)
           then Some (preloadAssets cfg hs)
           else match filterResponseHeaders cfg with
                | Some filter => filter (attrs f) hs !! "link"
                | None => None
                end)]).
Proof.
  destruct (hints_value refs reqHost) as (H1 & H2 & H3).
  split; [exact H1|]. split; [exact H2|]. split; [exact H3|].
  split; [apply script_hint_text|].
  split; [intros u; apply crossorigin_values|].
  split; [intros u; apply crossorigin_iff|].
  split; [reflexivity|].
  split; [apply response_head_link|].
  split.
  - intros a sc hs st. rewrite primaryResponse_cases. cbv zeta.
    destruct (headersSent st); [now exists []|].
    destruct (pipe _) as [[ok st'] o]. now exists o.
  - intros prior pre mid f sc hs Hc Hk.
    rewrite (claimant_response prior pre mid f sc hs "link" Hc Hk).
    rewrite response_head_link.
    destruct (truthy (preloadAssets cfg hs)); [reflexivity|].
    unfold assign_filtered.
    destruct (filterResponseHeaders cfg) as [filter|]; [|reflexivity].
    rewrite lookup_union_l; reflexivity.
Qed.

End LinkHeader.

(** ** The link header on sample requests *)

Section LinkExamples.
Import JsString Preload Handler HandlerInv Samples MoreSamples.

(** C6, as the specification words it, fails for a script served by the
    host of the request: the hint ends in a semicolon and a space.  And
    the page can carry a [link] header although no entry of the
    fragment's header is a stylesheet or a fragment script: the one
    [filterResponseHeaders] passes on. *)
Lemma getAssetsToPreload_same_host_script :
  getAssetsToPreload [LinkRef "fragment-script" "http://localhost/a.js"]
    (Some "localhost")
  = spec_script_hint "http://localhost/a.js" false +:+ "; "
  ∧ String.eqb
      (getAssetsToPreload [LinkRef "fragment-script" "http://localhost/a.js"]
         (Some "localhost"))
      (spec_script_hint "http://localhost/a.js" false) = false
  ∧ preloadAssets cfg_link canonical_link = ""
  ∧ head_values "link"
      (snd (request cfg_link 0
              (primary_found
               ++ [FragmentEmits 0 (FResponse 200 canonical_link)])))
    = [(200, Some "<http://localhost/>; rel=canonical")].
Proof. repeat split; vm_compute; reflexivity. Qed.

(** The primary fragment is found, the page is streamed and the
    fragment starts; then it responds with a [link] header that names a
    stylesheet and a script: the page gets the two hints. *)
Lemma getAssetsToPreload_hints_witness :
  head_values "link"
    (snd (request cfg_assets 0
            (wired_up ++ FragmentFound first_primary
             :: [Data "x"; FragmentEmits 0 FStart]
             ++ [FragmentEmits 0 (FResponse 200 assets_link)])))
  = [(200,
      Some (join ","
              [style_hint "http://cdn/a.css";
               spec_script_hint "http://cdn/a.js" false
               +:+ "; crossorigin"]))].
Proof.
  etransitivity;
    [exact (proj2 (proj2 (proj2 (proj2 (proj2 (proj2 (proj2 (proj2 (proj2
              (getAssetsToPreload_hints cfg_assets [] None)))))))))
              0 wired_up [Data "x"; FragmentEmits 0 FStart] first_primary
              200 assets_link eq_refl eq_refl)
    |reflexivity].
Defined.

End LinkExamples.
